(** * libsampler/hashmap.h: open addressing with linear probing

    A shallow embedding of [v8::sampler::HashMapImpl] and the proofs of its
    table invariants, of the back-shift removal and of growth.

    Conventions of the embedding:
    - [void*] keys and values are integers, [NULL] is [0];
    - [uint32_t] fields are integers with the wrap-around modulo [2^32]
      written out ([u32]);
    - an [Entry*] into the backing array is its offset from [map_], an
      integer; reading or writing outside the block is undefined behaviour
      and yields [None];
    - loops run on fuel taken from the size of the backing array; [None]
      also stands for a loop that would never leave. *)

From Stdlib Require Import ZArith Lia Bool List Sorted.
From stdpp Require Import base option list.

Local Open Scope Z_scope.

(** ** Data model *)

Definition NULL : Z := 0.

(** [uint32_t] arithmetic wraps. *)
Definition u32 (x : Z) : Z := x mod 2 ^ 32.

(** Conversion [uint32_t -> int] as done by [p->order = occupancy_]. *)
Definition to_int (x : Z) : Z := if x <? 2 ^ 31 then x else x - 2 ^ 32.

(** [struct Entry { void* key; void* value; uint32_t hash; int order; }] *)
Record Entry : Type := mkEntry {
  key : Z;
  value : Z;
  hash : Z;
  order : Z
}.

(** The private fields [map_], [capacity_], [occupancy_]; the match function
    [match_] is fixed at construction and is a parameter of the section
    below. *)
Record HashMapImpl : Type := mkMap {
  map_ : list Entry;
  capacity_ : Z;
  occupancy_ : Z
}.

(** [HashMapImpl::kDefaultHashMapCapacity] *)
Definition kDefaultHashMapCapacity : Z := 8.

(** [HashMapImpl::PointersMatch] *)
Definition PointersMatch (key1 key2 : Z) : bool := key1 =? key2.

(** Reading [map_[p]]. *)
Definition slot (t : list Entry) (p : Z) : option Entry :=
  if p <? 0 then None else t !! Z.to_nat p.

(** Writing [map_[p] = e]. *)
Definition store (t : list Entry) (p : Z) (e : Entry) : list Entry :=
  <[Z.to_nat p := e]> t.

Definition with_map (m : HashMapImpl) (t : list Entry) : HashMapImpl :=
  {| map_ := t; capacity_ := capacity_ m; occupancy_ := occupancy_ m |}.

(** [p->key = NULL] *)
Definition clear_key (e : Entry) : Entry :=
  {| key := NULL; value := value e; hash := hash e; order := order e |}.

(** [uint32_t occupancy() const], [uint32_t capacity() const] *)
Definition occupancy (m : HashMapImpl) : Z := occupancy_ m.
Definition capacity (m : HashMapImpl) : Z := capacity_ m.

(** The index computed by [hash & (capacity_ - 1)]. *)
Definition start_index (cap h : Z) : Z := Z.land h (u32 (cap - 1)).

(** The growth test of [LookupOrInsert]:
    [occupancy_ + occupancy_ / 4 >= capacity_]. *)
Definition needs_growth (occ cap : Z) : bool :=
  u32 (occ + occ / 4) >=? cap.

(** The test of the back-shift loop of [Remove] on the offsets of [p], [q]
    and [r]. *)
Definition moves (p q r : Z) : bool :=
  (q >? p) && ((r <=? p) || (r >? q)) ||
  (q <? p) && ((r <=? p) && (r >? q)).

Section HashMap.

(** [MatchFun match_] *)
Variable match_ : Z -> Z -> bool.

(** The contents of a slot of a block fresh from the allocator: the
    source leaves them unspecified. *)
Variable uninit : Entry.

(** Modelled from the spec: [Malloced::New] of src/libsampler/utils.h, which
    is not among the sources; an external collaborator providing raw
    allocation, here of a block of [n] entries. Failure to allocate is fatal
    and has no result to model; [Malloced::Delete] leaves no trace in the
    table. *)
Definition Malloced_New (n : Z) : list Entry := repeat uninit (Z.to_nat n).

(** *** Probe *)

(** The condition of the [while] of [Probe] at an entry [e]:
    [p->key != NULL && (hash != p->hash || !match_(key, p->key))]. *)
Definition keeps_probing (k h : Z) (e : Entry) : bool :=
  negb (key e =? NULL) && (negb (h =? hash e) || negb (match_ k (key e))).

(** The loop of [Probe], started at offset [p]. *)
Fixpoint Probe_loop (fuel : nat) (m : HashMapImpl) (k h p : Z) : option Z :=
  match fuel with
  | O => None
  | S fuel' =>
      match slot (map_ m) p with
      | None => None
      | Some e =>
          if keeps_probing k h e then
            let p1 := p + 1 in
            Probe_loop fuel' m k h (if p1 >=? capacity_ m then 0 else p1)
          else Some p
      end
  end.

Definition Probe (m : HashMapImpl) (k h : Z) : option Z :=
  Probe_loop (S (length (map_ m))) m k h (start_index (capacity_ m) h).

(** *** Lookup *)

(** The result is [Some None] for the [NULL] return. *)
Definition Lookup (m : HashMapImpl) (k h : Z) : option (option Z) :=
  p ← Probe m k h;
  e ← slot (map_ m) p;
  Some (if negb (key e =? NULL) then Some p else None).

(** *** Clear and Initialize *)

(** The loop of [Clear] over the [n] first slots of the block. *)
Fixpoint clear_keys (n : nat) (t : list Entry) : list Entry :=
  match n, t with
  | S n', e :: t' => clear_key e :: clear_keys n' t'
  | _, _ => t
  end.

Definition Clear (m : HashMapImpl) : HashMapImpl :=
  {| map_ := clear_keys (Z.to_nat (capacity_ m)) (map_ m);
     capacity_ := capacity_ m;
     occupancy_ := 0 |}.

(** [Initialize] sets [map_] and [capacity_] and leaves [occupancy_] to
    [Clear]. *)
Definition Initialize (cap : Z) : HashMapImpl :=
  Clear {| map_ := Malloced_New cap; capacity_ := cap; occupancy_ := 0 |}.

(** The constructor [HashMapImpl(match, capacity)]. *)
Definition HashMapImpl_new (initial_capacity : Z) : HashMapImpl :=
  Initialize initial_capacity.

(** *** LookupOrInsert and Resize *)

(** The loop of [Resize]: [old] is what is left of the old array from [p]
    on, [n] the number of entries still to move. [ins] is [LookupOrInsert]
    on the new table. *)
Fixpoint rehash (ins : HashMapImpl -> Z -> Z -> option (HashMapImpl * Z))
    (old : list Entry) (n : Z) (m : HashMapImpl) : option HashMapImpl :=
  if n >? 0 then
    match old with
    | [] => None
    | e :: old' =>
        if negb (key e =? NULL) then
          '(m1, entry) ← ins m (key e) (hash e);
          e1 ← slot (map_ m1) entry;
          let e2 := {| key := key e1; value := value e; hash := hash e1;
                       order := order e |} in
          rehash ins old' (n - 1) (with_map m1 (store (map_ m1) entry e2))
        else rehash ins old' n m
    end
  else Some m.

Definition Resize_with (ins : HashMapImpl -> Z -> Z -> option (HashMapImpl * Z))
    (m : HashMapImpl) : option HashMapImpl :=
  let map := map_ m in
  let n := occupancy_ m in
  rehash ins map n (Initialize (u32 (capacity_ m * 2))).

(** [LookupOrInsert] calls [Resize], which calls [LookupOrInsert] on the
    new table: [depth] bounds this nesting, and [Resize] is given the
    [LookupOrInsert] one level down. A table whose block holds [capacity_]
    entries needs two levels ([LookupOrInsert_rec_depth] below). *)
Fixpoint LookupOrInsert_rec (depth : nat) (m : HashMapImpl) (k h : Z)
    : option (HashMapImpl * Z) :=
  match depth with
  | O => None
  | S depth' =>
      p ← Probe m k h;
      e ← slot (map_ m) p;
      if negb (key e =? NULL) then Some (m, p)
      else
        let e' := {| key := k; value := NULL; hash := h;
                     order := to_int (occupancy_ m) |} in
        let m1 := {| map_ := store (map_ m) p e';
                     capacity_ := capacity_ m;
                     occupancy_ := u32 (occupancy_ m + 1) |} in
        if needs_growth (occupancy_ m1) (capacity_ m1) then
          m2 ← Resize_with (LookupOrInsert_rec depth') m1;
          p' ← Probe m2 k h;
          Some (m2, p')
        else Some (m1, p)
  end.

Definition Resize (m : HashMapImpl) : option HashMapImpl :=
  Resize_with (LookupOrInsert_rec 1) m.

Definition LookupOrInsert (m : HashMapImpl) (k h : Z) : option (HashMapImpl * Z) :=
  LookupOrInsert_rec 2 m k h.

(** *** Remove *)

(** One pass of the body of the back-shift loop once [q] was advanced and
    found non-empty: the new table and the new candidate [p]. *)
Definition Remove_shift (m : HashMapImpl) (p q : Z) (ent : Entry) : HashMapImpl * Z :=
  let r := start_index (capacity_ m) (hash ent) in
  if moves p q r then (with_map m (store (map_ m) p ent), q) else (m, p).

Fixpoint Remove_loop (fuel : nat) (m : HashMapImpl) (p q : Z)
    : option (HashMapImpl * Z) :=
  match fuel with
  | O => None
  | S fuel' =>
      let q1 := q + 1 in
      let q2 := if q1 =? capacity_ m then 0 else q1 in
      match slot (map_ m) q2 with
      | None => None
      | Some ent =>
          if key ent =? NULL then Some (m, p)
          else
            let '(m', p') := Remove_shift m p q2 ent in
            Remove_loop fuel' m' p' q2
      end
  end.

(** The result is the table and the returned [void*]. *)
Definition Remove (m : HashMapImpl) (k h : Z) : option (HashMapImpl * Z) :=
  p ← Probe m k h;
  e ← slot (map_ m) p;
  if key e =? NULL then Some (m, NULL)
  else
    let v := value e in
    '(m1, p1) ← Remove_loop (S (length (map_ m))) m p p;
    e1 ← slot (map_ m1) p1;
    Some ({| map_ := store (map_ m1) p1 (clear_key e1);
             capacity_ := capacity_ m1;
             occupancy_ := u32 (occupancy_ m1 - 1) |}, v).

(** *** Start and Next *)

(** The loop of [Next] from offset [p] with [n] slots left before
    [map_end()]. *)
Fixpoint Next_scan (n : nat) (t : list Entry) (p : Z) : option (option Z) :=
  match n with
  | O => Some None
  | S n' =>
      match slot t p with
      | None => None
      | Some e =>
          if negb (key e =? NULL) then Some (Some p)
          else Next_scan n' t (p + 1)
      end
  end.

Definition Next (m : HashMapImpl) (p : Z) : option (option Z) :=
  Next_scan (Z.to_nat (capacity_ m - (p + 1))) (map_ m) (p + 1).

Definition Start (m : HashMapImpl) : option (option Z) := Next m (-1).

(** The client loop [for (p = Start(); p != NULL; p = Next(p))]: the offsets
    visited, in order. *)
Fixpoint iterate_from (fuel : nat) (m : HashMapImpl) (cur : option Z)
    : option (list Z) :=
  match cur with
  | None => Some []
  | Some p =>
      match fuel with
      | O => None
      | S fuel' =>
          nxt ← Next m p;
          rest ← iterate_from fuel' m nxt;
          Some (p :: rest)
      end
  end.

Definition iterate (m : HashMapImpl) : option (list Z) :=
  p ← Start m;
  iterate_from (length (map_ m)) m p.

(** *** Clients *)

(** A sequence of calls of [LookupOrInsert], one per pair of a key and its
    hash. *)
Fixpoint insert_all (m : HashMapImpl) (l : list (Z * Z)) : option HashMapImpl :=
  match l with
  | [] => Some m
  | (k, h) :: l' =>
      '(m', _) ← LookupOrInsert m k h;
      insert_all m' l'
  end.

(** The client's [entry->value = v] on the entry returned by
    [LookupOrInsert]. *)
Definition set_value (m : HashMapImpl) (p v : Z) : option HashMapImpl :=
  e ← slot (map_ m) p;
  Some (with_map m (store (map_ m) p
          {| key := key e; value := v; hash := hash e; order := order e |})).

(** A sequence of [LookupOrInsert(k, h)->value = v]. *)
Fixpoint insert_values (m : HashMapImpl) (l : list (Z * Z * Z))
    : option HashMapImpl :=
  match l with
  | [] => Some m
  | (k, h, v) :: l' =>
      '(m1, p) ← LookupOrInsert m k h;
      m2 ← set_value m1 p v;
      insert_values m2 l'
  end.

(** The public operations that take a table to a table. *)
Inductive Operation : Type :=
  | OpLookup (k h : Z)
  | OpLookupOrInsert (k h : Z)
  | OpRemove (k h : Z)
  | OpClear.

Definition run (op : Operation) (m : HashMapImpl) : option HashMapImpl :=
  match op with
  | OpLookup k h => _ ← Lookup m k h; Some m
  | OpLookupOrInsert k h => '(m', _) ← LookupOrInsert m k h; Some m'
  | OpRemove k h => '(m', _) ← Remove m k h; Some m'
  | OpClear => Some (Clear m)
  end.

(** A sequence of operations on a table. *)
Fixpoint run_all (ops : list Operation) (m : HashMapImpl) : option HashMapImpl :=
  match ops with
  | [] => Some m
  | op :: ops' => m' ← run op m; run_all ops' m'
  end.

End HashMap.

(** [DCHECK(key != NULL)] in [Probe]. *)
Definition key_ok (op : Operation) : Prop :=
  match op with
  | OpLookup k _ | OpLookupOrInsert k _ | OpRemove k _ => k <> NULL
  | OpClear => True
  end.

(** ** Specification vocabulary *)

(** Modelled from the spec: [base::bits::IsPowerOfTwo32] of src/base/bits.h,
    which is not among the sources and is only called in [DCHECK]s: the
    [uint32_t] is a power of two, hence not zero. *)
Definition IsPowerOfTwo32 (c : Z) : Prop := exists k, 0 <= k < 32 /\ c = 2 ^ k.

(** The ideal slot of an entry: its cached hash modulo the capacity. *)
Definition ideal (cap : Z) (e : Entry) : Z := hash e mod cap.

(** Number of forward steps, wrapping at the end of the array, from slot [a]
    to slot [b]. *)
Definition dist (cap a b : Z) : Z := (b - a) mod cap.

(** [r] lies in the cyclic interval from [p] (excluded) to [q] (included). *)
Definition in_cyclic_oc (cap p q r : Z) : Prop :=
  0 < dist cap p r <= dist cap p q.

(** [r] lies strictly between [p] and [q] on the cycle. *)
Definition strictly_between (cap p q r : Z) : Prop :=
  0 < dist cap p r < dist cap p q.

#[global] Instance in_cyclic_oc_dec cap p q r : Decision (in_cyclic_oc cap p q r).
Proof. unfold in_cyclic_oc. apply _. Defined.

#[global] Instance strictly_between_dec cap p q r :
  Decision (strictly_between cap p q r).
Proof. unfold strictly_between. apply _. Defined.

(** The slot after [q], wrapping. *)
Definition next_slot (cap q : Z) : Z := if q + 1 =? cap then 0 else q + 1.

(** Slot [p] holds an entry whose key is not the empty sentinel. *)
Definition live (t : list Entry) (p : Z) : Prop :=
  exists e, slot t p = Some e /\ key e <> NULL.

(** Slot [p] is an empty slot of the array. *)
Definition vacant (t : list Entry) (p : Z) : Prop :=
  exists e, slot t p = Some e /\ key e = NULL.

(** The number of slots whose key is not the empty sentinel. *)
Fixpoint count_live (t : list Entry) : Z :=
  match t with
  | [] => 0
  | e :: t' => (if key e =? NULL then 0 else 1) + count_live t'
  end.

(** The offsets of the live slots of [t], whose first slot has offset [p],
    in increasing order. *)
Fixpoint live_from (t : list Entry) (p : Z) : list Z :=
  match t with
  | [] => []
  | e :: t' => if key e =? NULL then live_from t' (p + 1)
               else p :: live_from t' (p + 1)
  end.

Definition live_slots (m : HashMapImpl) : list Z := live_from (map_ m) 0.

(** The entry [e] is stored, live, in the table. *)
Definition present (m : HashMapImpl) (e : Entry) : Prop :=
  exists s, slot (map_ m) s = Some e /\ key e <> NULL.

(** The backing array holds [capacity_] entries, the capacity is a power of
    two, [occupancy_] counts the live slots and leaves a slot empty
    (invariants 1 and 2). *)
Definition table_wf (m : HashMapImpl) : Prop :=
  Z.of_nat (length (map_ m)) = capacity_ m /\
  IsPowerOfTwo32 (capacity_ m) /\
  occupancy_ m = count_live (map_ m) /\
  occupancy_ m < capacity_ m.

(** The load factor is at most [0.8] (invariant 3). *)
Definition load_ok (m : HashMapImpl) : Prop :=
  5 * occupancy_ m <= 4 * capacity_ m.

(** The entry [e] in slot [s] is reached from its ideal slot before any
    empty slot: every step of the probe sequence before [s] is on a live
    slot. *)
Definition reachable (t : list Entry) (cap s : Z) (e : Entry) : Prop :=
  forall i, 0 <= i < dist cap (ideal cap e) s ->
            live t ((ideal cap e + i) mod cap).

(** Invariant 4. *)
Definition probe_ok (m : HashMapImpl) : Prop :=
  forall s e, slot (map_ m) s = Some e -> key e <> NULL ->
              reachable (map_ m) (capacity_ m) s e.

(** The key [k] with hash [h] is the one of entry [e], by the test of
    [Probe]: equal hashes and keys that match. *)
Definition matches (match_ : Z -> Z -> bool) (k h : Z) (e : Entry) : Prop :=
  h = hash e /\ match_ k (key e) = true.

(** No two live slots hold matching keys under equal hashes. *)
Definition keys_unique (match_ : Z -> Z -> bool) (t : list Entry) : Prop :=
  forall i j e1 e2, slot t i = Some e1 -> slot t j = Some e2 ->
    key e1 <> NULL -> key e2 <> NULL -> i <> j ->
    ~ matches match_ (key e1) (hash e1) e2.

(** The match function is an equality predicate on keys. *)
Definition match_equiv (match_ : Z -> Z -> bool) : Prop :=
  (forall k, match_ k k = true) /\
  (forall k1 k2, match_ k1 k2 = true -> match_ k2 k1 = true) /\
  (forall k1 k2 k3, match_ k1 k2 = true -> match_ k2 k3 = true ->
                    match_ k1 k3 = true).

(** Slot [s] is where the probe for [(k, h)] stops: the loop keeps probing on
    every slot of the walk from the start slot before [s] and stops at
    [s]. *)
Definition probe_stop (match_ : Z -> Z -> bool) (m : HashMapImpl) (k h s : Z)
    : Prop :=
  0 <= s < capacity_ m /\
  (exists e, slot (map_ m) s = Some e /\ keeps_probing match_ k h e = false) /\
  forall j, 0 <= j < capacity_ m ->
    dist (capacity_ m) (h mod capacity_ m) j < dist (capacity_ m) (h mod capacity_ m) s ->
    exists e', slot (map_ m) j = Some e' /\ keeps_probing match_ k h e' = true.

(** All the invariants of a table. *)
Definition table_inv (match_ : Z -> Z -> bool) (m : HashMapImpl) : Prop :=
  table_wf m /\ load_ok m /\ probe_ok m /\ keys_unique match_ (map_ m).

(** The entries of a list, read as an array, carry pairwise different
    keys. *)
Definition list_distinct (match_ : Z -> Z -> bool) (l : list Entry) : Prop :=
  forall (i j : nat) e1 e2, l !! i = Some e1 -> l !! j = Some e2 ->
    key e1 <> NULL -> key e2 <> NULL -> i <> j ->
    ~ matches match_ (key e1) (hash e1) e2.

(** What holds of the fields between the insertion of an entry and the
    growth it triggers: the table may be full. *)
Definition block_ok (m : HashMapImpl) : Prop :=
  Z.of_nat (length (map_ m)) = capacity_ m /\
  IsPowerOfTwo32 (capacity_ m) /\
  occupancy_ m = count_live (map_ m).

(** The invariant of the back-shift loop of [Remove]. [m0] is the table
    [Remove] was called on, [p0] the slot of the entry to remove and [z] an
    empty slot; [m], [p], [q] are the table, the candidate slot and the
    scanned slot. The entries of the slots after [p] up to [q] have their
    ideal slot after [p]; every entry out of [p] is reached from its ideal
    slot, but for slot [p] that may lie on its way; out of [p] the table
    holds the entries of [m0] out of [p0]. *)
Definition shift_inv (match_ : Z -> Z -> bool) (m0 : HashMapImpl) (p0 z : Z)
    (m : HashMapImpl) (p q : Z) : Prop :=
  let cap := capacity_ m0 in
  (Z.of_nat (length (map_ m)) = cap /\ capacity_ m = cap /\
   occupancy_ m = occupancy_ m0 /\
   count_live (map_ m) = count_live (map_ m0)) /\
  (0 <= p < cap /\ 0 <= q < cap /\ 0 <= z < cap /\
   live (map_ m) p /\ live (map_ m) q /\ vacant (map_ m) z) /\
  (forall s, 0 <= s < cap -> in_cyclic_oc cap p q s ->
     exists e, slot (map_ m) s = Some e /\ key e <> NULL /\
               in_cyclic_oc cap p s (ideal cap e)) /\
  (probe_ok m0 ->
   forall s e j, s <> p -> slot (map_ m) s = Some e -> key e <> NULL ->
     0 <= j < cap -> dist cap (ideal cap e) j < dist cap (ideal cap e) s ->
     j <> p -> live (map_ m) j) /\
  (forall s e, s <> p0 -> slot (map_ m0) s = Some e -> key e <> NULL ->
     exists s', s' <> p /\ slot (map_ m) s' = Some e) /\
  (forall s' e, s' <> p -> slot (map_ m) s' = Some e -> key e <> NULL ->
     exists s, s <> p0 /\ slot (map_ m0) s = Some e) /\
  (keys_unique match_ (map_ m0) ->
   forall i j e1 e2, i <> p -> j <> p ->
     slot (map_ m) i = Some e1 -> slot (map_ m) j = Some e2 ->
     key e1 <> NULL -> key e2 <> NULL -> i <> j ->
     ~ matches match_ (key e1) (hash e1) e2).

(** The pairs of a key and its hash in a list are pairwise different for
    the test of [Probe]. *)
Definition pairs_distinct (match_ : Z -> Z -> bool) (l : list (Z * Z)) : Prop :=
  forall (i j : nat) kh1 kh2, l !! i = Some kh1 -> l !! j = Some kh2 -> i <> j ->
    ~ (kh1.2 = kh2.2 /\ match_ kh1.1 kh2.1 = true).

(** *** Deciding the invariants of a given table *)

Definition IsPowerOfTwo32b (c : Z) : bool :=
  existsb (fun k => c =? 2 ^ Z.of_nat k) (seq 0 32).

Definition liveb (t : list Entry) (p : Z) : bool :=
  match slot t p with
  | Some e => negb (key e =? NULL)
  | None => false
  end.

Definition table_wfb (m : HashMapImpl) : bool :=
  (Z.of_nat (length (map_ m)) =? capacity_ m) &&
  IsPowerOfTwo32b (capacity_ m) &&
  (occupancy_ m =? count_live (map_ m)) &&
  (occupancy_ m <? capacity_ m).

Definition load_okb (m : HashMapImpl) : bool :=
  5 * occupancy_ m <=? 4 * capacity_ m.

Definition reachableb (t : list Entry) (cap s : Z) (e : Entry) : bool :=
  forallb (fun i => liveb t ((ideal cap e + Z.of_nat i) mod cap))
          (seq 0 (Z.to_nat (dist cap (ideal cap e) s))).

Definition probe_okb (m : HashMapImpl) : bool :=
  forallb (fun s => match map_ m !! s with
                    | Some e => (key e =? NULL) ||
                                reachableb (map_ m) (capacity_ m) (Z.of_nat s) e
                    | None => true
                    end)
          (seq 0 (length (map_ m))).

Definition keys_uniqueb (match_ : Z -> Z -> bool) (t : list Entry) : bool :=
  forallb (fun i =>
    forallb (fun j =>
      match t !! i, t !! j with
      | Some e1, Some e2 =>
          (key e1 =? NULL) || (key e2 =? NULL) || (i =? j)%nat ||
          negb ((hash e1 =? hash e2) && match_ (key e1) (key e2))
      | _, _ => true
      end) (seq 0 (length t))) (seq 0 (length t)).

Definition table_invb (match_ : Z -> Z -> bool) (m : HashMapImpl) : bool :=
  table_wfb m && load_okb m && probe_okb m && keys_uniqueb match_ (map_ m).

(** The capacity after [n] insertions of new keys into a table of
    occupancy [occ] and capacity [cap], by the growth rule. *)
Fixpoint capacity_after (n : nat) (occ cap : Z) : Z :=
  match n with
  | O => cap
  | S n' => capacity_after n' (occ + 1)
              (if needs_growth (occ + 1) cap then 2 * cap else cap)
  end.

Fixpoint pairs_distinctb (match_ : Z -> Z -> bool) (l : list (Z * Z)) : bool :=
  match l with
  | [] => true
  | kh :: l' =>
      forallb (fun kh' => negb ((kh.2 =? kh'.2) && match_ kh.1 kh'.1) &&
                          negb ((kh'.2 =? kh.2) && match_ kh'.1 kh.1)) l' &&
      pairs_distinctb match_ l'
  end.

(** *** Tables of the examples *)

(** The contents of fresh memory in the examples. *)
Definition junk : Entry := mkEntry 0 0 0 0.

(** The table of capacity 8 after [LookupOrInsert] of the keys [1], [2], [3]
    under the hashes [0], [8], [16], which collide on slot [0]. *)
Definition table_ABC : HashMapImpl :=
  {| map_ := [mkEntry 1 0 0 0; mkEntry 2 0 8 1; mkEntry 3 0 16 2;
              junk; junk; junk; junk; junk];
     capacity_ := 8;
     occupancy_ := 3 |}.

(** Seven keys with their hashes and the values the client writes. *)
Definition seven_keys : list (Z * Z * Z) :=
  [(11, 0, 101); (12, 8, 102); (13, 5, 103); (14, 7, 104);
   (15, 15, 105); (16, 6, 106); (17, 23, 107)].

(** The table the first six of these keys leave in a fresh table of
    capacity 8: one more entry reaches the growth test. *)
Definition table_six : HashMapImpl :=
  {| map_ := [mkEntry 11 0 0 0; mkEntry 12 0 8 1; mkEntry 15 0 15 4;
              junk; junk; mkEntry 13 0 5 2; mkEntry 16 0 6 5;
              mkEntry 14 0 7 3];
     capacity_ := 8;
     occupancy_ := 6 |}.

(** The keys [1 .. n], key [i + 1] with hash [i]. *)
Definition distinct_keys (n : nat) : list (Z * Z) :=
  (fun i : nat => (Z.of_nat i + 1, Z.of_nat i)) <$> seq 0 n.

(** ** Arithmetic of slots *)

Lemma u32_small x : 0 <= x < 2 ^ 32 -> u32 x = x.
Proof. intros H. unfold u32. apply Z.mod_small. exact H. Qed.

Lemma IsPowerOfTwo32_bounds c : IsPowerOfTwo32 c -> 1 <= c <= 2 ^ 31.
Proof.
  intros (k & Hk & ->). split.
  - assert (0 < 2 ^ k) by (apply Z.pow_pos_nonneg; lia). lia.
  - apply Z.pow_le_mono_r; lia.
Qed.

Lemma start_index_mod cap h : IsPowerOfTwo32 cap -> start_index cap h = h mod cap.
Proof.
  intros Hp. pose proof (IsPowerOfTwo32_bounds _ Hp) as Hb.
  destruct Hp as (k & Hk & ->).
  unfold start_index. rewrite u32_small by lia.
  replace (2 ^ k - 1) with (Z.ones k) by (rewrite Z.ones_equiv; lia).
  apply Z.land_ones. lia.
Qed.

Lemma IsPowerOfTwo32_double c :
  IsPowerOfTwo32 c -> c < 2 ^ 31 -> IsPowerOfTwo32 (2 * c).
Proof.
  intros (k & Hk & ->) Hlt. exists (k + 1). split.
  - assert (k < 31); [|lia].
    destruct (Z_lt_ge_dec k 31) as [|Hge]; [assumption|].
    assert (2 ^ 31 <= 2 ^ k) by (apply Z.pow_le_mono_r; lia). lia.
  - rewrite Z.pow_add_r by lia. lia.
Qed.

(** Elimination of the modulo in cyclic distances. *)
Lemma dist_cases cap a b :
  0 <= a < cap -> 0 <= b < cap ->
  (a <= b /\ dist cap a b = b - a) \/ (b < a /\ dist cap a b = b - a + cap).
Proof.
  intros Ha Hb. unfold dist. destruct (Z_le_gt_dec a b) as [Hle|Hgt].
  - left. split; [lia|]. apply Z.mod_small. lia.
  - right. split; [lia|]. symmetry. apply (Z.mod_unique _ _ (-1)); lia.
Qed.

Lemma dist_range cap a b : 0 < cap -> 0 <= dist cap a b < cap.
Proof. intros H. unfold dist. apply Z.mod_pos_bound. exact H. Qed.

Lemma next_slot_range cap q : 0 <= q < cap -> 0 <= next_slot cap q < cap.
Proof. intros H. unfold next_slot. destruct (Z.eqb_spec (q + 1) cap); lia. Qed.

(** Both ways of wrapping in the source agree on offsets inside the array. *)
Lemma wrap_ge_next cap p :
  0 <= p < cap -> (if p + 1 >=? cap then 0 else p + 1) = next_slot cap p.
Proof.
  intros H. unfold next_slot.
  destruct (Z.eqb_spec (p + 1) cap), (Z.geb_spec (p + 1) cap); lia.
Qed.

(** Case split on every cyclic distance between slots known to be in
    range. *)
Ltac cyc_step :=
  match goal with
  | |- context [dist ?c ?a ?b] =>
      let H := fresh "Hd" in
      destruct (dist_cases c a b) as [[? H]|[? H]];
      [lia | lia | rewrite !H in *; clear H | rewrite !H in *; clear H]
  | _ : context [dist ?c ?a ?b] |- _ =>
      let H := fresh "Hd" in
      destruct (dist_cases c a b) as [[? H]|[? H]];
      [lia | lia | rewrite !H in *; clear H | rewrite !H in *; clear H]
  end.
Ltac cyc := unfold in_cyclic_oc, strictly_between in *; repeat cyc_step; try lia.

(** ** The growth test *)

Lemma needs_growth_spec o c :
  0 <= o -> 5 * o < 2 ^ 34 -> needs_growth o c = true <-> 5 * o >= 4 * c.
Proof.
  intros Ho Hb. unfold needs_growth.
  assert (Hq : 4 * (o / 4) <= o < 4 * (o / 4) + 4).
  { pose proof (Z.mul_div_le o 4). pose proof (Z.mul_succ_div_gt o 4). lia. }
  rewrite u32_small by lia.
  destruct (Z.geb_spec (o + o / 4) c); split; intros; try discriminate; lia.
Qed.

(** C9: on an occupancy [o] of a table of capacity [c], a power of two, the
    test [occupancy_ + occupancy_ / 4 >= capacity_] of [LookupOrInsert],
    computed on [uint32_t] with truncating division, holds exactly when the
    load factor [o / c] is at least [0.8], that is when [5 * o >= 4 * c]. *)
Theorem growth_test_iff_load_factor (o c : Z) :
  IsPowerOfTwo32 c -> 0 <= o <= c ->
  needs_growth o c = true <-> 5 * o >= 4 * c.
Proof.
  intros Hc Ho. pose proof (IsPowerOfTwo32_bounds _ Hc).
  apply needs_growth_spec; lia.
Qed.

Lemma growth_test_iff_load_factor_witness :
  needs_growth 7 8 = true <-> 5 * 7 >= 4 * 8.
Proof.
  apply (growth_test_iff_load_factor 7 8).
  - exists 3. split; [lia | reflexivity].
  - lia.
Defined.

(** ** Reading and writing slots *)

Lemma slot_Some_range t p e : slot t p = Some e -> 0 <= p < Z.of_nat (length t).
Proof.
  unfold slot. destruct (Z.ltb_spec p 0) as [Hn|Hn]; [discriminate|].
  intros Hl. apply lookup_lt_Some in Hl. lia.
Qed.

Lemma slot_in_range t p :
  0 <= p < Z.of_nat (length t) -> exists e, slot t p = Some e.
Proof.
  intros H. unfold slot. destruct (Z.ltb_spec p 0); [lia|].
  destruct (lookup_lt_is_Some_2 t (Z.to_nat p)) as [e He]; [lia|]. eauto.
Qed.

Lemma slot_store_eq t p e :
  0 <= p < Z.of_nat (length t) -> slot (store t p e) p = Some e.
Proof.
  intros H. unfold slot, store. destruct (Z.ltb_spec p 0); [lia|].
  apply list_lookup_insert_eq. lia.
Qed.

Lemma slot_store_ne t p q e :
  0 <= p -> p <> q -> slot (store t p e) q = slot t q.
Proof.
  intros Hp Hne. unfold slot, store. destruct (Z.ltb_spec q 0); [reflexivity|].
  apply list_lookup_insert_ne. lia.
Qed.

Lemma length_store t p e : length (store t p e) = length t.
Proof. apply length_insert. Qed.

Lemma store_store t p e1 e2 : store (store t p e1) p e2 = store t p e2.
Proof. unfold store. apply list_insert_insert_eq. Qed.

Lemma slot_store t p q e :
  0 <= p < Z.of_nat (length t) ->
  slot (store t p e) q = if decide (p = q) then Some e else slot t q.
Proof.
  intros H. destruct (decide (p = q)) as [<-|Hne].
  - apply slot_store_eq, H.
  - apply slot_store_ne; lia.
Qed.

(** ** Counting live slots *)

Lemma count_live_bounds t : 0 <= count_live t <= Z.of_nat (length t).
Proof.
  induction t as [|e t IH]; simpl; [lia|].
  destruct (key e =? NULL); lia.
Qed.

Lemma count_live_insert (t : list Entry) (i : nat) (e0 e : Entry) :
  t !! i = Some e0 ->
  count_live (<[i := e]> t) =
  count_live t - (if key e0 =? NULL then 0 else 1) + (if key e =? NULL then 0 else 1).
Proof.
  revert i. induction t as [|a t IH]; intros [|i] H; simpl in *; try discriminate.
  - injection H as ->. lia.
  - rewrite (IH i H). lia.
Qed.

Lemma count_live_store t p e0 e :
  slot t p = Some e0 ->
  count_live (store t p e) =
  count_live t - (if key e0 =? NULL then 0 else 1) + (if key e =? NULL then 0 else 1).
Proof.
  unfold slot, store. destruct (Z.ltb_spec p 0); [discriminate|].
  apply count_live_insert.
Qed.

(** A table that is not full has an empty slot. *)
Lemma exists_vacant (t : list Entry) :
  count_live t < Z.of_nat (length t) -> exists z, vacant t z.
Proof.
  induction t as [|a t IH]; simpl; [lia|]. intros H.
  destruct (Z.eqb_spec (key a) NULL) as [Ha|Ha].
  - exists 0, a. split; [reflexivity | exact Ha].
  - destruct IH as (z & e & Hz & He); [lia|].
    pose proof (slot_Some_range _ _ _ Hz) as Hr.
    exists (z + 1), e. split; [|exact He].
    unfold slot in *. destruct (Z.ltb_spec z 0); [lia|].
    destruct (Z.ltb_spec (z + 1) 0); [lia|].
    replace (Z.to_nat (z + 1)) with (S (Z.to_nat z)) by lia. exact Hz.
Qed.

Lemma count_live_pos t p e : slot t p = Some e -> key e <> NULL -> 0 < count_live t.
Proof.
  unfold slot. destruct (Z.ltb_spec p 0); [discriminate|].
  generalize (Z.to_nat p). clear. intros i. revert i.
  induction t as [|a t IH]; intros [|i] H Hk; simpl in *; try discriminate.
  - injection H as ->. pose proof (count_live_bounds t).
    destruct (Z.eqb_spec (key e) NULL); [contradiction | lia].
  - specialize (IH i H Hk). destruct (key a =? NULL); lia.
Qed.

Lemma live_vacant_excl t p : live t p -> vacant t p -> False.
Proof. intros (e & He & Hk) (e' & He' & Hk'). congruence. Qed.

(** ** The test of the back-shift loop *)

(** The test of the source, on offsets inside the array, is membership of
    [r] in the cyclic interval from [p] (excluded) to [q] (included),
    negated. *)
Lemma moves_iff cap p q r :
  0 <= p < cap -> 0 <= q < cap -> 0 <= r < cap -> p <> q ->
  moves p q r = true <-> ~ in_cyclic_oc cap p q r.
Proof.
  intros Hp Hq Hr Hne. unfold moves.
  destruct (Z.gtb_spec q p), (Z.leb_spec r p), (Z.gtb_spec r q),
    (Z.ltb_spec q p); simpl; split; intros; try discriminate;
    try reflexivity; try lia; cyc.
Qed.

(** C2 (as amended): with [p] the candidate slot and [q] the scanned slot,
    holding a live entry whose ideal slot is [r], the entry is left in place
    exactly when [r] lies in the cyclic interval from [p] excluded to [q]
    included; otherwise it is copied into slot [p] and [q] becomes the
    candidate. Either way the next pass of the loop scans the slot after
    [q]. *)
Theorem Remove_shift_cyclic (m : HashMapImpl) (p q : Z) (ent : Entry) (fuel : nat) :
  IsPowerOfTwo32 (capacity_ m) ->
  0 <= p < capacity_ m -> 0 <= q < capacity_ m -> p <> q ->
  slot (map_ m) q = Some ent -> key ent <> NULL ->
  Remove_shift m p q ent =
    (if decide (in_cyclic_oc (capacity_ m) p q (ideal (capacity_ m) ent))
     then (m, p)
     else (with_map m (store (map_ m) p ent), q)) /\
  forall q0, 0 <= q0 < capacity_ m -> next_slot (capacity_ m) q0 = q ->
    Remove_loop (S fuel) m p q0 =
      Remove_loop fuel (Remove_shift m p q ent).1 (Remove_shift m p q ent).2 q.
Proof.
  intros Hpow Hp Hq Hne Hs Hk. split.
  - unfold Remove_shift. rewrite start_index_mod by exact Hpow.
    fold (ideal (capacity_ m) ent).
    assert (Hr : 0 <= ideal (capacity_ m) ent < capacity_ m)
      by (apply Z.mod_pos_bound; lia).
    pose proof (moves_iff (capacity_ m) p q _ Hp Hq Hr Hne) as Hiff.
    destruct (moves p q (ideal (capacity_ m) ent)) eqn:Hm;
      destruct (decide (in_cyclic_oc (capacity_ m) p q (ideal (capacity_ m) ent)))
        as [Hin|Hout]; try reflexivity.
    + exfalso. apply (proj1 Hiff); auto.
    + exfalso. apply Hiff in Hout. discriminate.
  - intros q0 Hq0 Hnext. simpl. unfold next_slot in Hnext. rewrite Hnext, Hs.
    destruct (Z.eqb_spec (key ent) NULL) as [|_]; [contradiction|].
    destruct (Remove_shift m p q ent). reflexivity.
Qed.

Lemma Remove_shift_cyclic_witness :
  let m := {| map_ := [mkEntry 1 0 0 0; mkEntry 2 0 0 1;
                       mkEntry 0 0 0 0; mkEntry 0 0 0 0];
              capacity_ := 4; occupancy_ := 2 |} in
  Remove_shift m 0 1 (mkEntry 2 0 0 1) =
    (with_map m (store (map_ m) 0 (mkEntry 2 0 0 1)), 1).
Proof.
  intros m.
  refine (proj1 (Remove_shift_cyclic m 0 1 (mkEntry 2 0 0 1) 0 _ _ _ _ _ _)).
  - exists 2. split; [lia | reflexivity].
  - simpl. lia.
  - simpl. lia.
  - lia.
  - reflexivity.
  - discriminate.
Defined.

(** C2 (as stated) fails: an entry sitting in its own ideal slot [q] is
    outside the interval strictly between [p] and [q], yet the loop leaves
    it in place. Here key [2] with hash [1] sits in slot [1] while slot [0]
    is the candidate. *)
Lemma Remove_shift_not_strict :
  ~ (forall (m : HashMapImpl) (p q : Z) (ent : Entry),
       IsPowerOfTwo32 (capacity_ m) ->
       0 <= p < capacity_ m -> 0 <= q < capacity_ m -> p <> q ->
       slot (map_ m) q = Some ent -> key ent <> NULL ->
       Remove_shift m p q ent =
         (if decide (strictly_between (capacity_ m) p q (ideal (capacity_ m) ent))
          then (m, p)
          else (with_map m (store (map_ m) p ent), q))).
Proof.
  intros H.
  specialize (H {| map_ := [mkEntry 1 0 0 0; mkEntry 2 0 1 1;
                            mkEntry 0 0 0 0; mkEntry 0 0 0 0];
                   capacity_ := 4; occupancy_ := 2 |} 0 1 (mkEntry 2 0 1 1)).
  simpl in H.
  assert (Hp : IsPowerOfTwo32 4) by (exists 2; split; [lia | reflexivity]).
  specialize (H Hp ltac:(lia) ltac:(lia) ltac:(lia) eq_refl ltac:(discriminate)).
  vm_compute in H. discriminate H.
Qed.

(** ** Iteration *)

Lemma live_from_ge t a p : p ∈ live_from t a -> a <= p.
Proof.
  revert a. induction t as [|e t IH]; intros a; simpl.
  - intros H. inversion H.
  - destruct (key e =? NULL).
    + intros H%IH. lia.
    + intros [->|H%IH]%elem_of_cons; lia.
Qed.

Lemma live_from_sorted t a : StronglySorted Z.lt (live_from t a).
Proof.
  revert a. induction t as [|e t IH]; intros a; simpl; [constructor|].
  destruct (key e =? NULL); [apply IH|].
  constructor; [apply IH|].
  apply Forall_forall. intros x Hx%live_from_ge. lia.
Qed.

Lemma live_from_elem (t : list Entry) a p :
  p ∈ live_from t a <->
  exists (i : nat) e, t !! i = Some e /\ key e <> NULL /\ p = a + Z.of_nat i.
Proof.
  revert a. induction t as [|e t IH]; intros a; simpl.
  - split; [intros H; inversion H | intros (i & x & H & _); destruct i; discriminate].
  - assert (Htail : p ∈ live_from t (a + 1) <->
      exists (i : nat) x, (e :: t) !! S i = Some x /\ key x <> NULL /\
                          p = a + Z.of_nat (S i)).
    { rewrite IH. split; intros (i & x & H1 & H2 & H3); exists i, x;
        (split; [exact H1 | split; [exact H2 | lia]]). }
    destruct (Z.eqb_spec (key e) NULL) as [He|He].
    + rewrite Htail. split.
      * intros (i & x & H); exists (S i), x; exact H.
      * intros ([|i] & x & H1 & H2 & H3); [|exists i, x; auto].
        simpl in H1. injection H1 as ->. contradiction.
    + rewrite elem_of_cons, Htail. split.
      * intros [->|(i & x & H)]; [|exists (S i), x; exact H].
        exists 0%nat, e. split; [reflexivity | split; [exact He | lia]].
      * intros ([|i] & x & H1 & H2 & H3); [left; lia | right; exists i, x; auto].
Qed.

Lemma live_slots_elem m p : p ∈ live_slots m <-> live (map_ m) p.
Proof.
  unfold live_slots. rewrite live_from_elem. unfold live, slot. split.
  - intros (i & e & H1 & H2 & ->). exists e.
    destruct (Z.ltb_spec (0 + Z.of_nat i) 0); [lia|].
    replace (Z.to_nat (0 + Z.of_nat i)) with i by lia. auto.
  - intros (e & H1 & H2). destruct (Z.ltb_spec p 0); [discriminate|].
    exists (Z.to_nat p), e. split; [exact H1 | split; [exact H2 | lia]].
Qed.

(** The first live offset of a suffix, and what is left after it. *)
Lemma live_from_head t a p :
  head (live_from t a) = Some p ->
  exists i : nat, p = a + Z.of_nat i /\ (i < length t)%nat /\
    live_from t a = p :: live_from (drop (S i) t) (p + 1).
Proof.
  revert a. induction t as [|e t IH]; intros a; simpl; [discriminate|].
  destruct (key e =? NULL).
  - intros (i & -> & Hi & Heq)%IH. exists (S i).
    split; [lia | split; [lia|]].
    replace (a + Z.of_nat (S i)) with (a + 1 + Z.of_nat i) by lia. exact Heq.
  - simpl. intros [= <-]. exists 0%nat.
    split; [lia | split; [lia|]]. rewrite drop_0.
    replace (a + Z.of_nat 0) with a by lia. reflexivity.
Qed.

Lemma Next_scan_suffix (suf pre : list Entry) p :
  p = Z.of_nat (length pre) ->
  Next_scan (length suf) (pre ++ suf) p = Some (head (live_from suf p)).
Proof.
  revert pre p. induction suf as [|e suf IH]; intros pre p Hp; simpl; [reflexivity|].
  assert (Hs : slot (pre ++ e :: suf) p = Some e).
  { unfold slot. destruct (Z.ltb_spec p 0); [lia|].
    rewrite lookup_app_r by lia.
    replace (Z.to_nat p - length pre)%nat with 0%nat by lia. reflexivity. }
  rewrite Hs. destruct (key e =? NULL); simpl; [|reflexivity].
  rewrite (cons_middle e pre suf), app_assoc. apply IH.
  rewrite length_app. simpl. lia.
Qed.

Lemma Next_spec m p :
  Z.of_nat (length (map_ m)) = capacity_ m -> -1 <= p < capacity_ m ->
  Next m p = Some (head (live_from (drop (Z.to_nat (p + 1)) (map_ m)) (p + 1))).
Proof.
  intros Hlen Hp. unfold Next.
  rewrite <- (take_drop (Z.to_nat (p + 1)) (map_ m)) at 1.
  replace (Z.to_nat (capacity_ m - (p + 1)))
    with (length (drop (Z.to_nat (p + 1)) (map_ m)))
    by (rewrite length_drop; lia).
  apply Next_scan_suffix. rewrite length_take. lia.
Qed.

Lemma iterate_from_spec m :
  Z.of_nat (length (map_ m)) = capacity_ m ->
  forall fuel p, 0 <= p < capacity_ m -> capacity_ m - p <= Z.of_nat fuel ->
    iterate_from fuel m (Some p) =
    Some (p :: live_from (drop (Z.to_nat (p + 1)) (map_ m)) (p + 1)).
Proof.
  intros Hlen. induction fuel as [|fuel IH]; intros p Hp Hf; [lia|].
  simpl. rewrite Next_spec by lia. simpl.
  destruct (head (live_from (drop (Z.to_nat (p + 1)) (map_ m)) (p + 1)))
    as [p'|] eqn:Hh.
  - destruct (live_from_head _ _ _ Hh) as (i & Hp' & Hi & Heq).
    rewrite length_drop in Hi.
    rewrite (IH p') by lia. simpl. rewrite Heq. do 3 f_equal.
    rewrite drop_drop. do 2 f_equal. lia.
  - destruct (live_from (drop (Z.to_nat (p + 1)) (map_ m)) (p + 1));
      [destruct fuel; reflexivity | discriminate].
Qed.

Lemma live_from_nil t a : count_live t = 0 -> live_from t a = [].
Proof.
  revert a. induction t as [|e t IH]; intros a; simpl; [reflexivity|].
  pose proof (count_live_bounds t) as Hb. destruct (key e =? NULL); [|lia].
  intros Hc. apply IH. lia.
Qed.

(** C6: with the backing array left alone during the traversal, the loop
    [for (p = Start(); p != NULL; p = Next(p))] visits the offsets of the
    live slots and nothing else, each once, in strictly increasing order;
    and [Start()] is [NULL] on a table without live entries. *)
Theorem iterate_visits_live_slots (m : HashMapImpl) :
  Z.of_nat (length (map_ m)) = capacity_ m ->
  exists visited,
    iterate m = Some visited /\
    (forall p, p ∈ visited <-> live (map_ m) p) /\
    NoDup visited /\
    StronglySorted Z.lt visited /\
    (count_live (map_ m) = 0 -> Start m = Some None).
Proof.
  intros Hlen. exists (live_slots m).
  assert (Hstart : Start m = Some (head (live_slots m))).
  { unfold Start. rewrite Next_spec by lia. reflexivity. }
  repeat split.
  - unfold iterate. rewrite Hstart. simpl.
    destruct (head (live_slots m)) as [p|] eqn:Hh.
    + destruct (live_from_head _ _ _ Hh) as (i & Hp & Hi & Heq).
      rewrite iterate_from_spec by lia.
      unfold live_slots. rewrite Heq. do 4 f_equal. lia.
    + simpl. unfold live_slots in *.
      destruct (live_from (map_ m) 0); [|discriminate].
      destruct (length (map_ m)); reflexivity.
  - apply live_slots_elem.
  - apply live_slots_elem.
  - pose proof (live_from_sorted (map_ m) 0) as Hs. unfold live_slots.
    induction Hs as [|x l Hs IH Hall]; constructor; [|exact IH].
    intros Hin. rewrite Forall_forall in Hall. specialize (Hall x Hin). lia.
  - apply live_from_sorted.
  - intros Hc. rewrite Hstart. unfold live_slots.
    rewrite live_from_nil by exact Hc. reflexivity.
Qed.

(** ** Walking the probe sequence *)

Lemma least_nat_below (P : nat -> Prop) :
  (forall n, P n \/ ~ P n) ->
  forall n, (exists d, (d < n)%nat /\ P d /\ forall i, (i < d)%nat -> ~ P i) \/
            (forall i, (i < n)%nat -> ~ P i).
Proof.
  intros Hdec. induction n as [|n [(d & Hd & HP & Hmin)|Hnone]].
  - right. intros i Hi. lia.
  - left. exists d. split; [lia | auto].
  - destruct (Hdec n) as [Hn|Hn].
    + left. exists n. split; [lia | auto].
    + right. intros i Hi. destruct (decide (i = n)) as [->|]; [exact Hn|].
      apply Hnone. lia.
Qed.

Lemma least_nat (P : nat -> Prop) :
  (forall n, P n \/ ~ P n) ->
  forall n, P n ->
  exists d, (d <= n)%nat /\ P d /\ forall i, (i < d)%nat -> ~ P i.
Proof.
  intros Hdec n Hn.
  destruct (least_nat_below P Hdec (S n)) as [(d & Hd & HP & Hmin)|Hnone].
  - exists d. split; [lia | auto].
  - exfalso. apply (Hnone n); [lia | exact Hn].
Qed.

Lemma next_slot_mod cap p : 0 <= p < cap -> next_slot cap p = (p + 1) mod cap.
Proof.
  intros Hp. unfold next_slot. destruct (Z.eqb_spec (p + 1) cap) as [<-|Hne].
  - rewrite Z.mod_same; lia.
  - rewrite Z.mod_small; lia.
Qed.

Lemma next_slot_plus cap p i :
  0 <= p < cap -> (next_slot cap p + i) mod cap = (p + (i + 1)) mod cap.
Proof.
  intros Hp. rewrite next_slot_mod by exact Hp.
  rewrite Zplus_mod_idemp_l. f_equal. lia.
Qed.

Lemma dist_plus cap a j :
  0 <= a < cap -> 0 <= j < cap -> (a + dist cap a j) mod cap = j.
Proof.
  intros Ha Hj. destruct (dist_cases cap a j Ha Hj) as [[? ->]|[? ->]].
  - replace (a + (j - a)) with j by lia. apply Z.mod_small. lia.
  - replace (a + (j - a + cap)) with (j + 1 * cap) by lia.
    rewrite Z.mod_add by lia. apply Z.mod_small. lia.
Qed.

Lemma dist_of_plus cap a i :
  0 <= a < cap -> 0 <= i < cap -> dist cap a ((a + i) mod cap) = i.
Proof.
  intros Ha Hi. unfold dist.
  rewrite Zminus_mod_idemp_l. replace (a + i - a) with i by lia.
  apply Z.mod_small. lia.
Qed.

Lemma dist_self cap a : 0 < cap -> dist cap a a = 0.
Proof. intros H. unfold dist. rewrite Z.sub_diag. apply Z.mod_0_l. lia. Qed.

Lemma dist_zero cap a b :
  0 <= a < cap -> 0 <= b < cap -> dist cap a b = 0 -> a = b.
Proof. intros Ha Hb H. cyc. Qed.

Section Probing.

Variable match_ : Z -> Z -> bool.

Lemma keeps_probing_true k h e :
  keeps_probing match_ k h e = true <-> key e <> NULL /\ ~ matches match_ k h e.
Proof.
  unfold keeps_probing, matches.
  destruct (Z.eqb_spec (key e) NULL), (Z.eqb_spec h (hash e)),
    (match_ k (key e)); simpl; split; intros H; try discriminate;
    try reflexivity; try (split; [assumption | intros [? ?]; congruence]);
    destruct H as [H1 H2]; try contradiction; exfalso; apply H2; auto.
Qed.

Lemma keeps_probing_false k h e :
  keeps_probing match_ k h e = false <-> key e = NULL \/ matches match_ k h e.
Proof.
  pose proof (keeps_probing_true k h e) as Ht.
  destruct (keeps_probing match_ k h e); split; intros H; try reflexivity;
    try discriminate.
  - exfalso. destruct (proj1 Ht eq_refl) as [H1 H2]. destruct H; auto.
  - destruct (Z.eq_dec (key e) NULL) as [|Hk]; [left; assumption|]. right.
    unfold matches. destruct (Z.eq_dec h (hash e)) as [|Hh].
    + split; [assumption|]. destruct (match_ k (key e)) eqn:Hm; [reflexivity|].
      assert (true = false); [|discriminate]. symmetry. apply Ht.
      split; [assumption|]. intros [_ ?]. congruence.
    + assert (true = false); [|discriminate]. symmetry. apply Ht.
      split; [assumption|]. intros [? _]. contradiction.
Qed.

(** The loop of [Probe] walks over the slots it keeps probing at and
    returns the first slot where it stops. *)
Lemma Probe_loop_walk m k h :
  Z.of_nat (length (map_ m)) = capacity_ m ->
  forall (d fuel : nat) p e,
    0 <= p < capacity_ m -> (d < fuel)%nat ->
    (forall i : nat, (i < d)%nat ->
       exists e', slot (map_ m) ((p + Z.of_nat i) mod capacity_ m) = Some e' /\
                  keeps_probing match_ k h e' = true) ->
    slot (map_ m) ((p + Z.of_nat d) mod capacity_ m) = Some e ->
    keeps_probing match_ k h e = false ->
    Probe_loop match_ fuel m k h p = Some ((p + Z.of_nat d) mod capacity_ m).
Proof.
  intros Hlen. induction d as [|d IH]; intros fuel p e Hp Hf Hwalk Hs Hstop;
    (destruct fuel as [|fuel]; [lia|]); simpl.
  - replace (p + Z.of_nat 0) with p in * by lia.
    rewrite Z.mod_small in * by lia. rewrite Hs, Hstop. reflexivity.
  - destruct (Hwalk 0%nat ltac:(lia)) as (e0 & Hs0 & Hk0).
    replace (p + Z.of_nat 0) with p in Hs0 by lia.
    rewrite Z.mod_small in Hs0 by lia. rewrite Hs0, Hk0.
    rewrite wrap_ge_next by exact Hp.
    replace ((p + Z.of_nat (S d)) mod capacity_ m)
      with ((next_slot (capacity_ m) p + Z.of_nat d) mod capacity_ m) in *
      by (rewrite next_slot_plus by exact Hp; f_equal; lia).
    apply (IH fuel _ e); [apply next_slot_range, Hp | lia | | exact Hs | exact Hstop].
    intros i Hi. destruct (Hwalk (S i) ltac:(lia)) as (e' & He' & Hk').
    exists e'. split; [|exact Hk'].
    rewrite next_slot_plus by exact Hp. rewrite <- He'. f_equal. f_equal. lia.
Qed.

Lemma probe_stop_Probe m k h s :
  Z.of_nat (length (map_ m)) = capacity_ m -> IsPowerOfTwo32 (capacity_ m) ->
  probe_stop match_ m k h s -> Probe match_ m k h = Some s.
Proof.
  intros Hlen Hpow (Hs & (e & He & Hstop) & Hwalk).
  pose proof (IsPowerOfTwo32_bounds _ Hpow) as Hb.
  set (cap := capacity_ m) in *. set (a := h mod cap) in *.
  assert (Ha : 0 <= a < cap) by (apply Z.mod_pos_bound; lia).
  pose proof (dist_range cap a s ltac:(lia)) as Hd.
  unfold Probe. rewrite start_index_mod by exact Hpow. fold cap a.
  assert (Hs' : (a + Z.of_nat (Z.to_nat (dist cap a s))) mod cap = s)
    by (rewrite Z2Nat.id by lia; apply dist_plus; assumption).
  rewrite <- Hs' at 1.
  apply (Probe_loop_walk m k h Hlen _ _ _ e); fold cap.
  - exact Ha.
  - lia.
  - intros i Hi. apply Hwalk.
    + apply Z.mod_pos_bound. lia.
    + rewrite dist_of_plus; lia.
  - rewrite Z2Nat.id by lia. rewrite dist_plus by assumption. exact He.
  - exact Hstop.
Qed.

(** With an empty slot in the array the loop of [Probe] leaves. *)
Lemma Probe_total m k h :
  Z.of_nat (length (map_ m)) = capacity_ m -> IsPowerOfTwo32 (capacity_ m) ->
  (exists z, vacant (map_ m) z) ->
  exists s, Probe match_ m k h = Some s /\ probe_stop match_ m k h s.
Proof.
  intros Hlen Hpow (z & ez & Hz & Hkz).
  pose proof (IsPowerOfTwo32_bounds _ Hpow) as Hb.
  pose proof (slot_Some_range _ _ _ Hz) as Hzr. rewrite Hlen in Hzr.
  set (cap := capacity_ m) in *. set (a := h mod cap).
  assert (Ha : 0 <= a < cap) by (apply Z.mod_pos_bound; lia).
  set (P := fun i : nat => exists e, slot (map_ m) ((a + Z.of_nat i) mod cap) = Some e /\
                                      keeps_probing match_ k h e = false).
  assert (Hdec : forall n, P n \/ ~ P n).
  { intros n. unfold P.
    destruct (slot_in_range (map_ m) ((a + Z.of_nat n) mod cap)) as [e He].
    { rewrite Hlen. apply Z.mod_pos_bound. lia. }
    destruct (keeps_probing match_ k h e) eqn:Hk.
    - right. intros (e' & He' & Hk'). congruence.
    - left. eauto. }
  pose proof (dist_range cap a z ltac:(lia)) as Hdz.
  assert (Hn : P (Z.to_nat (dist cap a z))).
  { exists ez. rewrite Z2Nat.id by lia. rewrite dist_plus by assumption.
    split; [exact Hz|]. apply keeps_probing_false. left. exact Hkz. }
  destruct (least_nat P Hdec _ Hn) as (d & Hd & (e & He & Hstop) & Hmin).
  assert (Hstopd : probe_stop match_ m k h ((a + Z.of_nat d) mod cap)).
  { split; [apply Z.mod_pos_bound; lia|]. split; [eauto|].
    fold cap a. intros j Hj Hlt. rewrite dist_of_plus in Hlt by lia.
    pose proof (dist_range cap a j ltac:(lia)) as Hdj.
    destruct (slot_in_range (map_ m) j) as [e' He']; [lia|].
    exists e'. split; [exact He'|].
    destruct (keeps_probing match_ k h e') eqn:Hk; [reflexivity|].
    exfalso. apply (Hmin (Z.to_nat (dist cap a j))); [lia|].
    exists e'. rewrite Z2Nat.id by lia. rewrite dist_plus by assumption. auto. }
  exists ((a + Z.of_nat d) mod cap). split; [|exact Hstopd].
  apply probe_stop_Probe; assumption.
Qed.

End Probing.

(** ** Reachability, slot by slot *)

(** [reachable] in terms of the slots of the walk instead of its steps. *)
Lemma reachable_slots t cap s e :
  0 < cap -> 0 <= s < cap ->
  reachable t cap s e <->
  forall j, 0 <= j < cap ->
    dist cap (ideal cap e) j < dist cap (ideal cap e) s -> live t j.
Proof.
  intros Hc Hs. unfold reachable.
  assert (Ha : 0 <= ideal cap e < cap) by (apply Z.mod_pos_bound; lia).
  pose proof (dist_range cap (ideal cap e) s Hc) as Hds.
  split.
  - intros H j Hj Hlt. pose proof (dist_range cap (ideal cap e) j Hc).
    rewrite <- (dist_plus cap (ideal cap e) j) by assumption. apply H. lia.
  - intros H i Hi. apply H; [apply Z.mod_pos_bound; lia|].
    rewrite dist_of_plus; lia.
Qed.

Lemma probe_ok_slots m s e j :
  table_wf m -> probe_ok m ->
  slot (map_ m) s = Some e -> key e <> NULL -> 0 <= j < capacity_ m ->
  dist (capacity_ m) (ideal (capacity_ m) e) j <
    dist (capacity_ m) (ideal (capacity_ m) e) s ->
  live (map_ m) j.
Proof.
  intros (Hlen & Hpow & _) Hok Hs Hk Hj Hlt.
  pose proof (IsPowerOfTwo32_bounds _ Hpow).
  pose proof (slot_Some_range _ _ _ Hs).
  apply (proj1 (reachable_slots (map_ m) (capacity_ m) s e ltac:(lia) ltac:(lia))
               (Hok s e Hs Hk) j Hj Hlt).
Qed.

Lemma table_wf_vacant m : table_wf m -> exists z, vacant (map_ m) z.
Proof. intros (Hlen & _ & Hocc & Hlt). apply exists_vacant. lia. Qed.

Section Lookups.

Variable match_ : Z -> Z -> bool.

(** When the probe for [(k, h)] stops on an empty slot, no live entry of the
    table matches [(k, h)]. *)
Lemma probe_stop_vacant_absent m k h p :
  table_wf m -> probe_ok m ->
  probe_stop match_ m k h p -> vacant (map_ m) p ->
  forall e, present m e -> ~ matches match_ k h e.
Proof.
  intros Hwf Hok (Hp & _ & Hwalk) Hvac e (j & Hj & Hk) Hm.
  pose proof Hwf as (Hlen & Hpow & _).
  pose proof (IsPowerOfTwo32_bounds _ Hpow) as Hb.
  pose proof (slot_Some_range _ _ _ Hj) as Hjr. rewrite Hlen in Hjr.
  assert (Hid : ideal (capacity_ m) e = h mod capacity_ m)
    by (unfold ideal; destruct Hm as [-> _]; reflexivity).
  set (cap := capacity_ m) in *. set (a := h mod cap) in *.
  assert (Ha : 0 <= a < cap) by (apply Z.mod_pos_bound; lia).
  destruct (Z_lt_ge_dec (dist cap a j) (dist cap a p)) as [Hlt|Hge].
  - destruct (Hwalk j Hjr Hlt) as (e' & He' & Hkp).
    apply keeps_probing_true in Hkp. destruct Hkp as [_ Hnm].
    apply Hnm. congruence.
  - assert (Hne : j <> p).
    { intros ->. apply (live_vacant_excl (map_ m) p); [exists e; auto | exact Hvac]. }
    apply (live_vacant_excl (map_ m) p); [|exact Hvac].
    apply (probe_ok_slots m j e p Hwf Hok Hj Hk Hp). fold cap. rewrite Hid.
    clear - Ha Hp Hjr Hge Hne. cyc.
Qed.

(** A live entry of a table that satisfies the invariants is found by
    [Lookup] with its key and its hash, in its slot. *)
Lemma present_Lookup m s e :
  match_equiv match_ -> table_wf m -> probe_ok m -> keys_unique match_ (map_ m) ->
  slot (map_ m) s = Some e -> key e <> NULL ->
  Probe match_ m (key e) (hash e) = Some s /\
  Lookup match_ m (key e) (hash e) = Some (Some s).
Proof.
  intros (Hrefl & _) Hwf Hok Huniq Hs Hk.
  pose proof Hwf as (Hlen & Hpow & _).
  pose proof (slot_Some_range _ _ _ Hs) as Hsr. rewrite Hlen in Hsr.
  assert (HP : Probe match_ m (key e) (hash e) = Some s).
  { apply probe_stop_Probe; [assumption..|]. split; [exact Hsr|]. split.
    - exists e. split; [exact Hs|]. apply keeps_probing_false. right.
      split; [reflexivity | apply Hrefl].
    - intros j Hj Hlt.
      destruct (probe_ok_slots m s e j Hwf Hok Hs Hk Hj Hlt) as (e' & He' & Hk').
      exists e'. split; [exact He'|]. apply keeps_probing_true.
      split; [exact Hk'|]. apply (Huniq s j e e'); try assumption.
      intros ->. unfold ideal in Hlt. lia. }
  split; [exact HP|]. unfold Lookup. rewrite HP. simpl. rewrite Hs. simpl.
  destruct (Z.eqb_spec (key e) NULL); [contradiction | reflexivity].
Qed.

(** [Lookup] of a key that matches no live entry returns [NULL]. *)
Lemma absent_Lookup m k h :
  table_wf m -> (forall e, present m e -> ~ matches match_ k h e) ->
  Lookup match_ m k h = Some None.
Proof.
  intros Hwf Habs. pose proof Hwf as (Hlen & Hpow & _).
  destruct (Probe_total match_ m k h Hlen Hpow (table_wf_vacant m Hwf))
    as (s & HP & _ & (e & He & Hstop) & _).
  unfold Lookup. rewrite HP. simpl. rewrite He. simpl.
  apply keeps_probing_false in Hstop.
  destruct (Z.eqb_spec (key e) NULL) as [|Hk]; [reflexivity|].
  exfalso. destruct Hstop as [|Hm]; [contradiction|].
  apply (Habs e); [exists s; auto | exact Hm].
Qed.

End Lookups.

(** ** Removing an absent key *)

Section RemoveAbsent.

Variable match_ : Z -> Z -> bool.

(** C8: on a well-formed table, [Remove] of a key that matches no live entry
    returns [NULL] and the table it leaves is the table it was given:
    backing array, capacity and occupancy. *)
Theorem Remove_absent_unchanged (m : HashMapImpl) (k h : Z) :
  table_wf m ->
  (forall e, present m e -> ~ matches match_ k h e) ->
  Remove match_ m k h = Some (m, NULL).
Proof.
  intros Hwf Habs. pose proof Hwf as (Hlen & Hpow & _).
  destruct (Probe_total match_ m k h Hlen Hpow (table_wf_vacant m Hwf))
    as (s & HP & _ & (e & He & Hstop) & _).
  unfold Remove. rewrite HP. simpl. rewrite He. simpl.
  apply keeps_probing_false in Hstop.
  destruct (Z.eqb_spec (key e) NULL) as [|Hk]; [reflexivity|].
  exfalso. destruct Hstop as [|Hm]; [contradiction|].
  apply (Habs e); [exists s; auto | exact Hm].
Qed.

End RemoveAbsent.

(** ** Storing a live entry *)

Lemma live_store t p e' j :
  0 <= p < Z.of_nat (length t) -> key e' <> NULL ->
  live t j -> live (store t p e') j.
Proof.
  intros Hp Hk (e & He & Hke). unfold live. rewrite slot_store by exact Hp.
  destruct (decide (p = j)); eauto.
Qed.

Section Insertion.

Variable match_ : Z -> Z -> bool.

(** Writing an entry with key [k] and hash [h] where the probe for [(k, h)]
    stops keeps every entry reachable. *)
Lemma store_probe_ok m m1 k h p e' :
  table_wf m -> probe_ok m -> probe_stop match_ m k h p ->
  key e' <> NULL -> hash e' = h ->
  map_ m1 = store (map_ m) p e' -> capacity_ m1 = capacity_ m ->
  probe_ok m1.
Proof.
  intros Hwf Hok (Hp & _ & Hwalk) Hk Hh Hmap Hcap s e Hs Hke.
  pose proof Hwf as (Hlen & Hpow & _).
  pose proof (IsPowerOfTwo32_bounds _ Hpow) as Hb.
  rewrite Hmap in Hs.
  pose proof (slot_Some_range _ _ _ Hs) as Hsr.
  rewrite length_store, Hlen in Hsr.
  rewrite Hcap, Hmap. apply reachable_slots; [lia | lia |].
  intros j Hj Hlt. apply live_store; [lia | exact Hk |].
  rewrite slot_store in Hs by lia. destruct (decide (p = s)) as [<-|Hne].
  - injection Hs as <-. unfold ideal in Hlt. rewrite Hh in Hlt.
    destruct (Hwalk j Hj Hlt) as (e0 & He0 & Hkp).
    apply keeps_probing_true in Hkp. exists e0. tauto.
  - apply (probe_ok_slots m s e j); assumption.
Qed.

(** ... and keeps the keys unique when no other live entry matches
    [(k, h)]. *)
Lemma store_keys_unique t k h p e' :
  (forall k1 k2, match_ k1 k2 = true -> match_ k2 k1 = true) ->
  keys_unique match_ t -> 0 <= p < Z.of_nat (length t) ->
  key e' = k -> hash e' = h ->
  (forall j e, j <> p -> slot t j = Some e -> key e <> NULL ->
               ~ matches match_ k h e) ->
  keys_unique match_ (store t p e').
Proof.
  intros Hsym Huniq Hp Hk Hh Hfresh i j e1 e2 H1 H2 Hk1 Hk2 Hij.
  rewrite slot_store in H1, H2 by exact Hp.
  destruct (decide (p = i)) as [<-|Hpi], (decide (p = j)) as [<-|Hpj];
    try contradiction.
  - injection H1 as <-. rewrite Hk, Hh. apply (Hfresh j); auto.
  - injection H2 as <-. intros [Hhash Hm].
    apply (Hfresh i e1); auto. split; [congruence|].
    apply Hsym. congruence.
  - apply (Huniq i j); assumption.
Qed.

Lemma LookupOrInsert_rec_found uninit d m k h p e :
  Probe match_ m k h = Some p -> slot (map_ m) p = Some e -> key e <> NULL ->
  LookupOrInsert_rec match_ uninit (S d) m k h = Some (m, p).
Proof.
  intros HP Hs Hk. simpl. rewrite HP. simpl. rewrite Hs. simpl.
  destruct (Z.eqb_spec (key e) NULL); [contradiction | reflexivity].
Qed.

Lemma LookupOrInsert_rec_vacant uninit d m k h p e :
  Probe match_ m k h = Some p -> slot (map_ m) p = Some e -> key e = NULL ->
  LookupOrInsert_rec match_ uninit (S d) m k h =
    let m1 := {| map_ := store (map_ m) p
                   {| key := k; value := NULL; hash := h;
                      order := to_int (occupancy_ m) |};
                 capacity_ := capacity_ m;
                 occupancy_ := u32 (occupancy_ m + 1) |} in
    if needs_growth (occupancy_ m1) (capacity_ m1)
    then m2 ← Resize_with uninit (LookupOrInsert_rec match_ uninit d) m1;
         p' ← Probe match_ m2 k h; Some (m2, p')
    else Some (m1, p).
Proof.
  intros HP Hs Hk. simpl. rewrite HP. simpl. rewrite Hs. simpl.
  destruct (Z.eqb_spec (key e) NULL); [reflexivity | contradiction].
Qed.

End Insertion.

(** ** Fresh and cleared tables *)

Lemma length_clear_keys n t : length (clear_keys n t) = length t.
Proof.
  revert t. induction n as [|n IH]; intros [|e t]; simpl; try reflexivity.
  rewrite IH. reflexivity.
Qed.

Lemma clear_keys_lookup n (t : list Entry) (i : nat) e :
  (length t <= n)%nat -> clear_keys n t !! i = Some e -> key e = NULL.
Proof.
  revert t i. induction n as [|n IH]; intros [|a t] i Hn H; simpl in *;
    try discriminate; try lia.
  destruct i as [|i]; simpl in H.
  - injection H as <-. reflexivity.
  - apply (IH t i); [lia | exact H].
Qed.

Lemma count_live_none (t : list Entry) :
  (forall (i : nat) e, t !! i = Some e -> key e = NULL) -> count_live t = 0.
Proof.
  induction t as [|a t IH]; intros H; simpl; [reflexivity|].
  rewrite (H 0%nat a eq_refl). simpl. apply IH.
  intros i e He. apply (H (S i) e He).
Qed.

Lemma slot_lookup (t : list Entry) s e :
  slot t s = Some e -> t !! Z.to_nat s = Some e /\ 0 <= s.
Proof. unfold slot. destruct (Z.ltb_spec s 0); [discriminate|]. auto. Qed.

Lemma lookup_slot (t : list Entry) (i : nat) e :
  t !! i = Some e -> slot t (Z.of_nat i) = Some e.
Proof.
  intros H. unfold slot. destruct (Z.ltb_spec (Z.of_nat i) 0); [lia|].
  rewrite Nat2Z.id. exact H.
Qed.

Lemma present_elem m e : present m e <-> e ∈ map_ m /\ key e <> NULL.
Proof.
  unfold present. rewrite list_elem_of_lookup. split.
  - intros (s & [Hs _]%slot_lookup & Hk). eauto.
  - intros [[i Hi] Hk]. exists (Z.of_nat i). split; [apply lookup_slot, Hi | exact Hk].
Qed.

Lemma keys_unique_list_distinct match_ t :
  keys_unique match_ t -> list_distinct match_ t.
Proof.
  intros Hu i j e1 e2 H1 H2 Hk1 Hk2 Hij.
  apply (Hu (Z.of_nat i) (Z.of_nat j) e1 e2); auto using lookup_slot. lia.
Qed.

Section FreshTable.

Variable match_ : Z -> Z -> bool.
Variable uninit : Entry.

Lemma Initialize_fields c :
  0 <= c ->
  Z.of_nat (length (map_ (Initialize uninit c))) = c /\
  capacity_ (Initialize uninit c) = c /\
  occupancy_ (Initialize uninit c) = 0 /\
  forall s e, slot (map_ (Initialize uninit c)) s = Some e -> key e = NULL.
Proof.
  intros Hc. unfold Initialize, Clear, Malloced_New. simpl.
  rewrite length_clear_keys, repeat_length. repeat split; [lia|].
  intros s e [Hs _]%slot_lookup.
  eapply clear_keys_lookup; [|exact Hs]. rewrite repeat_length. lia.
Qed.

Lemma no_live_inv m :
  (forall s e, slot (map_ m) s = Some e -> key e = NULL) ->
  count_live (map_ m) = 0 /\ probe_ok m /\ keys_unique match_ (map_ m) /\
  forall e, ~ present m e.
Proof.
  intros H. repeat split.
  - apply count_live_none. intros i e Hi. apply (H _ _ (lookup_slot _ _ _ Hi)).
  - intros s e Hs Hk. exfalso. apply Hk, (H s e Hs).
  - intros i j e1 e2 H1 _ Hk1. exfalso. apply Hk1, (H i e1 H1).
  - intros e (s & Hs & Hk). apply Hk, (H s e Hs).
Qed.

Lemma Initialize_inv c :
  IsPowerOfTwo32 c -> table_inv match_ (Initialize uninit c).
Proof.
  intros Hpow. pose proof (IsPowerOfTwo32_bounds _ Hpow) as Hb.
  destruct (Initialize_fields c ltac:(lia)) as (Hlen & Hcap & Hocc & Hnone).
  destruct (no_live_inv _ Hnone) as (Hcnt & Hok & Hu & _).
  unfold table_inv, table_wf, load_ok. rewrite Hcap, Hocc, Hcnt, Hlen.
  repeat split; try assumption; lia.
Qed.

Lemma Clear_inv m :
  table_wf m -> table_inv match_ (Clear m) /\ forall e, ~ present (Clear m) e.
Proof.
  intros (Hlen & Hpow & _). pose proof (IsPowerOfTwo32_bounds _ Hpow) as Hb.
  assert (Hnone : forall s e, slot (map_ (Clear m)) s = Some e -> key e = NULL).
  { intros s e [Hs _]%slot_lookup. simpl in Hs.
    eapply clear_keys_lookup; [|exact Hs]. lia. }
  destruct (no_live_inv _ Hnone) as (Hcnt & Hok & Hu & Hnp).
  split; [|exact Hnp].
  unfold table_inv, table_wf, load_ok. rewrite Hcnt. simpl.
  rewrite length_clear_keys. repeat split; try assumption; lia.
Qed.

End FreshTable.

(** ** Insertion and growth *)

Lemma rehash_zero ins old m : rehash ins old 0 m = Some m.
Proof. destruct old; reflexivity. Qed.

Section Growth.

Variable match_ : Z -> Z -> bool.
Variable uninit : Entry.
Hypothesis Hequiv : match_equiv match_.

(** The effect of writing a new entry where the probe for its key stopped on
    an empty slot. *)
Lemma insert_at_stop m m2 k h p e' :
  table_wf m -> probe_ok m -> keys_unique match_ (map_ m) ->
  probe_stop match_ m k h p -> vacant (map_ m) p ->
  key e' = k -> k <> NULL -> hash e' = h ->
  map_ m2 = store (map_ m) p e' -> capacity_ m2 = capacity_ m ->
  occupancy_ m2 = occupancy_ m + 1 ->
  block_ok m2 /\ probe_ok m2 /\ keys_unique match_ (map_ m2) /\
  (forall x, present m2 x <-> present m x \/ x = e') /\
  slot (map_ m2) p = Some e'.
Proof.
  intros Hwf Hok Hu Hstop Hvac Hk Hk0 Hh Hmap Hcap Hocc.
  pose proof Hwf as (Hlen & Hpow & Hcnt & Hlt).
  pose proof Hstop as (Hp & _).
  pose proof Hvac as (e0 & He0 & Hke0).
  destruct Hequiv as (_ & Hsym & _).
  assert (Hpr : 0 <= p < Z.of_nat (length (map_ m))) by lia.
  repeat split.
  - rewrite Hmap, length_store, Hcap. exact Hlen.
  - rewrite Hcap. exact Hpow.
  - rewrite Hmap, Hocc, (count_live_store _ _ _ _ He0), Hcnt.
    destruct (Z.eqb_spec (key e0) NULL); [|contradiction].
    destruct (Z.eqb_spec (key e') NULL); [congruence | lia].
  - apply (store_probe_ok match_ m m2 k h p e'); try assumption. congruence.
  - rewrite Hmap. apply (store_keys_unique match_ _ k h); try assumption.
    intros j e _ Hj Hke.
    apply (probe_stop_vacant_absent match_ m k h p); try assumption.
    exists j. auto.
  - intros (s & Hs & Hkx). rewrite Hmap, slot_store in Hs by exact Hpr.
    destruct (decide (p = s)); [right; congruence | left; exists s; auto].
  - intros [(s & Hs & Hkx)| ->].
    + exists s. split; [|exact Hkx]. rewrite Hmap, slot_store_ne; [exact Hs | lia |].
      intros ->. congruence.
    + exists p. rewrite Hmap, slot_store_eq by exact Hpr. split; congruence.
  - rewrite Hmap. apply slot_store_eq, Hpr.
Qed.

(** One pass of the loop of [Resize] on a live entry of the old array. *)
Lemma rehash_step d m e :
  table_wf m -> probe_ok m -> keys_unique match_ (map_ m) ->
  key e <> NULL -> 5 * (occupancy_ m + 1) < 4 * capacity_ m ->
  (forall e2, present m e2 -> ~ matches match_ (key e) (hash e) e2) ->
  exists m1 p e1,
    LookupOrInsert_rec match_ uninit (S d) m (key e) (hash e) = Some (m1, p) /\
    slot (map_ m1) p = Some e1 /\
    let m2 := with_map m1 (store (map_ m1) p
                {| key := key e1; value := value e; hash := hash e1;
                   order := order e |}) in
    table_wf m2 /\ probe_ok m2 /\ keys_unique match_ (map_ m2) /\
    capacity_ m2 = capacity_ m /\ occupancy_ m2 = occupancy_ m + 1 /\
    (forall x, present m2 x <-> present m x \/ x = e).
Proof.
  intros Hwf Hok Hu Hk Hload Hfresh.
  pose proof Hwf as (Hlen & Hpow & Hcnt & Hlt).
  pose proof (IsPowerOfTwo32_bounds _ Hpow) as Hb.
  pose proof (count_live_bounds (map_ m)) as Hcb.
  destruct (Probe_total match_ m (key e) (hash e) Hlen Hpow (table_wf_vacant m Hwf))
    as (p & HP & Hstop).
  pose proof Hstop as (Hp & (e0 & He0 & Hst0) & _).
  assert (Hke0 : key e0 = NULL).
  { apply keeps_probing_false in Hst0. destruct Hst0 as [|Hm]; [assumption|].
    destruct (Z.eq_dec (key e0) NULL); [assumption|].
    exfalso. apply (Hfresh e0); [exists p; auto | exact Hm]. }
  assert (Hpr : 0 <= p < Z.of_nat (length (map_ m))) by lia.
  set (e' := {| key := key e; value := NULL; hash := hash e;
                order := to_int (occupancy_ m) |}).
  set (m1 := {| map_ := store (map_ m) p e'; capacity_ := capacity_ m;
                occupancy_ := u32 (occupancy_ m + 1) |}).
  assert (Hu32 : u32 (occupancy_ m + 1) = occupancy_ m + 1)
    by (apply u32_small; lia).
  exists m1, p, e'. split; [|split].
  - rewrite (LookupOrInsert_rec_vacant match_ uninit d m _ _ p e0 HP He0 Hke0).
    fold e' m1. cbv zeta. simpl occupancy_. simpl capacity_. rewrite Hu32.
    destruct (needs_growth (occupancy_ m + 1) (capacity_ m)) eqn:Hg; [|reflexivity].
    apply needs_growth_spec in Hg; lia.
  - apply slot_store_eq, Hpr.
  - cbv zeta. simpl key. simpl hash.
    replace {| key := key e; value := value e; hash := hash e; order := order e |}
      with e by (destruct e; reflexivity).
    unfold with_map, m1. cbn [map_ capacity_ occupancy_].
    rewrite store_store, Hu32.
    destruct (insert_at_stop m
                {| map_ := store (map_ m) p e; capacity_ := capacity_ m;
                   occupancy_ := occupancy_ m + 1 |}
                (key e) (hash e) p e) as ((H1 & H2 & H3) & H4 & H5 & H6 & _);
      try assumption; try reflexivity.
    + exists e0. auto.
    + unfold table_wf. cbn [map_ capacity_ occupancy_] in *.
      refine (conj _ (conj H4 (conj H5 (conj eq_refl (conj eq_refl H6))))).
      repeat split; try assumption; lia.
Qed.

(** The loop of [Resize]: every live entry of the old array is put into the
    new table, and nothing else. *)
Lemma rehash_strong d old :
  forall n m,
    table_wf m -> probe_ok m -> keys_unique match_ (map_ m) ->
    n = count_live old ->
    5 * (occupancy_ m + n) < 4 * capacity_ m ->
    list_distinct match_ old ->
    (forall e e2, e ∈ old -> key e <> NULL -> present m e2 ->
                  ~ matches match_ (key e) (hash e) e2) ->
    exists m',
      rehash (LookupOrInsert_rec match_ uninit (S d)) old n m = Some m' /\
      table_wf m' /\ probe_ok m' /\ keys_unique match_ (map_ m') /\
      capacity_ m' = capacity_ m /\ occupancy_ m' = occupancy_ m + n /\
      (forall x, present m' x <-> present m x \/ (x ∈ old /\ key x <> NULL)).
Proof.
  induction old as [|e old IH]; intros n m Hwf Hok Hu Hn Hload Hdist Hfresh.
  - simpl in Hn. subst n. exists m. simpl. split; [reflexivity|].
    refine (conj Hwf (conj Hok (conj Hu (conj eq_refl (conj _ _))))); [lia|].
    intros x. split; [auto|].
    intros [?|[Hin _]]; [assumption | inversion Hin].
  - pose proof (count_live_bounds old) as Hcb.
    assert (Hdist' : list_distinct match_ old).
    { intros i j e1 e2 H1 H2 Hk1 Hk2 Hij.
      apply (Hdist (S i) (S j) e1 e2); auto. }
    simpl in Hn. cbn [rehash].
    destruct (Z.eqb_spec (key e) NULL) as [Hke|Hke].
    + (* an empty slot of the old array *)
      destruct (IH n m) as (m' & Hr & Hwf' & Hok' & Hu' & Hcap' & Hocc' & Hpres');
        try assumption; try lia.
      { intros e1 e2 Hin. apply Hfresh. apply elem_of_cons. auto. }
      exists m'. split.
      { destruct (Z.gtb_spec n 0) as [_|Hle]; [exact Hr|].
        assert (Hn0 : n = 0) by lia. rewrite Hn0, rehash_zero in Hr. exact Hr. }
      refine (conj Hwf' (conj Hok' (conj Hu' (conj Hcap' (conj Hocc' _))))).
      intros x. split.
      * intros Hx. apply Hpres' in Hx as [?|[Hin Hkx]]; [left; assumption|].
        right. split; [apply elem_of_cons; auto | exact Hkx].
      * intros [?|[Hin Hkx]]; apply Hpres'; [left; assumption|].
        apply elem_of_cons in Hin as [->|Hin]; [contradiction | right; auto].
    + (* a live entry *)
      destruct (Z.gtb_spec n 0) as [_|Hle]; [|lia]. simpl negb. cbv iota.
      destruct (rehash_step d m e) as (m1 & p & e1 & Hins & Hs1 & Hrest);
        try assumption; try lia.
      { intros e2. apply Hfresh; [apply elem_of_cons; auto | exact Hke]. }
      cbv zeta in Hrest.
      destruct Hrest as (Hwf2 & Hok2 & Hu2 & Hcap2 & Hocc2 & Hpres2).
      rewrite Hins. simpl. rewrite Hs1. simpl.
      destruct (IH (n - 1) _ Hwf2 Hok2 Hu2)
        as (m' & Hr & Hwf' & Hok' & Hu' & Hcap' & Hocc' & Hpres');
        try assumption; try lia.
      { intros e3 e2 Hin Hk3 Hp2. apply Hpres2 in Hp2 as [Hp2| ->].
        - apply Hfresh; [apply elem_of_cons; auto | assumption..].
        - apply list_elem_of_lookup in Hin as [i Hi].
          apply (Hdist (S i) 0%nat e3 e); auto. }
      exists m'. split; [exact Hr|].
      refine (conj Hwf' (conj Hok' (conj Hu' (conj _ (conj _ _))))); try lia.
      intros x. split.
      * intros Hx. apply Hpres' in Hx as [Hx|[Hin Hkx]].
        -- apply Hpres2 in Hx as [?| ->]; [left; assumption|].
           right. split; [apply elem_of_cons; auto | exact Hke].
        -- right. split; [apply elem_of_cons; auto | exact Hkx].
      * intros Hx. apply Hpres'. destruct Hx as [Hx|[Hin Hkx]].
        -- left. apply Hpres2. auto.
        -- apply elem_of_cons in Hin as [->|Hin].
           ++ left. apply Hpres2. auto.
           ++ right. auto.
Qed.

End Growth.

Lemma rehash_none ins old n m :
  (forall k h, ins m k h = None) -> n > 0 -> rehash ins old n m = None.
Proof.
  intros Hins Hn. induction old as [|e old IH]; simpl;
    destruct (Z.gtb_spec n 0); try lia; [reflexivity|].
  destruct (negb (key e =? NULL)); [|exact IH]. rewrite Hins. reflexivity.
Qed.

Section Operations.

Variable match_ : Z -> Z -> bool.
Variable uninit : Entry.
Hypothesis Hequiv : match_equiv match_.

(** The probe for a key that matches a live entry stops at that entry. *)
Lemma Probe_matching m s e k h :
  table_wf m -> probe_ok m -> keys_unique match_ (map_ m) ->
  slot (map_ m) s = Some e -> key e <> NULL -> matches match_ k h e ->
  Probe match_ m k h = Some s.
Proof.
  intros Hwf Hok Hu Hs Hk [Hh Hm].
  destruct Hequiv as (Hrefl & Hsym & Htrans).
  pose proof Hwf as (Hlen & Hpow & _).
  pose proof (slot_Some_range _ _ _ Hs) as Hsr. rewrite Hlen in Hsr.
  apply probe_stop_Probe; [assumption..|]. split; [exact Hsr|]. split.
  - exists e. split; [exact Hs|]. apply keeps_probing_false. right. split; auto.
  - intros j Hj Hlt.
    assert (Hlt' : dist (capacity_ m) (ideal (capacity_ m) e) j <
                   dist (capacity_ m) (ideal (capacity_ m) e) s)
      by (unfold ideal; rewrite <- Hh; exact Hlt).
    destruct (probe_ok_slots m s e j Hwf Hok Hs Hk Hj Hlt') as (e' & He' & Hk').
    exists e'. split; [exact He'|]. apply keeps_probing_true.
    split; [exact Hk'|]. intros [Hh' Hm'].
    apply (Hu s j e e'); try assumption.
    + intros ->. lia.
    + split; [congruence|]. apply (Htrans _ k); auto.
Qed.

(** [Resize] on the table left by an insertion. *)
Lemma Resize_with_spec d m :
  block_ok m -> keys_unique match_ (map_ m) -> capacity_ m < 2 ^ 31 ->
  exists m',
    Resize_with uninit (LookupOrInsert_rec match_ uninit (S d)) m = Some m' /\
    table_inv match_ m' /\
    capacity_ m' = 2 * capacity_ m /\ occupancy_ m' = occupancy_ m /\
    (forall x, present m' x <-> present m x).
Proof.
  intros (Hlen & Hpow & Hcnt) Hu Hcap.
  pose proof (IsPowerOfTwo32_bounds _ Hpow) as Hb.
  pose proof (count_live_bounds (map_ m)) as Hcb.
  unfold Resize_with. cbv zeta. rewrite u32_small by lia.
  replace (capacity_ m * 2) with (2 * capacity_ m) by lia.
  pose proof (IsPowerOfTwo32_double _ Hpow Hcap) as Hpow2.
  destruct (Initialize_inv match_ uninit _ Hpow2) as (Hwf0 & _ & Hok0 & Hu0).
  destruct (Initialize_fields uninit (2 * capacity_ m) ltac:(lia))
    as (Hlen0 & Hcap0 & Hocc0 & Hnone0).
  destruct (no_live_inv match_ _ Hnone0) as (_ & _ & _ & Hnp0).
  destruct (rehash_strong match_ uninit Hequiv d (map_ m) (occupancy_ m)
              (Initialize uninit (2 * capacity_ m)))
    as (m' & Hr & Hwf' & Hok' & Hu' & Hcap' & Hocc' & Hpres');
    try assumption.
  - rewrite Hocc0, Hcap0. lia.
  - apply keys_unique_list_distinct, Hu.
  - intros e e2 _ _ Hp2. exfalso. apply (Hnp0 e2 Hp2).
  - exists m'. split; [exact Hr|].
    rewrite Hcap0 in Hcap'. rewrite Hocc0 in Hocc'.
    split; [|split; [exact Hcap' | split; [lia|]]].
    + split; [exact Hwf' | split; [|split; assumption]].
      unfold load_ok. lia.
    + intros x. split.
      * intros Hx. apply Hpres' in Hx as [Hx|Hx];
          [exfalso; apply (Hnp0 x Hx) | apply present_elem; exact Hx].
      * intros Hx. apply Hpres'. right. apply present_elem. exact Hx.
Qed.


(** [LookupOrInsert] of a key that matches no live entry. *)
Lemma LookupOrInsert_rec_absent d m k h :
  table_inv match_ m -> k <> NULL ->
  (forall e, present m e -> ~ matches match_ k h e) ->
  (needs_growth (occupancy_ m + 1) (capacity_ m) = true -> capacity_ m < 2 ^ 31) ->
  let enew := {| key := k; value := NULL; hash := h;
                 order := to_int (occupancy_ m) |} in
  exists m' p,
    LookupOrInsert_rec match_ uninit (S (S d)) m k h = Some (m', p) /\
    table_inv match_ m' /\
    slot (map_ m') p = Some enew /\
    (forall x, present m' x <-> present m x \/ x = enew) /\
    occupancy_ m' = occupancy_ m + 1 /\
    capacity_ m' = (if needs_growth (occupancy_ m + 1) (capacity_ m)
                    then 2 * capacity_ m else capacity_ m).
Proof.
  intros (Hwf & Hload & Hok & Hu) Hk Habs Hbound enew.
  pose proof Hwf as (Hlen & Hpow & Hcnt & Hlt).
  pose proof (IsPowerOfTwo32_bounds _ Hpow) as Hb.
  pose proof (count_live_bounds (map_ m)) as Hcb.
  destruct (Probe_total match_ m k h Hlen Hpow (table_wf_vacant m Hwf))
    as (p & HP & Hstop).
  pose proof Hstop as (Hp & (e0 & He0 & Hst0) & _).
  assert (Hke0 : key e0 = NULL).
  { apply keeps_probing_false in Hst0. destruct Hst0 as [|Hm]; [assumption|].
    destruct (Z.eq_dec (key e0) NULL); [assumption|].
    exfalso. apply (Habs e0); [exists p; auto | exact Hm]. }
  assert (Hu32 : u32 (occupancy_ m + 1) = occupancy_ m + 1)
    by (apply u32_small; lia).
  rewrite (LookupOrInsert_rec_vacant match_ uninit (S d) m k h p e0 HP He0 Hke0).
  fold enew. cbv zeta. cbn [occupancy_ capacity_]. rewrite Hu32.
  set (m1 := {| map_ := store (map_ m) p enew; capacity_ := capacity_ m;
                occupancy_ := occupancy_ m + 1 |}).
  destruct (insert_at_stop match_ Hequiv m m1 k h p enew)
    as (Hblk & Hok1 & Hu1 & Hpres1 & Hs1); try assumption; try reflexivity.
  { exists e0. auto. }
  destruct (needs_growth (occupancy_ m + 1) (capacity_ m)) eqn:Hg.
  - destruct (Resize_with_spec d m1 Hblk Hu1 (Hbound eq_refl))
      as (m2 & Hr & Hinv2 & Hcap2 & Hocc2 & Hpres2).
    rewrite Hr. simpl.
    assert (Hin : present m2 enew) by (apply Hpres2, Hpres1; auto).
    destruct Hin as (s & Hs & Hks).
    destruct Hinv2 as (Hwf2 & Hload2 & Hok2 & Hu2).
    destruct (present_Lookup match_ m2 s enew Hequiv Hwf2 Hok2 Hu2 Hs Hks)
      as [HP2 _].
    simpl in HP2. rewrite HP2. simpl. exists m2, s.
    split; [reflexivity|].
    split; [exact (conj Hwf2 (conj Hload2 (conj Hok2 Hu2)))|].
    split; [exact Hs|]. split; [|split; [exact Hocc2 | exact Hcap2]].
    intros x. rewrite Hpres2. apply Hpres1.
  - exists m1, p. split; [reflexivity|].
    assert (Hng : ~ 5 * (occupancy_ m + 1) >= 4 * capacity_ m).
    { intros Hge. apply needs_growth_spec in Hge; [congruence | lia | lia]. }
    destruct Hblk as (Hlen1 & Hpow1 & Hcnt1).
    split; [|auto].
    split; [|split; [|split; assumption]].
    + split; [exact Hlen1 | split; [exact Hpow1 | split; [exact Hcnt1|]]].
      simpl. lia.
    + unfold load_ok. simpl. lia.
Qed.

End Operations.

Lemma oc_all_but cap p q z :
  0 <= p < cap -> 0 <= q < cap -> 0 <= z < cap ->
  z <> p -> next_slot cap q = p -> in_cyclic_oc cap p q z.
Proof.
  intros Hp Hq Hz Hne. unfold next_slot.
  destruct (Z.eqb_spec (q + 1) cap); intros; cyc.
Qed.

Lemma oc_next cap p q s :
  0 <= p < cap -> 0 <= q < cap -> 0 <= s < cap ->
  next_slot cap q <> p -> in_cyclic_oc cap p (next_slot cap q) s ->
  in_cyclic_oc cap p q s \/ s = next_slot cap q.
Proof.
  intros Hp Hq Hs. unfold next_slot.
  destruct (Z.eqb_spec (q + 1) cap); intros; cyc.
Qed.

Lemma path_after_move cap p q r j :
  0 <= p < cap -> 0 <= q < cap -> 0 <= r < cap -> 0 <= j < cap ->
  p <> q -> ~ in_cyclic_oc cap p q r ->
  dist cap r j < dist cap r p ->
  dist cap r j < dist cap r q /\ j <> p.
Proof. intros. cyc. Qed.

Lemma oc_not_on_path cap p s r :
  0 <= p < cap -> 0 <= s < cap -> 0 <= r < cap ->
  in_cyclic_oc cap p s r -> dist cap r p < dist cap r s -> False.
Proof. intros. cyc. Qed.

Lemma path_crosses cap p q s r :
  0 <= p < cap -> 0 <= q < cap -> 0 <= s < cap -> 0 <= r < cap ->
  s <> p -> next_slot cap q <> p -> next_slot cap q <> s ->
  ~ in_cyclic_oc cap p q s ->
  dist cap r p < dist cap r s ->
  dist cap r (next_slot cap q) < dist cap r s.
Proof.
  intros Hp Hq Hs Hr. unfold next_slot.
  destruct (Z.eqb_spec (q + 1) cap); intros; cyc.
Qed.

Lemma dist_before_next cap q z :
  0 <= q < cap -> 0 <= z < cap -> q <> z -> next_slot cap q <> z ->
  dist cap (next_slot cap q) z = dist cap q z - 1.
Proof.
  intros Hq Hz. unfold next_slot.
  destruct (Z.eqb_spec (q + 1) cap); intros; cyc.
Qed.

Lemma Remove_loop_rule (I : HashMapImpl -> Z -> Z -> Prop) cap z :
  (forall m p q, I m p q ->
     Z.of_nat (length (map_ m)) = cap /\ capacity_ m = cap /\
     0 <= q < cap /\ q <> z /\ 0 <= z < cap /\ vacant (map_ m) z) ->
  (forall m p q ent, I m p q ->
     slot (map_ m) (next_slot cap q) = Some ent -> key ent <> NULL ->
     I (Remove_shift m p (next_slot cap q) ent).1
       (Remove_shift m p (next_slot cap q) ent).2 (next_slot cap q)) ->
  forall fuel m p q, I m p q -> dist cap q z <= Z.of_nat fuel ->
    exists m' p' q',
      Remove_loop fuel m p q = Some (m', p') /\ I m' p' q' /\
      vacant (map_ m') (next_slot cap q').
Proof.
  intros Hbasic Hstep. induction fuel as [|fuel IH]; intros m p q HI Hfuel.
  - destruct (Hbasic _ _ _ HI) as (_ & _ & Hq & Hqz & Hz & _).
    exfalso. apply Hqz. apply (dist_zero cap); try assumption.
    pose proof (dist_range cap q z ltac:(lia)). lia.
  - destruct (Hbasic _ _ _ HI) as (Hlen & Hcap & Hq & Hqz & Hz & Hvac).
    pose proof (next_slot_range cap q Hq) as Hq'.
    cbn [Remove_loop]. cbv zeta. rewrite Hcap. fold (next_slot cap q).
    destruct (slot_in_range (map_ m) (next_slot cap q)) as [ent Hent]; [lia|].
    rewrite Hent. destruct (Z.eqb_spec (key ent) NULL) as [Hk|Hk].
    + exists m, p, q. split; [reflexivity|]. split; [exact HI|]. exists ent. auto.
    + specialize (Hstep m p q ent HI Hent Hk).
      destruct (Remove_shift m p (next_slot cap q) ent) as [m1 p1].
      apply IH; [exact Hstep|].
      assert (Hne : next_slot cap q <> z).
      { intros Heq. destruct Hvac as (ez & Hez & Hkz). congruence. }
      rewrite dist_before_next by assumption. lia.
Qed.

Lemma ideal_range cap e : 0 < cap -> 0 <= ideal cap e < cap.
Proof. intros H. apply Z.mod_pos_bound. exact H. Qed.

Section Removal.

Variable match_ : Z -> Z -> bool.

Lemma shift_inv_init m0 p0 z :
  table_wf m0 -> live (map_ m0) p0 -> vacant (map_ m0) z ->
  shift_inv match_ m0 p0 z m0 p0 p0.
Proof.
  intros Hwf Hl Hv. pose proof Hwf as (Hlen & Hpow & Hcnt & Hlt).
  pose proof (IsPowerOfTwo32_bounds _ Hpow) as Hb.
  assert (Hp : 0 <= p0 < capacity_ m0).
  { destruct Hl as (e & He & _). apply slot_Some_range in He. lia. }
  assert (Hz : 0 <= z < capacity_ m0).
  { destruct Hv as (e & He & _). apply slot_Some_range in He. lia. }
  unfold shift_inv. cbv zeta.
  split; [auto|]. split; [auto 10|]. split; [|split; [|split; [|split]]].
  - intros s Hs [H1 H2]. rewrite dist_self in H2 by lia. lia.
  - intros Hok s e j _ Hs Hk Hj Hlt' _. apply (probe_ok_slots m0 s e j); assumption.
  - intros s e Hne Hs Hk. exists s. auto.
  - intros s e Hne Hs Hk. exists s. auto.
  - intros Hu i j e1 e2 _ _ H1 H2 Hk1 Hk2 Hij. apply (Hu i j); assumption.
Qed.

Lemma shift_inv_step m0 p0 z m p q ent :
  IsPowerOfTwo32 (capacity_ m0) ->
  shift_inv match_ m0 p0 z m p q ->
  slot (map_ m) (next_slot (capacity_ m0) q) = Some ent -> key ent <> NULL ->
  shift_inv match_ m0 p0 z
    (Remove_shift m p (next_slot (capacity_ m0) q) ent).1
    (Remove_shift m p (next_slot (capacity_ m0) q) ent).2
    (next_slot (capacity_ m0) q).
Proof.
  intros Hpow ((Hlen & Hcap & Hocc & Hcnt) & (Hp & Hq & Hz & Hlp & Hlq & Hvz)
               & Ha & Hb & Hc & Hd & Hu) Hent Hk.
  pose proof (IsPowerOfTwo32_bounds _ Hpow) as Hbnd.
  set (cap := capacity_ m0) in *. set (q' := next_slot cap q) in *.
  pose proof (next_slot_range cap q Hq) as Hq'. fold q' in Hq'.
  assert (Hzp : z <> p) by (intros ->; apply (live_vacant_excl _ _ Hlp Hvz)).
  assert (Hq'p : q' <> p).
  { intros Heq.
    destruct (Ha z Hz (oc_all_but cap p q z Hp Hq Hz Hzp Heq)) as (e & He & Hke & _).
    apply (live_vacant_excl (map_ m) z); [exists e; auto | exact Hvz]. }
  pose proof (ideal_range cap ent ltac:(lia)) as Hr.
  assert (Hlq' : live (map_ m) q') by (exists ent; auto).
  assert (Hpr : 0 <= p < Z.of_nat (length (map_ m))) by lia.
  unfold Remove_shift. rewrite Hcap, start_index_mod by exact Hpow.
  fold cap. fold (ideal cap ent).
  pose proof (moves_iff cap p q' (ideal cap ent) Hp Hq' Hr ltac:(auto)) as Hiff.
  destruct (moves p q' (ideal cap ent)) eqn:Hm; cbn [fst snd].
  - (* the entry moves into slot [p] *)
    assert (Hout : ~ in_cyclic_oc cap p q' (ideal cap ent)) by (apply Hiff; reflexivity).
    destruct Hlp as (ep & Hep & Hkp).
    unfold shift_inv. cbv zeta. fold cap. unfold with_map. cbn [map_ capacity_ occupancy_].
    split; [|split; [|split; [|split; [|split; [|split]]]]].
    + rewrite length_store, (count_live_store _ _ _ _ Hep).
      destruct (Z.eqb_spec (key ep) NULL), (Z.eqb_spec (key ent) NULL);
        try contradiction. repeat split; try assumption; lia.
    + repeat split; try lia; try (apply live_store; assumption).
      destruct Hvz as (ez & Hez & Hkz). exists ez.
      rewrite slot_store_ne by lia. auto.
    + intros s Hs [H1 H2]. rewrite dist_self in H2 by lia. lia.
    + intros Hok s e j Hsne Hs Hke Hj Hlt Hjne.
      rewrite slot_store in Hs by exact Hpr.
      destruct (decide (p = s)) as [<-|Hps].
      * injection Hs as <-.
        destruct (path_after_move cap p q' (ideal cap ent) j) as [Hlt' Hjp];
          try assumption; auto.
        apply live_store; [assumption..|].
        apply (Hb Hok q' ent j); assumption.
      * destruct (decide (j = p)) as [->|Hjp].
        -- exists ent. rewrite slot_store_eq by exact Hpr. auto.
        -- apply live_store; [assumption..|]. apply (Hb Hok s e j); auto.
    + intros s e Hs0 Hs Hke. destruct (Hc s e Hs0 Hs Hke) as (s' & Hs'p & Hs').
      destruct (decide (s' = q')) as [->|Hs'q].
      * exists p. split; [auto|]. rewrite slot_store_eq by exact Hpr. congruence.
      * exists s'. split; [exact Hs'q|]. rewrite slot_store_ne by lia. exact Hs'.
    + intros s' e Hs'q Hs' Hke. rewrite slot_store in Hs' by exact Hpr.
      destruct (decide (p = s')) as [<-|Hps].
      * injection Hs' as <-. apply (Hd q' ent); assumption.
      * apply (Hd s' e); auto.
    + intros Hku i j e1 e2 Hi Hj H1 H2 Hk1 Hk2 Hij.
      rewrite slot_store in H1, H2 by exact Hpr.
      destruct (decide (p = i)) as [<-|Hpi], (decide (p = j)) as [<-|Hpj];
        try contradiction.
      * injection H1 as <-. apply (Hu Hku q' j); auto.
      * injection H2 as <-. apply (Hu Hku i q'); auto.
      * apply (Hu Hku i j); auto.
  - (* the entry stays *)
    assert (Hin : in_cyclic_oc cap p q' (ideal cap ent)).
    { destruct (decide (in_cyclic_oc cap p q' (ideal cap ent))) as [|Hn];
        [assumption|]. apply Hiff in Hn. discriminate. }
    unfold shift_inv. cbv zeta. fold cap.
    split; [auto|]. split; [auto 10|]. split; [|auto].
    intros s Hs Hoc.
    destruct (oc_next cap p q s Hp Hq Hs Hq'p Hoc) as [Hold| ->].
    + apply Ha; assumption.
    + exists ent. auto.
Qed.

(** [Remove] of a key whose probe stops on a live entry, in slot [p0]: the
    entry is taken out and every other entry is kept, reachable. *)
Lemma Remove_present m k h p0 e0 :
  table_wf m ->
  Probe match_ m k h = Some p0 -> slot (map_ m) p0 = Some e0 -> key e0 <> NULL ->
  exists m',
    Remove match_ m k h = Some (m', value e0) /\
    table_wf m' /\ capacity_ m' = capacity_ m /\
    occupancy_ m' = occupancy_ m - 1 /\
    (probe_ok m -> probe_ok m') /\
    (keys_unique match_ (map_ m) -> keys_unique match_ (map_ m')) /\
    (forall e, present m' e <->
               exists s, s <> p0 /\ slot (map_ m) s = Some e /\ key e <> NULL).
Proof.
  intros Hwf HP He0 Hk0. pose proof Hwf as (Hlen & Hpow & Hcnt & Hlt).
  pose proof (IsPowerOfTwo32_bounds _ Hpow) as Hbnd.
  destruct (table_wf_vacant m Hwf) as [z Hvz].
  set (cap := capacity_ m) in *.
  assert (Hl0 : live (map_ m) p0) by (exists e0; auto).
  pose proof (shift_inv_init m p0 z Hwf Hl0 Hvz) as Hinit.
  destruct (Remove_loop_rule (shift_inv match_ m p0 z) cap z) with
    (fuel := S (length (map_ m))) (m := m) (p := p0) (q := p0)
    as (m1 & p1 & q1 & Hloop & Hinv & Hvnext).
  { intros m' p q ((Hl' & Hc' & _) & (_ & Hq & Hz & _ & Hlq & Hvz') & _).
    repeat split; try assumption; try lia.
    intros ->. apply (live_vacant_excl _ _ Hlq Hvz'). }
  { intros m' p q ent HI. apply shift_inv_step; assumption. }
  { exact Hinit. }
  { pose proof (dist_range cap p0 z ltac:(lia)). lia. }
  destruct Hinv as ((Hlen1 & Hcap1 & Hocc1 & Hcnt1)
                    & (Hp1 & Hq1 & Hz & (e1 & He1 & Hke1) & Hlq1 & Hvz1)
                    & Ha & Hb & Hc & Hd & Hu).
  fold cap in Hlen1, Hcap1, Hp1, Hq1, Hz, Ha, Hb, Hvnext.
  pose proof (count_live_pos _ _ _ He0 Hk0) as Hpos.
  assert (Hpr : 0 <= p1 < Z.of_nat (length (map_ m1))) by lia.
  assert (Hu32 : u32 (occupancy_ m1 - 1) = occupancy_ m - 1)
    by (rewrite Hocc1; apply u32_small; lia).
  set (v := next_slot cap q1) in *.
  pose proof (next_slot_range cap q1 Hq1) as Hv. fold v in Hv.
  assert (Hvp : v <> p1).
  { intros Heq. apply (live_vacant_excl (map_ m1) v); [|exact Hvnext].
    rewrite Heq. exists e1. auto. }
  assert (Hslot : forall s e,
            slot (store (map_ m1) p1 (clear_key e1)) s = Some e -> key e <> NULL ->
            s <> p1 /\ slot (map_ m1) s = Some e).
  { intros s e Hs Hke. rewrite slot_store in Hs by exact Hpr.
    destruct (decide (p1 = s)); [|auto].
    injection Hs as <-. contradiction. }
  eexists. split.
  { unfold Remove. rewrite HP. cbn -[Remove_loop]. rewrite He0. cbn -[Remove_loop].
    destruct (Z.eqb_spec (key e0) NULL); [contradiction|].
    rewrite Hloop. simpl. rewrite He1. simpl. reflexivity. }
  cbn [map_ capacity_ occupancy_]. rewrite Hu32.
  split; [|split; [exact Hcap1 | split; [reflexivity | split; [|split]]]].
  - (* well-formed *)
    unfold table_wf. cbn [map_ capacity_ occupancy_].
    rewrite length_store, (count_live_store _ _ _ _ He1), Hcap1, Hcnt1. simpl.
    destruct (Z.eqb_spec (key e1) NULL); [contradiction|].
    repeat split; try assumption; lia.
  - (* every entry is reached *)
    intros Hok s e Hs Hke. cbn [map_ capacity_] in *.
    destruct (Hslot s e Hs Hke) as [Hsp Hs1].
    pose proof (slot_Some_range _ _ _ Hs1) as Hsr. rewrite Hlen1 in Hsr.
    rewrite Hcap1. apply reachable_slots; [lia | lia |].
    intros j Hj Hlt'. pose proof (ideal_range cap e ltac:(lia)) as Hr.
    assert (Hoff : ~ dist cap (ideal cap e) p1 < dist cap (ideal cap e) s).
    { intros Hon.
      assert (Hvs : v <> s).
      { intros Heq. apply (live_vacant_excl (map_ m1) v); [|exact Hvnext].
        rewrite Heq. exists e. auto. }
      destruct (decide (in_cyclic_oc cap p1 q1 s)) as [Hoc|Hnoc].
      - destruct (Ha s Hsr Hoc) as (e' & He' & _ & Hoc').
        assert (e' = e) by congruence. subst e'.
        apply (oc_not_on_path cap p1 s (ideal cap e)); assumption.
      - apply (live_vacant_excl (map_ m1) v); [|exact Hvnext].
        apply (Hb Hok s e v); try assumption.
        apply (path_crosses cap p1 q1 s); assumption. }
    assert (Hjp : j <> p1) by (intros ->; apply Hoff; exact Hlt').
    destruct (Hb Hok s e j Hsp Hs1 Hke Hj Hlt' Hjp) as (ej & Hej & Hkj).
    exists ej. rewrite slot_store_ne by lia. auto.
  - (* the keys stay unique *)
    intros Hku i j x1 x2 H1 H2 Hk1 Hk2 Hij.
    destruct (Hslot i x1 H1 Hk1) as [Hi H1'].
    destruct (Hslot j x2 H2 Hk2) as [Hj H2'].
    apply (Hu Hku i j); assumption.
  - (* the entries are those of the other slots *)
    intros e. split.
    + intros (s & Hs & Hke). destruct (Hslot s e Hs Hke) as [Hsp Hs1].
      destruct (Hd s e Hsp Hs1 Hke) as (s0 & Hs0 & Hs0').
      exists s0. auto.
    + intros (s & Hsp & Hs & Hke).
      destruct (Hc s e Hsp Hs Hke) as (s' & Hs'p & Hs').
      exists s'. split; [|exact Hke]. cbn [map_].
      rewrite slot_store_ne by lia. exact Hs'.
Qed.

End Removal.

(** ** Properties of [Remove] *)

Section RemoveProperties.

Variable match_ : Z -> Z -> bool.
Hypothesis Hequiv : match_equiv match_.

Lemma Probe_Some_stop m k h p :
  table_wf m -> Probe match_ m k h = Some p -> probe_stop match_ m k h p.
Proof.
  intros Hwf HP. pose proof Hwf as (Hlen & Hpow & _).
  destruct (Probe_total match_ m k h Hlen Hpow (table_wf_vacant m Hwf))
    as (s & HP' & Hstop).
  congruence.
Qed.

Lemma Lookup_Some_inv m k h p :
  Lookup match_ m k h = Some (Some p) ->
  Probe match_ m k h = Some p /\
  exists e, slot (map_ m) p = Some e /\ key e <> NULL.
Proof.
  unfold Lookup. destruct (Probe match_ m k h) as [s|]; [|discriminate].
  simpl. destruct (slot (map_ m) s) as [e|] eqn:He; [|discriminate]. simpl.
  destruct (Z.eqb_spec (key e) NULL); [discriminate|].
  intros [= <-]. eauto.
Qed.

Lemma Lookup_present_matches m k h p e :
  table_wf m -> Lookup match_ m k h = Some (Some p) ->
  slot (map_ m) p = Some e -> key e <> NULL /\ matches match_ k h e.
Proof.
  intros Hwf [HP (e' & He' & Hk')]%Lookup_Some_inv He.
  assert (e' = e) by congruence. subst e'. split; [exact Hk'|].
  destruct (Probe_Some_stop m k h p Hwf HP) as (_ & (x & Hx & Hstop) & _).
  assert (x = e) by congruence. subst x.
  apply keeps_probing_false in Hstop. destruct Hstop; [contradiction | assumption].
Qed.

(** After [Remove] of a present key, no live entry matches it. *)
Lemma removed_absent m k h p0 e0 m' :
  keys_unique match_ (map_ m) ->
  slot (map_ m) p0 = Some e0 -> key e0 <> NULL -> matches match_ k h e0 ->
  (forall e, present m' e <->
             exists s, s <> p0 /\ slot (map_ m) s = Some e /\ key e <> NULL) ->
  forall e, present m' e -> ~ matches match_ k h e.
Proof.
  intros Hu He0 Hk0 [Hh0 Hm0] Hpres e Hp [Hh Hm].
  destruct Hequiv as (_ & Hsym & Htrans).
  apply Hpres in Hp as (s & Hs & Hse & Hke).
  apply (Hu p0 s e0 e); auto.
  split; [congruence|]. apply (Htrans _ k); auto.
Qed.

(** C1: on a table that satisfies the invariants, [Remove] of a present key
    returns; afterwards every live entry is reached from its ideal slot
    before any empty slot, every entry of another slot is still in the
    table, reached that way, and [Lookup] with its key and hash returns it;
    and [Lookup] of the removed key returns [NULL]. *)
Theorem Remove_keeps_others_reachable (m : HashMapImpl) (k h p0 : Z) :
  table_inv match_ m ->
  Lookup match_ m k h = Some (Some p0) ->
  exists m' v,
    Remove match_ m k h = Some (m', v) /\
    table_inv match_ m' /\
    Lookup match_ m' k h = Some None /\
    forall s e, s <> p0 -> slot (map_ m) s = Some e -> key e <> NULL ->
      exists s',
        slot (map_ m') s' = Some e /\
        reachable (map_ m') (capacity_ m') s' e /\
        Lookup match_ m' (key e) (hash e) = Some (Some s').
Proof.
  intros (Hwf & Hload & Hok & Hu) HL.
  destruct (Lookup_Some_inv m k h p0 HL) as [HP (e0 & He0 & Hk0)].
  destruct (Lookup_present_matches m k h p0 e0 Hwf HL He0) as [_ Hm0].
  destruct (Remove_present match_ m k h p0 e0 Hwf HP He0 Hk0)
    as (m' & HR & Hwf' & Hcap' & Hocc' & Hok' & Hu' & Hpres).
  specialize (Hok' Hok). specialize (Hu' Hu).
  exists m', (value e0). split; [exact HR|].
  split; [|split].
  - split; [exact Hwf' | split; [|split; assumption]].
    unfold load_ok in *. lia.
  - apply absent_Lookup; [exact Hwf'|].
    apply (removed_absent m k h p0 e0 m'); assumption.
  - intros s e Hs Hse Hke.
    assert (Hp : present m' e) by (apply Hpres; eauto).
    destruct Hp as (s' & Hs' & _). exists s'.
    split; [exact Hs'|]. split; [apply Hok'; assumption|].
    apply (present_Lookup match_ m' s' e); assumption.
Qed.

(** C10: [Remove] returns [NULL] both for a key that is not in the table,
    leaving the table as it was, and for a key that is in the table with
    the value [NULL]; then the entry is deleted, the occupancy is one less
    and the table is not the one it was. *)
Theorem Remove_NULL_twofold (m : HashMapImpl) (k h : Z) :
  table_inv match_ m ->
  (Lookup match_ m k h = Some None -> Remove match_ m k h = Some (m, NULL)) /\
  (forall p0 e0,
     Lookup match_ m k h = Some (Some p0) ->
     slot (map_ m) p0 = Some e0 -> value e0 = NULL ->
     exists m',
       Remove match_ m k h = Some (m', NULL) /\
       occupancy m' = occupancy m - 1 /\
       m' <> m /\
       Lookup match_ m' k h = Some None).
Proof.
  intros (Hwf & Hload & Hok & Hu). split.
  - unfold Lookup, Remove.
    destruct (Probe match_ m k h) as [s|]; [|discriminate]. simpl.
    destruct (slot (map_ m) s) as [e|]; [|discriminate]. simpl.
    destruct (Z.eqb_spec (key e) NULL); [reflexivity | discriminate].
  - intros p0 e0 HL He0 Hv.
    destruct (Lookup_Some_inv m k h p0 HL) as [HP _].
    destruct (Lookup_present_matches m k h p0 e0 Hwf HL He0) as [Hk0 Hm0].
    destruct (Remove_present match_ m k h p0 e0 Hwf HP He0 Hk0)
      as (m' & HR & Hwf' & Hcap' & Hocc' & Hok' & Hu' & Hpres).
    exists m'. rewrite <- Hv. split; [exact HR|]. split; [exact Hocc'|].
    split.
    + intros ->. unfold occupancy in *. lia.
    + apply absent_Lookup; [exact Hwf'|].
      apply (removed_absent m k h p0 e0 m'); assumption.
Qed.

End RemoveProperties.

(** ** Soundness of the decision of the invariants *)

Lemma IsPowerOfTwo32b_sound c : IsPowerOfTwo32b c = true -> IsPowerOfTwo32 c.
Proof.
  unfold IsPowerOfTwo32b. intros H. apply existsb_exists in H as (k & Hin & Hk).
  apply in_seq in Hin. apply Z.eqb_eq in Hk.
  exists (Z.of_nat k). split; [lia | exact Hk].
Qed.

Lemma table_wfb_sound m : table_wfb m = true -> table_wf m.
Proof.
  unfold table_wfb. rewrite !andb_true_iff.
  intros [[[H1 H2] H3] H4]. repeat split.
  - apply Z.eqb_eq, H1.
  - apply IsPowerOfTwo32b_sound, H2.
  - apply Z.eqb_eq, H3.
  - apply Z.ltb_lt, H4.
Qed.

Lemma liveb_sound t p : liveb t p = true -> live t p.
Proof.
  unfold liveb, live. destruct (slot t p) as [e|]; [|discriminate].
  intros H. exists e. split; [reflexivity|].
  destruct (Z.eqb_spec (key e) NULL); [discriminate | assumption].
Qed.

Lemma reachableb_sound t cap s e :
  reachableb t cap s e = true -> reachable t cap s e.
Proof.
  unfold reachableb, reachable. intros H i Hi.
  rewrite forallb_forall in H. specialize (H (Z.to_nat i)).
  rewrite Z2Nat.id in H by lia. apply liveb_sound, H, in_seq. lia.
Qed.

Lemma probe_okb_sound m : probe_okb m = true -> probe_ok m.
Proof.
  unfold probe_okb, probe_ok. intros H s e Hs Hk.
  rewrite forallb_forall in H.
  destruct (slot_lookup _ _ _ Hs) as [Hl Hs0].
  specialize (H (Z.to_nat s)). rewrite Hl, Z2Nat.id in H by lia.
  apply reachableb_sound.
  destruct (Z.eqb_spec (key e) NULL); [contradiction|]. apply H, in_seq.
  apply lookup_lt_Some in Hl. lia.
Qed.

Lemma keys_uniqueb_sound match_ t :
  keys_uniqueb match_ t = true -> keys_unique match_ t.
Proof.
  unfold keys_uniqueb, keys_unique.
  intros H i j e1 e2 H1 H2 Hk1 Hk2 Hij [Hh Hm].
  rewrite forallb_forall in H.
  destruct (slot_lookup _ _ _ H1) as [Hl1 Hi0].
  destruct (slot_lookup _ _ _ H2) as [Hl2 Hj0].
  assert (Hin1 : In (Z.to_nat i) (seq 0 (length t)))
    by (apply in_seq; apply lookup_lt_Some in Hl1; lia).
  assert (Hin2 : In (Z.to_nat j) (seq 0 (length t)))
    by (apply in_seq; apply lookup_lt_Some in Hl2; lia).
  specialize (H (Z.to_nat i) Hin1). rewrite forallb_forall in H.
  specialize (H (Z.to_nat j) Hin2). rewrite Hl1, Hl2 in H.
  destruct (Z.eqb_spec (key e1) NULL); [contradiction|].
  destruct (Z.eqb_spec (key e2) NULL); [contradiction|].
  destruct (Nat.eqb_spec (Z.to_nat i) (Z.to_nat j)); [lia|].
  rewrite <- Hh, Z.eqb_refl, Hm in H. simpl in H. discriminate.
Qed.

Lemma table_invb_sound match_ m : table_invb match_ m = true -> table_inv match_ m.
Proof.
  unfold table_invb. rewrite !andb_true_iff. intros [[[H1 H2] H3] H4].
  split; [apply table_wfb_sound, H1|].
  split; [apply Z.leb_le, H2|].
  split; [apply probe_okb_sound, H3 | apply keys_uniqueb_sound, H4].
Qed.

Lemma PointersMatch_equiv : match_equiv PointersMatch.
Proof.
  unfold PointersMatch. repeat split.
  - intros k. apply Z.eqb_refl.
  - intros k1 k2 H. apply Z.eqb_eq in H. subst. apply Z.eqb_refl.
  - intros k1 k2 k3 H1 H2. apply Z.eqb_eq in H1, H2. subst. apply Z.eqb_refl.
Qed.

(** ** Properties of [LookupOrInsert] *)

Section InsertProperties.

Variable match_ : Z -> Z -> bool.
Variable uninit : Entry.
Hypothesis Hequiv : match_equiv match_.

Lemma Probe_empty_block m k h : map_ m = [] -> Probe match_ m k h = None.
Proof.
  intros H. unfold Probe. rewrite H. simpl. rewrite H. unfold slot.
  destruct (start_index (capacity_ m) h <? 0); reflexivity.
Qed.

Lemma LookupOrInsert_rec_empty_block d m k h :
  map_ m = [] -> LookupOrInsert_rec match_ uninit d m k h = None.
Proof.
  intros H. destruct d; simpl; [reflexivity|].
  rewrite Probe_empty_block by exact H. reflexivity.
Qed.

(** Doubling a capacity of [2^31] wraps to [0]: the new block is empty and
    the first entry to move is looked up outside of it. *)
Lemma Resize_with_overflow d m :
  capacity_ m = 2 ^ 31 -> occupancy_ m > 0 ->
  Resize_with uninit (LookupOrInsert_rec match_ uninit d) m = None.
Proof.
  intros Hcap Hocc. unfold Resize_with. cbv zeta. rewrite Hcap.
  replace (u32 (2 ^ 31 * 2)) with 0 by reflexivity.
  apply rehash_none; [|exact Hocc].
  intros k h. apply LookupOrInsert_rec_empty_block. reflexivity.
Qed.

(** The three ways a call of [LookupOrInsert] goes: the key is found; the
    key is new and the table would have to grow beyond [2^31] slots; the
    key is new and is inserted. *)
Lemma LookupOrInsert_cases m k h :
  table_inv match_ m -> k <> NULL ->
  (exists s e, slot (map_ m) s = Some e /\ key e <> NULL /\
               matches match_ k h e /\
               LookupOrInsert match_ uninit m k h = Some (m, s)) \/
  ((forall e, present m e -> ~ matches match_ k h e) /\
   capacity_ m = 2 ^ 31 /\
   needs_growth (occupancy_ m + 1) (capacity_ m) = true /\
   LookupOrInsert match_ uninit m k h = None) \/
  ((forall e, present m e -> ~ matches match_ k h e) /\
   let enew := {| key := k; value := NULL; hash := h;
                  order := to_int (occupancy_ m) |} in
   exists m' p,
     LookupOrInsert match_ uninit m k h = Some (m', p) /\
     table_inv match_ m' /\
     slot (map_ m') p = Some enew /\
     (forall x, present m' x <-> present m x \/ x = enew) /\
     occupancy_ m' = occupancy_ m + 1 /\
     capacity_ m' = (if needs_growth (occupancy_ m + 1) (capacity_ m)
                     then 2 * capacity_ m else capacity_ m)).
Proof.
  intros Hinv Hk. pose proof Hinv as (Hwf & Hload & Hok & Hu).
  pose proof Hwf as (Hlen & Hpow & Hcnt & Hlt).
  pose proof (IsPowerOfTwo32_bounds _ Hpow) as Hb.
  pose proof (count_live_bounds (map_ m)) as Hcb.
  destruct (Probe_total match_ m k h Hlen Hpow (table_wf_vacant m Hwf))
    as (p & HP & Hstop).
  pose proof Hstop as (Hp & (e0 & He0 & Hst0) & _).
  apply keeps_probing_false in Hst0.
  destruct (Z.eq_dec (key e0) NULL) as [Hke0|Hke0].
  - right.
    assert (Habs : forall e, present m e -> ~ matches match_ k h e).
    { apply (probe_stop_vacant_absent match_ m k h p); try assumption.
      exists e0. auto. }
    destruct (needs_growth (occupancy_ m + 1) (capacity_ m)) eqn:Hg.
    + destruct (Z_lt_ge_dec (capacity_ m) (2 ^ 31)) as [Hlt31|Hge31].
      * right. split; [exact Habs|].
        pose proof (LookupOrInsert_rec_absent match_ uninit Hequiv 0 m k h
                      Hinv Hk Habs) as Hins.
        rewrite Hg in Hins. apply Hins. auto.
      * left. split; [exact Habs|]. split; [lia|]. split; [reflexivity|].
        unfold LookupOrInsert.
        rewrite (LookupOrInsert_rec_vacant match_ uninit 1 m k h p e0 HP He0 Hke0).
        cbv zeta. cbn [occupancy_ capacity_].
        rewrite (u32_small (occupancy_ m + 1)) by lia. rewrite Hg.
        rewrite Resize_with_overflow; [reflexivity | simpl; lia | simpl; lia].
    + right. split; [exact Habs|].
      pose proof (LookupOrInsert_rec_absent match_ uninit Hequiv 0 m k h
                    Hinv Hk Habs) as Hins.
      rewrite Hg in Hins. apply Hins. discriminate.
  - left. exists p, e0. destruct Hst0 as [|Hm]; [contradiction|].
    repeat split; try assumption; try apply Hm.
    apply (LookupOrInsert_rec_found match_ uninit 1 m k h p e0); assumption.
Qed.


(** [LookupOrInsert] of a new key, while the table stays below [2^31]
    slots. *)
Lemma LookupOrInsert_fresh m k h :
  table_inv match_ m -> k <> NULL ->
  (forall e, present m e -> ~ matches match_ k h e) ->
  5 * (occupancy_ m + 1) < 2 ^ 33 ->
  let enew := {| key := k; value := NULL; hash := h;
                 order := to_int (occupancy_ m) |} in
  exists m' p,
    LookupOrInsert match_ uninit m k h = Some (m', p) /\
    table_inv match_ m' /\
    slot (map_ m') p = Some enew /\
    (forall x, present m' x <-> present m x \/ x = enew) /\
    occupancy_ m' = occupancy_ m + 1 /\
    capacity_ m' = (if needs_growth (occupancy_ m + 1) (capacity_ m)
                    then 2 * capacity_ m else capacity_ m).
Proof.
  intros Hinv Hk Habs Hbound.
  destruct (LookupOrInsert_cases m k h Hinv Hk)
    as [(s & e & Hs & Hke & Hm & _)|[(_ & Hcap & Hg & _)|(_ & Hins)]].
  - exfalso. apply (Habs e); [exists s; auto | exact Hm].
  - exfalso. destruct Hinv as ((_ & _ & Hcnt & _) & _).
    pose proof (count_live_bounds (map_ m)).
    apply needs_growth_spec in Hg; lia.
  - exact Hins.
Qed.

Lemma pairs_distinct_tail kh l :
  pairs_distinct match_ (kh :: l) -> pairs_distinct match_ l.
Proof. intros H i j kh1 kh2 H1 H2 Hij. apply (H (S i) (S j)); auto. Qed.

Lemma pairs_distinct_head k h l kh :
  pairs_distinct match_ ((k, h) :: l) -> kh ∈ l ->
  ~ (kh.2 = h /\ match_ kh.1 k = true).
Proof.
  intros H [i Hi]%list_elem_of_lookup.
  apply (H (S i) 0%nat kh (k, h)); auto.
Qed.

Lemma insert_all_spec l :
  forall m,
    table_inv match_ m ->
    (forall kh, kh ∈ l -> kh.1 <> NULL) ->
    pairs_distinct match_ l ->
    (forall kh e, kh ∈ l -> present m e -> ~ matches match_ kh.1 kh.2 e) ->
    5 * (occupancy_ m + Z.of_nat (length l)) < 2 ^ 33 ->
    exists m',
      insert_all match_ uninit m l = Some m' /\
      table_inv match_ m' /\
      occupancy_ m' = occupancy_ m + Z.of_nat (length l) /\
      (forall x, present m x -> present m' x) /\
      (forall kh, kh ∈ l ->
         exists x, present m' x /\ key x = kh.1 /\ hash x = kh.2).
Proof.
  induction l as [|[k h] l IH]; intros m Hinv Hkeys Hdist Hfresh Hbound.
  - exists m. simpl. split; [reflexivity|]. split; [exact Hinv|].
    split; [lia|]. split; [auto|]. intros kh Hin. inversion Hin.
  - pose proof Hinv as ((_ & _ & Hcnt & _) & _).
    pose proof (count_live_bounds (map_ m)) as Hcb.
    rewrite length_cons in Hbound.
    destruct (LookupOrInsert_fresh m k h Hinv)
      as (m1 & p & HL & Hinv1 & Hs1 & Hpres1 & Hocc1 & _).
    { apply (Hkeys (k, h)). apply elem_of_cons. auto. }
    { intros e. apply (Hfresh (k, h)). apply elem_of_cons. auto. }
    { lia. }
    destruct (IH m1 Hinv1) as (m' & HI & Hinv' & Hocc' & Hkeep & Hall).
    { intros kh Hin. apply Hkeys. apply elem_of_cons. auto. }
    { apply (pairs_distinct_tail _ _ Hdist). }
    { intros kh e Hin Hp. apply Hpres1 in Hp as [Hp| ->].
      - apply (Hfresh kh); [apply elem_of_cons; auto | exact Hp].
      - apply (pairs_distinct_head k h l kh Hdist Hin). }
    { lia. }
    exists m'. cbn [insert_all]. rewrite HL. simpl.
    split; [exact HI|]. split; [exact Hinv'|].
    split; [lia|]. split.
    + intros x Hx. apply Hkeep, Hpres1. auto.
    + intros kh [->|Hin]%elem_of_cons; [|apply Hall, Hin].
      eexists. split; [apply Hkeep, Hpres1; right; reflexivity|]. auto.
Qed.

(** For at most [1717986918] pairs ([5 * n < 2^33]), so that the capacity
    never has to grow past [2^31]: from a fresh table, a sequence of
    [LookupOrInsert] on pairs of a key and its hash that are pairwise
    different returns; afterwards [occupancy()] is the number of pairs and
    [Lookup] of each pair returns an entry, which holds that key and
    hash. *)
Theorem inserted_keys_found (c : Z) (l : list (Z * Z)) :
  IsPowerOfTwo32 c ->
  (forall kh, kh ∈ l -> kh.1 <> NULL) ->
  pairs_distinct match_ l ->
  5 * Z.of_nat (length l) < 2 ^ 33 ->
  exists m,
    insert_all match_ uninit (HashMapImpl_new uninit c) l = Some m /\
    occupancy m = Z.of_nat (length l) /\
    forall k h, (k, h) ∈ l ->
      exists p e, Lookup match_ m k h = Some (Some p) /\
                  slot (map_ m) p = Some e /\ key e = k /\ hash e = h.
Proof.
  intros Hpow Hkeys Hdist Hbound.
  pose proof (Initialize_inv match_ uninit c Hpow) as Hinv0.
  pose proof (IsPowerOfTwo32_bounds _ Hpow) as Hb.
  destruct (Initialize_fields uninit c ltac:(lia)) as (_ & _ & Hocc0 & Hnone0).
  destruct (no_live_inv match_ _ Hnone0) as (_ & _ & _ & Hnp0).
  destruct (insert_all_spec l (Initialize uninit c) Hinv0 Hkeys Hdist)
    as (m & HI & (Hwf & Hload & Hok & Hu) & Hocc & _ & Hall).
  { intros kh e _ Hp. exfalso. apply (Hnp0 e Hp). }
  { rewrite Hocc0. lia. }
  exists m. split; [exact HI|]. split; [unfold occupancy; lia|].
  intros k h Hin. destruct (Hall (k, h) Hin) as (x & (s & Hs & Hkx) & Hk & Hh).
  simpl in Hk, Hh. exists s, x.
  destruct (present_Lookup match_ m s x Hequiv Hwf Hok Hu Hs Hkx) as [_ HL].
  rewrite Hk, Hh in HL. auto.
Qed.

End InsertProperties.

(** ** The size invariants, for any match function *)

Section SizeInvariants.

Variable match_ : Z -> Z -> bool.
Variable uninit : Entry.

(** One pass of the loop of [Resize] on a live entry of the old array,
    whatever the keys of the new table are; the nesting depth plays no
    role. *)
Lemma rehash_step_wf m e :
  table_wf m -> key e <> NULL -> 5 * (occupancy_ m + 1) < 4 * capacity_ m ->
  exists m1 entry e1,
    (forall d, LookupOrInsert_rec match_ uninit (S d) m (key e) (hash e)
               = Some (m1, entry)) /\
    slot (map_ m1) entry = Some e1 /\
    let m2 := with_map m1 (store (map_ m1) entry
                {| key := key e1; value := value e; hash := hash e1;
                   order := order e |}) in
    table_wf m2 /\ capacity_ m2 = capacity_ m /\
    occupancy_ m <= occupancy_ m2 <= occupancy_ m + 1.
Proof.
  intros Hwf Hke Hload. pose proof Hwf as (Hlen & Hpow & Hcnt & Hlt).
  pose proof (IsPowerOfTwo32_bounds _ Hpow) as Hb.
  pose proof (count_live_bounds (map_ m)) as Hcm.
  destruct (Probe_total match_ m (key e) (hash e) Hlen Hpow (table_wf_vacant m Hwf))
    as (p & HP & (Hp & (e0 & He0 & _) & _)).
  assert (Hpr : 0 <= p < Z.of_nat (length (map_ m))) by lia.
  destruct (Z.eq_dec (key e0) NULL) as [Hke0|Hke0].
  - (* a new entry of the new table *)
    eexists _, p, _. split; [|split].
    + intros d.
      rewrite (LookupOrInsert_rec_vacant match_ uninit d m _ _ p e0 HP He0 Hke0).
      cbv zeta. cbn [occupancy_ capacity_].
      rewrite (u32_small (occupancy_ m + 1)) by lia.
      destruct (needs_growth (occupancy_ m + 1) (capacity_ m)) eqn:Hg;
        [|reflexivity].
      apply needs_growth_spec in Hg; lia.
    + cbn [map_]. apply slot_store_eq, Hpr.
    + cbv zeta. unfold table_wf, with_map. cbn [map_ capacity_ occupancy_ key hash].
      rewrite store_store, length_store, (count_live_store _ _ _ _ He0). simpl.
      destruct (Z.eqb_spec (key e0) NULL); [|contradiction].
      destruct (Z.eqb_spec (key e) NULL); [contradiction|].
      repeat split; try assumption; lia.
  - (* an entry that is already there *)
    exists m, p, e0. split; [|split].
    + intros d.
      apply (LookupOrInsert_rec_found match_ uninit d m _ _ p e0 HP He0 Hke0).
    + exact He0.
    + cbv zeta. unfold table_wf, with_map. cbn [map_ capacity_ occupancy_].
      rewrite length_store, (count_live_store _ _ _ _ He0). simpl.
      destruct (Z.eqb_spec (key e0) NULL); [contradiction|].
      repeat split; try assumption; lia.
Qed.

(** The loop of [Resize] keeps the new table well-formed, whatever the keys
    of the old array are. *)
Lemma rehash_wf d old :
  forall n m,
    table_wf m -> 0 <= n <= count_live old ->
    5 * (occupancy_ m + n) < 4 * capacity_ m ->
    exists m',
      rehash (LookupOrInsert_rec match_ uninit (S d)) old n m = Some m' /\
      table_wf m' /\ capacity_ m' = capacity_ m /\
      occupancy_ m <= occupancy_ m' <= occupancy_ m + n.
Proof.
  induction old as [|e old IH]; intros n m Hwf Hn Hload.
  - simpl in Hn. assert (n = 0) by lia. subst n. exists m. simpl.
    repeat split; try apply Hwf; lia.
  - destruct (Z.eq_dec n 0) as [->|Hn0].
    { exists m. rewrite rehash_zero. repeat split; try apply Hwf; lia. }
    pose proof (count_live_bounds old) as Hcb.
    simpl in Hn. cbn [rehash].
    destruct (Z.gtb_spec n 0) as [_|Hle]; [|lia].
    destruct (Z.eqb_spec (key e) NULL) as [Hke|Hke]; cbn [negb].
    { apply IH; [assumption | lia | lia]. }
    destruct (rehash_step_wf m e Hwf Hke ltac:(lia))
      as (m1 & entry & e1 & Hins & Hs1 & Hwf2 & Hcap2 & Hocc2).
    rewrite (Hins d). cbn [mbind option_bind]. rewrite Hs1. cbn [mbind option_bind].
    destruct (IH (n - 1) _ Hwf2) as (m' & Hr & Hwf' & Hcap' & Hocc'); [lia | lia |].
    exists m'. split; [exact Hr|]. split; [exact Hwf'|]. split; lia.
Qed.

(** The loop of [Resize] never nests a [Resize]: the depth given to the
    calls of [LookupOrInsert] does not matter. *)
Lemma rehash_depth d old :
  forall n m,
    table_wf m -> 5 * (occupancy_ m + n) < 4 * capacity_ m ->
    rehash (LookupOrInsert_rec match_ uninit (S d)) old n m =
    rehash (LookupOrInsert_rec match_ uninit 1) old n m.
Proof.
  induction old as [|e old IH]; intros n m Hwf Hload; [reflexivity|].
  cbn [rehash]. destruct (Z.gtb_spec n 0) as [Hpos|Hle]; [|reflexivity].
  destruct (Z.eqb_spec (key e) NULL) as [Hke|Hke]; cbn [negb].
  { apply IH; assumption. }
  destruct (rehash_step_wf m e Hwf Hke ltac:(lia))
    as (m1 & entry & e1 & Hins & Hs1 & Hwf2 & Hcap2 & Hocc2).
  rewrite (Hins d), (Hins 0%nat). cbn [mbind option_bind].
  rewrite Hs1. cbn [mbind option_bind].
  apply IH; [exact Hwf2 | lia].
Qed.

Lemma Resize_with_wf d m :
  block_ok m -> capacity_ m < 2 ^ 31 ->
  exists m',
    Resize_with uninit (LookupOrInsert_rec match_ uninit (S d)) m = Some m' /\
    table_wf m' /\ load_ok m' /\ capacity_ m' = 2 * capacity_ m.
Proof.
  intros (Hlen & Hpow & Hcnt) Hcap.
  pose proof (IsPowerOfTwo32_bounds _ Hpow) as Hb.
  pose proof (count_live_bounds (map_ m)) as Hcb.
  unfold Resize_with. cbv zeta. rewrite u32_small by lia.
  replace (capacity_ m * 2) with (2 * capacity_ m) by lia.
  pose proof (IsPowerOfTwo32_double _ Hpow Hcap) as Hpow2.
  destruct (Initialize_inv match_ uninit _ Hpow2) as (Hwf0 & _).
  destruct (Initialize_fields uninit (2 * capacity_ m) ltac:(lia))
    as (_ & Hcap0 & Hocc0 & _).
  destruct (rehash_wf d (map_ m) (occupancy_ m) _ Hwf0)
    as (m' & Hr & Hwf' & Hcap' & Hocc'); [lia | rewrite Hocc0, Hcap0; lia |].
  exists m'. split; [exact Hr|]. split; [exact Hwf'|].
  rewrite Hcap0 in Hcap'. rewrite Hocc0 in Hocc'.
  split; [unfold load_ok; lia | exact Hcap'].
Qed.

Lemma LookupOrInsert_wf m k h :
  table_wf m -> load_ok m -> k <> NULL ->
  (forall m' p, LookupOrInsert match_ uninit m k h = Some (m', p) ->
                table_wf m' /\ load_ok m') /\
  (capacity_ m < 2 ^ 31 ->
   exists m' p, LookupOrInsert match_ uninit m k h = Some (m', p)).
Proof.
  intros Hwf Hload Hk. pose proof Hwf as (Hlen & Hpow & Hcnt & Hlt).
  pose proof (IsPowerOfTwo32_bounds _ Hpow) as Hb.
  pose proof (count_live_bounds (map_ m)) as Hcm.
  destruct (Probe_total match_ m k h Hlen Hpow (table_wf_vacant m Hwf))
    as (p & HP & (Hp & (e0 & He0 & _) & _)).
  assert (Hpr : 0 <= p < Z.of_nat (length (map_ m))) by lia.
  unfold LookupOrInsert.
  destruct (Z.eq_dec (key e0) NULL) as [Hke0|Hke0].
  - rewrite (LookupOrInsert_rec_vacant match_ uninit 1 m k h p e0 HP He0 Hke0).
    cbv zeta. cbn [occupancy_ capacity_].
    rewrite (u32_small (occupancy_ m + 1)) by lia.
    set (m1 := {| map_ := store (map_ m) p
                    {| key := k; value := NULL; hash := h;
                       order := to_int (occupancy_ m) |};
                  capacity_ := capacity_ m;
                  occupancy_ := occupancy_ m + 1 |}).
    assert (Hblk : block_ok m1).
    { unfold block_ok, m1. cbn [map_ capacity_ occupancy_].
      rewrite length_store, (count_live_store _ _ _ _ He0). simpl.
      destruct (Z.eqb_spec (key e0) NULL); [|contradiction].
      destruct (Z.eqb_spec k NULL); [contradiction|].
      repeat split; try assumption; lia. }
    destruct (needs_growth (occupancy_ m + 1) (capacity_ m)) eqn:Hg.
    + destruct (Z_lt_ge_dec (capacity_ m) (2 ^ 31)) as [Hlt31|Hge31].
      * destruct (Resize_with_wf 0 m1 Hblk Hlt31)
          as (m2 & Hr & Hwf2 & Hload2 & _).
        rewrite Hr. cbn [mbind option_bind].
        pose proof Hwf2 as (Hlen2 & Hpow2 & _).
        destruct (Probe_total match_ m2 k h Hlen2 Hpow2 (table_wf_vacant m2 Hwf2))
          as (p2 & HP2 & _).
        rewrite HP2. cbn [mbind option_bind]. split; [|eauto].
        intros m' p' [= <- <-]. auto.
      * rewrite Resize_with_overflow; [| simpl; lia | simpl; lia].
        split; [discriminate | lia].
    + split; [|eauto]. intros m' p' [= <- <-].
      assert (Hng : ~ 5 * (occupancy_ m + 1) >= 4 * capacity_ m).
      { intros Hge. apply needs_growth_spec in Hge; [congruence | lia | lia]. }
      destruct Hblk as (H1 & H2 & H3).
      split; [|unfold load_ok; simpl; lia].
      split; [exact H1 | split; [exact H2 | split; [exact H3 | simpl; lia]]].
  - rewrite (LookupOrInsert_rec_found match_ uninit 1 m k h p e0 HP He0 Hke0).
    split; [|eauto]. intros m' p' [= <- <-]. auto.
Qed.

(** On a well-formed table a nesting depth of 2, as [LookupOrInsert] has
    it, is all the calls use. *)
Lemma LookupOrInsert_rec_depth d m k h :
  table_wf m ->
  LookupOrInsert_rec match_ uninit (S (S d)) m k h =
  LookupOrInsert match_ uninit m k h.
Proof.
  intros Hwf. pose proof Hwf as (Hlen & Hpow & Hcnt & Hlt).
  pose proof (IsPowerOfTwo32_bounds _ Hpow) as Hb.
  pose proof (count_live_bounds (map_ m)) as Hcm.
  destruct (Probe_total match_ m k h Hlen Hpow (table_wf_vacant m Hwf))
    as (p & HP & (Hp & (e0 & He0 & _) & _)).
  unfold LookupOrInsert.
  destruct (Z.eq_dec (key e0) NULL) as [Hke0|Hke0].
  - rewrite !(LookupOrInsert_rec_vacant match_ uninit _ m k h p e0 HP He0 Hke0).
    cbv zeta. cbn [occupancy_ capacity_].
    rewrite (u32_small (occupancy_ m + 1)) by lia.
    destruct (needs_growth (occupancy_ m + 1) (capacity_ m)); [|reflexivity].
    match goal with
    | |- (?r1 ≫= _) = (?r2 ≫= _) => assert (Heq : r1 = r2); [|rewrite Heq; reflexivity]
    end.
    destruct (Z_lt_ge_dec (capacity_ m) (2 ^ 31)) as [Hlt31|Hge31].
    + unfold Resize_with. cbv zeta. cbn [map_ capacity_ occupancy_].
      rewrite u32_small by lia.
      replace (capacity_ m * 2) with (2 * capacity_ m) by lia.
      pose proof (IsPowerOfTwo32_double _ Hpow Hlt31) as Hpow2.
      destruct (Initialize_inv match_ uninit _ Hpow2) as (Hwf0 & _).
      destruct (Initialize_fields uninit (2 * capacity_ m) ltac:(lia))
        as (_ & Hcap0 & Hocc0 & _).
      apply rehash_depth; [exact Hwf0 | rewrite Hocc0, Hcap0; lia].
    + rewrite !Resize_with_overflow; [reflexivity | | | |];
        cbn [capacity_ occupancy_]; lia.
  - rewrite !(LookupOrInsert_rec_found match_ uninit _ m k h p e0 HP He0 Hke0).
    reflexivity.
Qed.

End SizeInvariants.

(** C4: the constructor yields, and [Lookup], [LookupOrInsert], [Remove]
    and [Clear] keep, a table whose capacity is a power of two, whose
    occupancy is below its capacity and at most [0.8] of it: so it is after
    every sequence of operations on a new table. The operations do return
    while the capacity is below [2^31]. This holds for any match
    function. *)
Theorem size_invariants_hold (match_ : Z -> Z -> bool) (uninit : Entry) :
  (forall c, IsPowerOfTwo32 c ->
     table_wf (HashMapImpl_new uninit c) /\ load_ok (HashMapImpl_new uninit c)) /\
  (forall m op m',
     table_wf m -> load_ok m -> key_ok op ->
     run match_ uninit op m = Some m' ->
     (IsPowerOfTwo32 (capacity m') /\ occupancy m' < capacity m' /\
      5 * occupancy m' <= 4 * capacity m') /\
     table_wf m' /\ load_ok m') /\
  (forall c ops m',
     IsPowerOfTwo32 c -> Forall key_ok ops ->
     run_all match_ uninit ops (HashMapImpl_new uninit c) = Some m' ->
     IsPowerOfTwo32 (capacity m') /\ occupancy m' < capacity m' /\
     5 * occupancy m' <= 4 * capacity m') /\
  (forall m op,
     table_wf m -> load_ok m -> key_ok op -> capacity m < 2 ^ 31 ->
     exists m', run match_ uninit op m = Some m').
Proof.
  assert (Hpack : forall m', table_wf m' -> load_ok m' ->
            (IsPowerOfTwo32 (capacity m') /\ occupancy m' < capacity m' /\
             5 * occupancy m' <= 4 * capacity m') /\ table_wf m' /\ load_ok m').
  { intros m' Hwf Hload. split; [|auto]. destruct Hwf as (_ & Hp & _ & Hlt).
    unfold load_ok in Hload. auto. }
  assert (Hnew : forall c, IsPowerOfTwo32 c ->
            table_wf (HashMapImpl_new uninit c) /\ load_ok (HashMapImpl_new uninit c)).
  { intros c Hpow. destruct (Initialize_inv match_ uninit c Hpow) as (H1 & H2 & _).
    auto. }
  assert (Hstep : forall m op m',
            table_wf m -> load_ok m -> key_ok op ->
            run match_ uninit op m = Some m' -> table_wf m' /\ load_ok m').
  { intros m op m' Hwf Hload Hkey Hrun. destruct op as [k h|k h|k h|]; simpl in *.
    - destruct (Lookup match_ m k h); [|discriminate].
      injection Hrun as <-. auto.
    - destruct (LookupOrInsert match_ uninit m k h) as [[m1 p]|] eqn:HL;
        [|discriminate].
      injection Hrun as <-.
      destruct (LookupOrInsert_wf match_ uninit m k h Hwf Hload Hkey) as [H _].
      apply (H m1 p HL).
    - destruct (Remove match_ m k h) as [[m1 v]|] eqn:HR; [|discriminate].
      injection Hrun as <-. pose proof Hwf as (Hlen & Hpow & _).
      destruct (Probe_total match_ m k h Hlen Hpow (table_wf_vacant m Hwf))
        as (p & HP & (_ & (e0 & He0 & _) & _)).
      destruct (Z.eq_dec (key e0) NULL) as [Hk0|Hk0].
      + unfold Remove in HR. rewrite HP in HR. simpl in HR. rewrite He0 in HR.
        simpl in HR. destruct (Z.eqb_spec (key e0) NULL); [|contradiction].
        injection HR as <- _. auto.
      + destruct (Remove_present match_ m k h p e0 Hwf HP He0 Hk0)
          as (m2 & HR2 & Hwf2 & Hcap2 & Hocc2 & _).
        rewrite HR2 in HR. injection HR as <- _.
        split; [exact Hwf2|]. unfold load_ok in *. lia.
    - injection Hrun as <-. destruct (Clear_inv match_ m Hwf) as [(H1 & H2 & _) _].
      auto. }
  split; [exact Hnew|]. split; [|split].
  - intros m op m' Hwf Hload Hkey Hrun.
    destruct (Hstep m op m' Hwf Hload Hkey Hrun). auto.
  - intros c ops m' Hpow Hkeys Hrun.
    destruct (Hnew c Hpow) as [Hwf Hload].
    revert Hrun Hwf Hload. generalize (HashMapImpl_new uninit c).
    induction Hkeys as [|op ops Hkey Hkeys IH]; intros m Hrun Hwf Hload.
    + injection Hrun as <-. apply Hpack; assumption.
    + cbn [run_all] in Hrun.
      destruct (run match_ uninit op m) as [m1|] eqn:Hop; [|discriminate].
      destruct (Hstep m op m1 Hwf Hload Hkey Hop) as [Hwf1 Hload1].
      apply (IH m1 Hrun Hwf1 Hload1).
  - intros m op Hwf Hload Hkey Hcap. destruct op as [k h|k h|k h|]; simpl in *.
    + pose proof Hwf as (Hlen & Hpow & _).
      destruct (Probe_total match_ m k h Hlen Hpow (table_wf_vacant m Hwf))
        as (p & HP & (_ & (e0 & He0 & _) & _)).
      unfold Lookup. rewrite HP. simpl. rewrite He0. simpl. eauto.
    + destruct (LookupOrInsert_wf match_ uninit m k h Hwf Hload Hkey) as [_ H].
      destruct (H Hcap) as (m' & p & ->). simpl. eauto.
    + pose proof Hwf as (Hlen & Hpow & _).
      destruct (Probe_total match_ m k h Hlen Hpow (table_wf_vacant m Hwf))
        as (p & HP & (_ & (e0 & He0 & _) & _)).
      destruct (Z.eq_dec (key e0) NULL) as [Hk0|Hk0].
      * unfold Remove. rewrite HP. simpl. rewrite He0. simpl.
        destruct (Z.eqb_spec (key e0) NULL); [|contradiction]. simpl. eauto.
      * destruct (Remove_present match_ m k h p e0 Hwf HP He0 Hk0)
          as (m2 & -> & _). simpl. eauto.
    + eauto.
Qed.

(** ** Growth *)

Section GrowthProperties.

Variable match_ : Z -> Z -> bool.
Variable uninit : Entry.
Hypothesis Hequiv : match_equiv match_.

(** The client's write of the value of a live entry. *)
Lemma set_value_inv m p e v :
  table_inv match_ m -> slot (map_ m) p = Some e -> key e <> NULL ->
  let e' := {| key := key e; value := v; hash := hash e; order := order e |} in
  exists m2,
    set_value m p v = Some m2 /\ table_inv match_ m2 /\
    capacity_ m2 = capacity_ m /\ occupancy_ m2 = occupancy_ m /\
    (forall x, present m2 x <->
       (exists s, s <> p /\ slot (map_ m) s = Some x /\ key x <> NULL) \/ x = e').
Proof.
  intros (Hwf & Hload & Hok & Hu) He Hk e'.
  pose proof Hwf as (Hlen & Hpow & Hcnt & Hlt).
  pose proof (slot_Some_range _ _ _ He) as Hpr.
  destruct (present_Lookup match_ m p e Hequiv Hwf Hok Hu He Hk) as [HP _].
  pose proof (Probe_Some_stop match_ m _ _ p Hwf HP) as Hstop.
  exists (with_map m (store (map_ m) p e')).
  split; [unfold set_value; rewrite He; reflexivity|].
  split; [|split; [reflexivity | split; [reflexivity|]]].
  - split; [|split; [exact Hload | split]].
    + unfold table_wf, with_map. cbn [map_ capacity_ occupancy_].
      rewrite length_store, (count_live_store _ _ _ _ He). simpl.
      destruct (Z.eqb_spec (key e) NULL); [contradiction|].
      repeat split; try assumption; lia.
    + apply (store_probe_ok match_ m _ (key e) (hash e) p e'); auto.
    + cbn [with_map map_].
      apply (store_keys_unique match_ _ (key e) (hash e)); auto.
      * destruct Hequiv as (_ & Hsym & _). exact Hsym.
      * intros j x Hj Hx Hkx. apply (Hu p j e x); auto.
  - intros x. unfold present. cbn [with_map map_]. split.
    + intros (s & Hs & Hkx). rewrite slot_store in Hs by exact Hpr.
      destruct (decide (p = s)); [right; congruence | left; exists s; auto].
    + intros [(s & Hsp & Hs & Hkx)| ->].
      * exists s. rewrite slot_store_ne by lia. auto.
      * exists p. rewrite slot_store_eq by exact Hpr. auto.
Qed.

Lemma insert_values_spec l :
  forall m,
    table_inv match_ m ->
    (forall khv, khv ∈ l -> khv.1.1 <> NULL) ->
    pairs_distinct match_ (map fst l) ->
    (forall khv e, khv ∈ l -> present m e ->
                   ~ matches match_ khv.1.1 khv.1.2 e) ->
    5 * (occupancy_ m + Z.of_nat (length l)) < 2 ^ 33 ->
    exists m',
      insert_values match_ uninit m l = Some m' /\
      table_inv match_ m' /\
      occupancy_ m' = occupancy_ m + Z.of_nat (length l) /\
      capacity_ m' = capacity_after (length l) (occupancy_ m) (capacity_ m) /\
      (forall x, present m x -> present m' x) /\
      (forall khv, khv ∈ l ->
         exists x, present m' x /\ key x = khv.1.1 /\ hash x = khv.1.2 /\
                   value x = khv.2).
Proof.
  induction l as [|[[k h] v] l IH]; intros m Hinv Hkeys Hdist Hfresh Hbound.
  - exists m. simpl. split; [reflexivity|]. split; [exact Hinv|].
    split; [lia|]. split; [reflexivity|]. split; [auto|].
    intros khv Hin. inversion Hin.
  - pose proof Hinv as ((_ & _ & Hcnt & _) & _).
    pose proof (count_live_bounds (map_ m)) as Hcb.
    destruct Hequiv as (Hrefl & _).
    rewrite length_cons in Hbound.
    assert (Hk : k <> NULL) by (apply (Hkeys (k, h, v)); apply elem_of_cons; auto).
    assert (Habs : forall e, present m e -> ~ matches match_ k h e)
      by (intros e; apply (Hfresh (k, h, v)); apply elem_of_cons; auto).
    destruct (LookupOrInsert_fresh match_ uninit Hequiv m k h Hinv Hk Habs)
      as (m1 & p & HL & Hinv1 & Hs1 & Hpres1 & Hocc1 & Hcap1); [lia|].
    destruct (set_value_inv m1 p _ v Hinv1 Hs1 Hk)
      as (m2 & HS & Hinv2 & Hcap2 & Hocc2 & Hpres2).
    cbn [key hash order] in Hpres2.
    assert (Hhead : forall khv, khv ∈ l ->
              ~ (khv.1.2 = h /\ match_ khv.1.1 k = true)).
    { intros khv [i Hi]%list_elem_of_lookup.
      apply (Hdist (S i) 0%nat khv.1 (k, h)); auto.
      simpl. rewrite list_lookup_fmap, Hi. reflexivity. }
    destruct (IH m2 Hinv2)
      as (m' & HI & Hinv' & Hocc' & Hcap' & Hkeep & Hall).
    { intros khv Hin. apply Hkeys. apply elem_of_cons. auto. }
    { intros i j kh1 kh2 H1 H2 Hij. apply (Hdist (S i) (S j)); auto. }
    { intros khv e Hin Hp. apply Hpres2 in Hp as [(s & _ & Hs & Hke)| ->].
      - assert (Hp1 : present m1 e) by (exists s; auto).
        apply Hpres1 in Hp1 as [Hp1| ->].
        + apply (Hfresh khv); [apply elem_of_cons; auto | exact Hp1].
        + apply (Hhead khv Hin).
      - apply (Hhead khv Hin). }
    { lia. }
    exists m'. cbn [insert_values]. rewrite HL. cbn [mbind option_bind].
    rewrite HS. cbn [mbind option_bind].
    split; [exact HI|]. split; [exact Hinv'|].
    split; [rewrite length_cons; lia|].
    split; [rewrite Hcap', Hocc2, Hcap2, Hocc1, Hcap1; reflexivity|]. split.
    + intros x Hx. apply Hkeep, Hpres2. left.
      assert (Hx1 : present m1 x) by (apply Hpres1; auto).
      destruct Hx1 as (s & Hs & Hkx). exists s. split; [|auto].
      intros ->. assert (x = {| key := k; value := NULL; hash := h;
                                order := to_int (occupancy_ m) |}) by congruence.
      subst x. apply (Habs _ Hx). split; [reflexivity | apply Hrefl].
    + intros khv [->|Hin]%elem_of_cons; [|apply Hall, Hin].
      eexists. split; [apply Hkeep, Hpres2; right; reflexivity|]. auto.
Qed.

End GrowthProperties.

Lemma pairs_distinctb_sound match_ l :
  pairs_distinctb match_ l = true -> pairs_distinct match_ l.
Proof.
  induction l as [|kh l IH]; intros H i j kh1 kh2 H1 H2 Hij.
  - destruct i; discriminate.
  - simpl in H. apply andb_true_iff in H as [Hhead Htail].
    rewrite forallb_forall in Hhead.
    destruct i as [|i], j as [|j]; simpl in H1, H2; try lia.
    + injection H1 as <-. apply list_elem_of_lookup_2, list_elem_of_In in H2.
      specialize (Hhead kh2 H2). apply andb_true_iff in Hhead as [Hh _].
      intros [Heq Hm]. rewrite Heq, Z.eqb_refl, Hm in Hh. discriminate.
    + injection H2 as <-. apply list_elem_of_lookup_2, list_elem_of_In in H1.
      specialize (Hhead kh1 H1). apply andb_true_iff in Hhead as [_ Hh].
      intros [Heq Hm]. rewrite Heq, Z.eqb_refl, Hm in Hh. discriminate.
    + apply (IH Htail i j); auto.
Qed.

(** Below capacity [2^31]: [Resize], on the table an insertion leaves,
    returns a table of twice the capacity, a power of two; each live entry of the old array is an
    entry of the new table, with its key, hash, value and order, and is
    what [Lookup] of its key and hash returns; the new table has no other
    live entry. So an insertion that triggers growth doubles the capacity
    and keeps the entries, and seven insertions of different keys, each
    followed by a write of the value, into a fresh table of capacity 8
    leave a table of capacity 16 where each key is found with its value. *)
Theorem Resize_doubles_keeps_entries (match_ : Z -> Z -> bool) (uninit : Entry) :
  match_equiv match_ ->
  (forall m,
     block_ok m -> keys_unique match_ (map_ m) -> capacity m < 2 ^ 31 ->
     exists m',
       Resize match_ uninit m = Some m' /\
       capacity m' = 2 * capacity m /\ IsPowerOfTwo32 (capacity m') /\
       occupancy m' = occupancy m /\
       (forall e, present m e ->
          exists s, slot (map_ m') s = Some e /\
                    Lookup match_ m' (key e) (hash e) = Some (Some s)) /\
       (forall e, present m' e -> present m e)) /\
  (forall m k h,
     table_inv match_ m -> k <> NULL ->
     (forall e, present m e -> ~ matches match_ k h e) ->
     needs_growth (occupancy m + 1) (capacity m) = true ->
     capacity m < 2 ^ 31 ->
     exists m' p,
       LookupOrInsert match_ uninit m k h = Some (m', p) /\
       capacity m' = 2 * capacity m /\
       (forall x, present m' x <->
          present m x \/
          x = {| key := k; value := NULL; hash := h;
                 order := to_int (occupancy m) |})) /\
  (forall l : list (Z * Z * Z),
     length l = 7%nat ->
     (forall khv, khv ∈ l -> khv.1.1 <> NULL) ->
     pairs_distinct match_ (map fst l) ->
     exists m',
       insert_values match_ uninit (HashMapImpl_new uninit 8) l = Some m' /\
       capacity m' = 16 /\
       forall k h v, (k, h, v) ∈ l ->
         exists p e, Lookup match_ m' k h = Some (Some p) /\
                     slot (map_ m') p = Some e /\ value e = v).
Proof.
  intros Hequiv. split; [|split].
  - intros m Hblk Hu Hcap.
    destruct (Resize_with_spec match_ uninit Hequiv 0 m Hblk Hu Hcap)
      as (m' & HR & (Hwf & Hload & Hok & Hu') & Hcap' & Hocc' & Hpres).
    exists m'. split; [exact HR|]. split; [exact Hcap'|].
    split; [apply Hwf|]. split; [exact Hocc'|]. split.
    + intros e He. apply Hpres in He as (s & Hs & Hk). exists s.
      split; [exact Hs|].
      apply (present_Lookup match_ m' s e); assumption.
    + intros e He. apply Hpres, He.
  - intros m k h Hinv Hk Habs Hg Hcap. unfold occupancy, capacity in *.
    pose proof Hinv as ((_ & Hpow & Hcnt & Hlt) & _).
    pose proof (IsPowerOfTwo32_bounds _ (IsPowerOfTwo32_double _ Hpow Hcap)).
    destruct (LookupOrInsert_fresh match_ uninit Hequiv m k h Hinv Hk Habs)
      as (m' & p & HL & _ & _ & Hpres & _ & Hcap'); [lia|].
    rewrite Hg in Hcap'. exists m', p. auto.
  - intros l Hlen Hkeys Hdist.
    assert (Hpow : IsPowerOfTwo32 8) by (exists 3; split; [lia | reflexivity]).
    pose proof (Initialize_inv match_ uninit 8 Hpow) as Hinv0.
    destruct (Initialize_fields uninit 8 ltac:(lia)) as (_ & Hcap0 & Hocc0 & Hnone0).
    destruct (no_live_inv match_ _ Hnone0) as (_ & _ & _ & Hnp0).
    destruct (insert_values_spec match_ uninit Hequiv l (Initialize uninit 8)
                Hinv0 Hkeys Hdist)
      as (m' & HI & (Hwf & Hload & Hok & Hu) & Hocc & Hcap & _ & Hall).
    { intros khv e _ Hp. exfalso. apply (Hnp0 e Hp). }
    { rewrite Hocc0, Hlen. reflexivity. }
    exists m'. split; [exact HI|]. split.
    + unfold capacity. rewrite Hcap, Hlen, Hocc0, Hcap0. reflexivity.
    + intros k h v Hin.
      destruct (Hall (k, h, v) Hin) as (x & (s & Hs & Hkx) & Hk & Hh & Hv).
      simpl in Hk, Hh, Hv. exists s, x.
      destruct (present_Lookup match_ m' s x Hequiv Hwf Hok Hu Hs Hkx) as [_ HL].
      rewrite Hk, Hh in HL. auto.
Qed.

(** ** The invariants of reachable tables *)

(** With an equality predicate for match function, all the invariants,
    reachability and uniqueness of the keys included, hold of a new table
    and are kept by the operations: they hold of every table the interface
    leads to. *)
Lemma table_inv_preserved match_ uninit op m m' :
  match_equiv match_ -> table_inv match_ m -> key_ok op ->
  run match_ uninit op m = Some m' -> table_inv match_ m'.
Proof.
  intros Hequiv Hinv Hkey Hrun. pose proof Hinv as (Hwf & Hload & Hok & Hu).
  destruct op as [k h|k h|k h|]; simpl in Hrun, Hkey.
  - destruct (Lookup match_ m k h); [|discriminate]. injection Hrun as <-. exact Hinv.
  - destruct (LookupOrInsert_cases match_ uninit Hequiv m k h Hinv Hkey)
      as [(s & e & _ & _ & _ & HL)|[(_ & _ & _ & HL)|(_ & m1 & p & HL & Hinv1 & _)]];
      rewrite HL in Hrun; simpl in Hrun; [|discriminate|];
      injection Hrun as <-; assumption.
  - pose proof Hwf as (Hlen & Hpow & _).
    destruct (Probe_total match_ m k h Hlen Hpow (table_wf_vacant m Hwf))
      as (p & HP & (_ & (e0 & He0 & _) & _)).
    destruct (Z.eq_dec (key e0) NULL) as [Hk0|Hk0].
    + unfold Remove in Hrun. rewrite HP in Hrun. simpl in Hrun.
      rewrite He0 in Hrun. simpl in Hrun.
      destruct (Z.eqb_spec (key e0) NULL); [|contradiction].
      injection Hrun as <-. exact Hinv.
    + destruct (Remove_present match_ m k h p e0 Hwf HP He0 Hk0)
        as (m2 & HR & Hwf2 & Hcap2 & Hocc2 & Hok2 & Hu2 & _).
      rewrite HR in Hrun. injection Hrun as <-.
      split; [exact Hwf2 | split; [|split; auto]].
      unfold load_ok in *. lia.
  - injection Hrun as <-. apply (Clear_inv match_ m Hwf).
Qed.

Lemma reachable_table_inv match_ uninit c ops m :
  match_equiv match_ -> IsPowerOfTwo32 c -> Forall key_ok ops ->
  run_all match_ uninit ops (HashMapImpl_new uninit c) = Some m ->
  table_inv match_ m.
Proof.
  intros Hequiv Hpow Hkeys.
  pose proof (Initialize_inv match_ uninit c Hpow) as Hinv.
  unfold HashMapImpl_new. revert Hinv. generalize (Initialize uninit c).
  induction Hkeys as [|op ops Hkey Hkeys IH]; intros m0 Hinv Hrun.
  - injection Hrun as <-. exact Hinv.
  - cbn [run_all] in Hrun.
    destruct (run match_ uninit op m0) as [m1|] eqn:Hop; [|discriminate].
    apply (IH m1); [|exact Hrun].
    apply (table_inv_preserved match_ uninit op m0 m1); assumption.
Qed.

(** The scenario of three keys that collide on slot [0] of a table of
    capacity 8: each is found; once the middle one is removed the other two
    are found and the iteration visits just them. *)
Example colliding_keys_scenario :
  Lookup PointersMatch table_ABC 1 0 = Some (Some 0) /\
  Lookup PointersMatch table_ABC 2 8 = Some (Some 1) /\
  Lookup PointersMatch table_ABC 3 16 = Some (Some 2) /\
  exists m',
    Remove PointersMatch table_ABC 2 8 = Some (m', NULL) /\
    Lookup PointersMatch m' 1 0 = Some (Some 0) /\
    Lookup PointersMatch m' 3 16 = Some (Some 1) /\
    Lookup PointersMatch m' 2 8 = Some None /\
    occupancy m' = 2 /\
    iterate m' = Some [0; 1].
Proof. repeat split. eexists. repeat split. Qed.

(** ** Concrete tables *)

Lemma Lookup_None_absent match_ m k h :
  table_wf m -> probe_ok m -> Lookup match_ m k h = Some None ->
  forall e, present m e -> ~ matches match_ k h e.
Proof.
  intros Hwf Hok HL. unfold Lookup in HL.
  destruct (Probe match_ m k h) as [p|] eqn:HP; [|discriminate]. simpl in HL.
  destruct (slot (map_ m) p) as [e0|] eqn:He0; [|discriminate]. simpl in HL.
  destruct (Z.eqb_spec (key e0) NULL) as [Hk0|]; [|discriminate].
  apply (probe_stop_vacant_absent match_ m k h p Hwf Hok).
  - apply Probe_Some_stop; assumption.
  - exists e0. auto.
Qed.

Lemma table_ABC_is_built :
  insert_all PointersMatch junk (HashMapImpl_new junk 8) [(1, 0); (2, 8); (3, 16)]
  = Some table_ABC.
Proof. reflexivity. Qed.

Lemma table_six_is_built :
  insert_all PointersMatch junk (HashMapImpl_new junk 8)
    (take 6 (map fst seven_keys)) = Some table_six.
Proof. reflexivity. Qed.

Lemma Remove_keeps_others_reachable_witness :
  exists m' v,
    Remove PointersMatch table_ABC 2 8 = Some (m', v) /\
    table_inv PointersMatch m' /\
    Lookup PointersMatch m' 2 8 = Some None /\
    forall s e, s <> 1 -> slot (map_ table_ABC) s = Some e -> key e <> NULL ->
      exists s',
        slot (map_ m') s' = Some e /\
        reachable (map_ m') (capacity_ m') s' e /\
        Lookup PointersMatch m' (key e) (hash e) = Some (Some s').
Proof.
  apply (Remove_keeps_others_reachable PointersMatch PointersMatch_equiv
           table_ABC 2 8 1).
  - apply table_invb_sound. reflexivity.
  - reflexivity.
Defined.

Lemma inserted_keys_found_witness :
  exists m,
    insert_all PointersMatch junk (HashMapImpl_new junk 8)
      [(1, 0); (2, 8); (3, 16)] = Some m /\
    occupancy m = 3 /\
    forall k h, (k, h) ∈ [(1, 0); (2, 8); (3, 16)] ->
      exists p e, Lookup PointersMatch m k h = Some (Some p) /\
                  slot (map_ m) p = Some e /\ key e = k /\ hash e = h.
Proof.
  apply (inserted_keys_found PointersMatch junk PointersMatch_equiv 8
           [(1, 0); (2, 8); (3, 16)]).
  - exists 3. split; [lia | reflexivity].
  - apply Forall_forall. repeat constructor; discriminate.
  - apply pairs_distinctb_sound. reflexivity.
  - simpl. lia.
Defined.

Lemma size_invariants_hold_witness :
  exists m',
    run PointersMatch junk (OpLookupOrInsert 4 3) table_ABC = Some m' /\
    (IsPowerOfTwo32 (capacity m') /\ occupancy m' < capacity m' /\
     5 * occupancy m' <= 4 * capacity m') /\
    table_wf m' /\ load_ok m'.
Proof.
  destruct (size_invariants_hold PointersMatch junk) as (_ & Hkeep & _ & Hret).
  assert (Hwf : table_wf table_ABC) by (apply table_wfb_sound; reflexivity).
  assert (Hload : load_ok table_ABC) by (unfold load_ok; simpl; lia).
  assert (Hkey : key_ok (OpLookupOrInsert 4 3)) by discriminate.
  destruct (Hret table_ABC (OpLookupOrInsert 4 3) Hwf Hload Hkey) as [m' Hm'].
  - simpl. lia.
  - exists m'. split; [exact Hm'|].
    apply (Hkeep table_ABC (OpLookupOrInsert 4 3) m' Hwf Hload Hkey Hm').
Defined.

Lemma Resize_doubles_keeps_entries_witness :
  exists m',
    insert_values PointersMatch junk (HashMapImpl_new junk 8) seven_keys = Some m' /\
    capacity m' = 16 /\
    forall k h v, (k, h, v) ∈ seven_keys ->
      exists p e, Lookup PointersMatch m' k h = Some (Some p) /\
                  slot (map_ m') p = Some e /\ value e = v.
Proof.
  apply (proj2 (proj2 (Resize_doubles_keeps_entries PointersMatch junk
                         PointersMatch_equiv)) seven_keys).
  - reflexivity.
  - apply Forall_forall. repeat constructor; discriminate.
  - apply pairs_distinctb_sound. reflexivity.
Defined.

Lemma iterate_visits_live_slots_witness :
  exists visited,
    iterate table_ABC = Some visited /\
    (forall p, p ∈ visited <-> live (map_ table_ABC) p) /\
    NoDup visited /\
    StronglySorted Z.lt visited /\
    (count_live (map_ table_ABC) = 0 -> Start table_ABC = Some None).
Proof. apply (iterate_visits_live_slots table_ABC). reflexivity. Defined.


Lemma Remove_absent_unchanged_witness :
  Remove PointersMatch table_ABC 4 3 = Some (table_ABC, NULL).
Proof.
  apply (Remove_absent_unchanged PointersMatch table_ABC 4 3).
  - apply table_wfb_sound. reflexivity.
  - apply Lookup_None_absent.
    + apply table_wfb_sound. reflexivity.
    + apply probe_okb_sound. reflexivity.
    + reflexivity.
Defined.

Lemma Remove_NULL_twofold_witness :
  (Lookup PointersMatch table_ABC 2 8 = Some None ->
   Remove PointersMatch table_ABC 2 8 = Some (table_ABC, NULL)) /\
  (forall p0 e0,
     Lookup PointersMatch table_ABC 2 8 = Some (Some p0) ->
     slot (map_ table_ABC) p0 = Some e0 -> value e0 = NULL ->
     exists m',
       Remove PointersMatch table_ABC 2 8 = Some (m', NULL) /\
       occupancy m' = occupancy table_ABC - 1 /\
       m' <> table_ABC /\
       Lookup PointersMatch m' 2 8 = Some None).
Proof.
  apply (Remove_NULL_twofold PointersMatch PointersMatch_equiv table_ABC 2 8).
  apply table_invb_sound. reflexivity.
Defined.

(** ** Further properties of the operations *)

Lemma Lookup_None_Remove match_ m k h :
  Lookup match_ m k h = Some None -> Remove match_ m k h = Some (m, NULL).
Proof.
  unfold Lookup, Remove.
  destruct (Probe match_ m k h) as [s|]; [|discriminate]. simpl.
  destruct (slot (map_ m) s) as [e|]; [|discriminate]. simpl.
  destruct (Z.eqb_spec (key e) NULL); [reflexivity | discriminate].
Qed.

Lemma iterate_live_slots m :
  Z.of_nat (length (map_ m)) = capacity_ m -> iterate m = Some (live_slots m).
Proof.
  intros Hlen. unfold iterate, Start. rewrite Next_spec by lia. simpl.
  change (live_from (drop (Z.to_nat (-1 + 1)) (map_ m)) (-1 + 1))
    with (live_slots m).
  destruct (head (live_slots m)) as [p|] eqn:Hh.
  - destruct (live_from_head _ _ _ Hh) as (i & Hp & Hi & Heq).
    rewrite iterate_from_spec by lia.
    unfold live_slots. rewrite Heq. do 4 f_equal. lia.
  - unfold live_slots in *.
    destruct (live_from (map_ m) 0); [|discriminate].
    destruct (length (map_ m)); reflexivity.
Qed.

Lemma length_live_from t a : Z.of_nat (length (live_from t a)) = count_live t.
Proof.
  revert a. induction t as [|e t IH]; intros a; simpl; [reflexivity|].
  destruct (key e =? NULL); [rewrite IH; lia|].
  rewrite length_cons, Nat2Z.inj_succ, IH. lia.
Qed.

Lemma clear_keys_lookup_eq n (t : list Entry) (i : nat) e :
  (length t <= n)%nat -> t !! i = Some e ->
  clear_keys n t !! i = Some (clear_key e).
Proof.
  revert t i. induction n as [|n IH]; intros [|a t] i Hn H; simpl in *;
    try discriminate; try lia.
  destruct i as [|i]; simpl in *.
  - injection H as <-. reflexivity.
  - apply IH; [lia | exact H].
Qed.

(** X1: a table new from the constructor, of a capacity that is a power of
    two, has that capacity and no entry: [occupancy()] is [0], [Lookup] and
    [Remove] of any key return [NULL], [Remove] leaving the table as it is,
    and the iteration visits nothing. *)
Theorem new_table_is_empty (match_ : Z -> Z -> bool) (uninit : Entry) (c : Z) :
  IsPowerOfTwo32 c ->
  capacity (HashMapImpl_new uninit c) = c /\
  occupancy (HashMapImpl_new uninit c) = 0 /\
  (forall k h, Lookup match_ (HashMapImpl_new uninit c) k h = Some None) /\
  (forall k h, Remove match_ (HashMapImpl_new uninit c) k h
               = Some (HashMapImpl_new uninit c, NULL)) /\
  Start (HashMapImpl_new uninit c) = Some None /\
  iterate (HashMapImpl_new uninit c) = Some [].
Proof.
  intros Hpow. pose proof (IsPowerOfTwo32_bounds _ Hpow) as Hb.
  unfold HashMapImpl_new, capacity, occupancy.
  destruct (Initialize_inv match_ uninit c Hpow) as (Hwf & _).
  destruct (Initialize_fields uninit c ltac:(lia)) as (Hlen & Hcap & Hocc & Hnone).
  destruct (no_live_inv match_ _ Hnone) as (Hcnt & _ & _ & Hnp).
  assert (HL : forall k h, Lookup match_ (Initialize uninit c) k h = Some None).
  { intros k h. apply absent_Lookup; [exact Hwf|].
    intros e He. exfalso. apply (Hnp e He). }
  assert (Hit : iterate (Initialize uninit c) = Some []).
  { rewrite iterate_live_slots by lia. unfold live_slots.
    rewrite live_from_nil by exact Hcnt. reflexivity. }
  repeat split; try assumption.
  - intros k h. apply Lookup_None_Remove, HL.
  - unfold Start. rewrite Next_spec by lia.
    change (live_from (drop (Z.to_nat (-1 + 1)) (map_ (Initialize uninit c)))
              (-1 + 1)) with (live_slots (Initialize uninit c)).
    unfold live_slots. rewrite live_from_nil by exact Hcnt. reflexivity.
Qed.

Lemma new_table_is_empty_witness :
  capacity (HashMapImpl_new junk 8) = 8 /\
  occupancy (HashMapImpl_new junk 8) = 0 /\
  (forall k h, Lookup PointersMatch (HashMapImpl_new junk 8) k h = Some None) /\
  (forall k h, Remove PointersMatch (HashMapImpl_new junk 8) k h
               = Some (HashMapImpl_new junk 8, NULL)) /\
  Start (HashMapImpl_new junk 8) = Some None /\
  iterate (HashMapImpl_new junk 8) = Some [].
Proof.
  apply (new_table_is_empty PointersMatch junk 8).
  exists 3. split; [lia | reflexivity].
Defined.

(** X2: [Clear] on a well-formed table keeps the capacity, sets the
    occupancy to [0] and resets the key of every slot and nothing else of
    it; afterwards [Lookup] of any key returns [NULL], the iteration visits
    nothing and the invariants hold. *)
Theorem Clear_empties (match_ : Z -> Z -> bool) (m : HashMapImpl) :
  table_wf m ->
  capacity (Clear m) = capacity m /\
  occupancy (Clear m) = 0 /\
  (forall p e, slot (map_ m) p = Some e ->
               slot (map_ (Clear m)) p = Some (clear_key e)) /\
  (forall k h, Lookup match_ (Clear m) k h = Some None) /\
  iterate (Clear m) = Some [] /\
  table_inv match_ (Clear m).
Proof.
  intros Hwf. pose proof Hwf as (Hlen & Hpow & _).
  destruct (Clear_inv match_ m Hwf) as [Hinv Hnp].
  pose proof Hinv as (Hwf' & _). pose proof Hwf' as (Hlen' & _ & Hcnt' & _).
  split; [reflexivity|]. split; [reflexivity|]. split; [|split; [|split]].
  - intros p e Hs. destruct (slot_lookup _ _ _ Hs) as [Hl Hp].
    unfold slot. destruct (Z.ltb_spec p 0); [lia|]. cbn [Clear map_].
    apply clear_keys_lookup_eq; [lia | exact Hl].
  - intros k h. apply absent_Lookup; [exact Hwf'|].
    intros e He. exfalso. apply (Hnp e He).
  - rewrite iterate_live_slots by exact Hlen'. unfold live_slots.
    rewrite live_from_nil; [reflexivity|]. rewrite <- Hcnt'. reflexivity.
  - exact Hinv.
Qed.

Lemma Clear_empties_witness :
  capacity (Clear table_ABC) = capacity table_ABC /\
  occupancy (Clear table_ABC) = 0 /\
  (forall p e, slot (map_ table_ABC) p = Some e ->
               slot (map_ (Clear table_ABC)) p = Some (clear_key e)) /\
  (forall k h, Lookup PointersMatch (Clear table_ABC) k h = Some None) /\
  iterate (Clear table_ABC) = Some [] /\
  table_inv PointersMatch (Clear table_ABC).
Proof.
  apply (Clear_empties PointersMatch table_ABC).
  apply table_wfb_sound. reflexivity.
Defined.

(** X3: on a well-formed table, for any match function, [Lookup] returns;
    an entry it returns lies in the array, is live, has the hash asked for
    and a key that the match function accepts. *)
Theorem Lookup_sound (match_ : Z -> Z -> bool) (m : HashMapImpl) (k h : Z) :
  table_wf m ->
  exists r,
    Lookup match_ m k h = Some r /\
    forall p, r = Some p ->
      0 <= p < capacity m /\
      exists e, slot (map_ m) p = Some e /\ key e <> NULL /\
                hash e = h /\ match_ k (key e) = true.
Proof.
  intros Hwf. pose proof Hwf as (Hlen & Hpow & _).
  destruct (Probe_total match_ m k h Hlen Hpow (table_wf_vacant m Hwf))
    as (s & HP & (Hs & (e & He & Hstop) & _)).
  unfold Lookup. rewrite HP. simpl. rewrite He. simpl.
  eexists. split; [reflexivity|]. intros p Hp.
  destruct (Z.eqb_spec (key e) NULL) as [|Hk]; [discriminate|].
  injection Hp as <-. split; [exact Hs|]. exists e.
  apply keeps_probing_false in Hstop.
  destruct Hstop as [|[Hh Hm]]; [contradiction|]. auto.
Qed.

Lemma Lookup_sound_witness :
  exists r,
    Lookup PointersMatch table_ABC 3 16 = Some r /\
    forall p, r = Some p ->
      0 <= p < capacity table_ABC /\
      exists e, slot (map_ table_ABC) p = Some e /\ key e <> NULL /\
                hash e = 16 /\ PointersMatch 3 (key e) = true.
Proof.
  apply (Lookup_sound PointersMatch table_ABC 3 16).
  apply table_wfb_sound. reflexivity.
Defined.

(** X4: on a table that satisfies the invariants, with an equality
    predicate for match function, [Lookup] returns slot [p] exactly when
    slot [p] holds a live entry that matches the key and the hash, and
    returns [NULL] exactly when no live entry does. *)
Theorem Lookup_iff_present (match_ : Z -> Z -> bool) (m : HashMapImpl) (k h : Z) :
  match_equiv match_ -> table_inv match_ m ->
  (forall p, Lookup match_ m k h = Some (Some p) <->
             exists e, slot (map_ m) p = Some e /\ key e <> NULL /\
                       matches match_ k h e) /\
  (Lookup match_ m k h = Some None <->
   forall e, present m e -> ~ matches match_ k h e).
Proof.
  intros Hequiv (Hwf & Hload & Hok & Hu). split.
  - intros p. split.
    + intros HL. destruct (Lookup_Some_inv match_ m k h p HL) as [_ (e & He & Hk)].
      exists e. split; [exact He|].
      apply (Lookup_present_matches match_ m k h p e Hwf HL He).
    + intros (e & He & Hk & Hm).
      pose proof (Probe_matching match_ Hequiv m p e k h Hwf Hok Hu He Hk Hm) as HP.
      unfold Lookup. rewrite HP. simpl. rewrite He. simpl.
      destruct (Z.eqb_spec (key e) NULL); [contradiction | reflexivity].
  - split.
    + apply Lookup_None_absent; assumption.
    + apply absent_Lookup, Hwf.
Qed.

Lemma Lookup_iff_present_witness :
  (forall p, Lookup PointersMatch table_ABC 2 8 = Some (Some p) <->
             exists e, slot (map_ table_ABC) p = Some e /\ key e <> NULL /\
                       matches PointersMatch 2 8 e) /\
  (Lookup PointersMatch table_ABC 2 8 = Some None <->
   forall e, present table_ABC e -> ~ matches PointersMatch 2 8 e).
Proof.
  apply (Lookup_iff_present PointersMatch table_ABC 2 8 PointersMatch_equiv).
  apply table_invb_sound. reflexivity.
Defined.

Lemma Lookup_iff_present_aux match_ :
  match_equiv match_ ->
  forall m k h, table_inv match_ m ->
  forall p, (exists e, slot (map_ m) p = Some e /\ key e <> NULL /\
                       matches match_ k h e) ->
            Lookup match_ m k h = Some (Some p).
Proof.
  intros Hequiv m k h (Hwf & Hload & Hok & Hu) p (e & He & Hk & Hm).
  pose proof (Probe_matching match_ Hequiv m p e k h Hwf Hok Hu He Hk Hm) as HP.
  unfold Lookup. rewrite HP. simpl. rewrite He. simpl.
  destruct (Z.eqb_spec (key e) NULL); [contradiction | reflexivity].
Qed.

(** X5: on a table that satisfies the invariants, [LookupOrInsert] agrees
    with [Lookup]: of a key that [Lookup] finds it returns the same entry
    and the table as it is, and whatever entry it returns, [Lookup] on the
    table it leaves returns that entry. *)
Theorem LookupOrInsert_then_Lookup (match_ : Z -> Z -> bool) (uninit : Entry)
    (m : HashMapImpl) (k h : Z) :
  match_equiv match_ -> table_inv match_ m -> k <> NULL ->
  (forall p, Lookup match_ m k h = Some (Some p) ->
             LookupOrInsert match_ uninit m k h = Some (m, p)) /\
  (forall m1 p, LookupOrInsert match_ uninit m k h = Some (m1, p) ->
                table_inv match_ m1 /\
                Lookup match_ m1 k h = Some (Some p)).
Proof.
  intros Hequiv Hinv Hk. pose proof Hequiv as (Hrefl & _).
  assert (Hfound : forall m0 s e, table_inv match_ m0 ->
            slot (map_ m0) s = Some e -> key e <> NULL -> matches match_ k h e ->
            Lookup match_ m0 k h = Some (Some s)).
  { intros m0 s e Hinv0 He Hke Hm.
    apply (Lookup_iff_present_aux match_ Hequiv m0 k h Hinv0 s). eauto. }
  split.
  - intros p HL. destruct (Lookup_Some_inv match_ m k h p HL) as [HP (e & He & Hke)].
    apply (LookupOrInsert_rec_found match_ uninit 1 m k h p e); assumption.
  - intros m1 p HL.
    destruct (LookupOrInsert_cases match_ uninit Hequiv m k h Hinv Hk)
      as [(s & e & Hs & Hke & Hm & HL')
         |[(_ & _ & _ & HL')|(_ & m' & p' & HL' & Hinv' & Hs' & _)]];
      rewrite HL' in HL; [|discriminate|]; injection HL as <- <-.
    + split; [exact Hinv|]. apply (Hfound m s e); assumption.
    + split; [exact Hinv'|]. apply (Hfound m' p' _ Hinv' Hs'); [exact Hk|].
      split; [reflexivity | apply Hrefl].
Qed.

Lemma LookupOrInsert_then_Lookup_witness :
  (forall p, Lookup PointersMatch table_ABC 4 3 = Some (Some p) ->
             LookupOrInsert PointersMatch junk table_ABC 4 3 = Some (table_ABC, p)) /\
  (forall m1 p, LookupOrInsert PointersMatch junk table_ABC 4 3 = Some (m1, p) ->
                table_inv PointersMatch m1 /\
                Lookup PointersMatch m1 4 3 = Some (Some p)).
Proof.
  apply (LookupOrInsert_then_Lookup PointersMatch junk table_ABC 4 3
           PointersMatch_equiv).
  - apply table_invb_sound. reflexivity.
  - discriminate.
Defined.

(** What a call of [LookupOrInsert] that returns leaves of the entries. *)
Lemma LookupOrInsert_result_entries (match_ : Z -> Z -> bool) (uninit : Entry)
    (m m1 : HashMapImpl) (k h p : Z) :
  match_equiv match_ -> table_inv match_ m -> k <> NULL ->
  LookupOrInsert match_ uninit m k h = Some (m1, p) ->
  (forall e, present m e ->
     exists s, slot (map_ m1) s = Some e /\
               Lookup match_ m1 (key e) (hash e) = Some (Some s)) /\
  (Lookup match_ m k h = Some None ->
     occupancy m1 = occupancy m + 1 /\
     slot (map_ m1) p = Some {| key := k; value := NULL; hash := h;
                                order := to_int (occupancy m) |} /\
     forall x, present m1 x ->
       present m x \/ x = {| key := k; value := NULL; hash := h;
                             order := to_int (occupancy m) |}) /\
  (forall p0, Lookup match_ m k h = Some (Some p0) -> m1 = m /\ p = p0).
Proof.
  intros Hequiv Hinv Hk HL.
  assert (Hkeep : forall m0, table_inv match_ m0 ->
            forall e, present m0 e ->
            exists s, slot (map_ m0) s = Some e /\
                      Lookup match_ m0 (key e) (hash e) = Some (Some s)).
  { intros m0 (Hwf0 & _ & Hok0 & Hu0) e (s & Hs & Hke). exists s.
    split; [exact Hs|].
    apply (present_Lookup match_ m0 s e Hequiv Hwf0 Hok0 Hu0 Hs Hke). }
  destruct (LookupOrInsert_cases match_ uninit Hequiv m k h Hinv Hk)
    as [(s & e & Hs & Hke & Hm & HL')
       |[(_ & _ & _ & HL')
        |(Habs & m' & p' & HL' & Hinv' & Hs' & Hpres & Hocc & _)]];
    rewrite HL' in HL; [|discriminate|]; injection HL as <- <-.
  - assert (HLk : Lookup match_ m k h = Some (Some s))
      by (apply (Lookup_iff_present_aux match_ Hequiv m k h Hinv s); eauto).
    split; [apply Hkeep, Hinv|]. split.
    + intros Hnone. congruence.
    + intros p0 Hp0. split; [reflexivity | congruence].
  - assert (HLk : Lookup match_ m k h = Some None)
      by (apply absent_Lookup; [apply Hinv | exact Habs]).
    split; [|split].
    + intros e He. apply (Hkeep m' Hinv'), Hpres. auto.
    + intros _. split; [exact Hocc|]. split; [exact Hs'|].
      intros x Hx. apply Hpres, Hx.
    + intros p0 Hp0. congruence.
Qed.

(** X6: on a table of capacity below [2^31], [LookupOrInsert] returns and
    leaves the entries of the table alone, growth or not: each live entry
    is afterwards stored with the same key, value, hash and order and is
    what [Lookup] of its key and hash returns. For a key that [Lookup] did
    not find the occupancy is one more and the entry returned is new, with
    the key, the hash, the value [NULL] and the former occupancy as order,
    the only entry added; for a key that [Lookup] found the table is the
    same. *)
Theorem LookupOrInsert_keeps_entries (match_ : Z -> Z -> bool) (uninit : Entry)
    (m : HashMapImpl) (k h : Z) :
  match_equiv match_ -> table_inv match_ m -> k <> NULL ->
  capacity m < 2 ^ 31 ->
  exists m1 p,
    LookupOrInsert match_ uninit m k h = Some (m1, p) /\
    (forall e, present m e ->
       exists s, slot (map_ m1) s = Some e /\
                 Lookup match_ m1 (key e) (hash e) = Some (Some s)) /\
    (Lookup match_ m k h = Some None ->
       occupancy m1 = occupancy m + 1 /\
       slot (map_ m1) p = Some {| key := k; value := NULL; hash := h;
                                  order := to_int (occupancy m) |} /\
       forall x, present m1 x ->
         present m x \/ x = {| key := k; value := NULL; hash := h;
                               order := to_int (occupancy m) |}) /\
    (forall p0, Lookup match_ m k h = Some (Some p0) -> m1 = m /\ p = p0).
Proof.
  intros Hequiv Hinv Hk Hcap. pose proof Hinv as (Hwf & Hload & _).
  destruct (LookupOrInsert_wf match_ uninit m k h Hwf Hload Hk) as [_ Hret].
  destruct (Hret Hcap) as (m1 & p & HL).
  exists m1, p. split; [exact HL|].
  apply (LookupOrInsert_result_entries match_ uninit m m1 k h p Hequiv Hinv Hk HL).
Qed.

Lemma LookupOrInsert_keeps_entries_witness :
  needs_growth (occupancy table_six + 1) (capacity table_six) = true /\
  exists m1 p, LookupOrInsert PointersMatch junk table_six 17 23 = Some (m1, p) /\
    (forall e, present table_six e ->
       exists s, slot (map_ m1) s = Some e /\
                 Lookup PointersMatch m1 (key e) (hash e) = Some (Some s)) /\
    (Lookup PointersMatch table_six 17 23 = Some None ->
       occupancy m1 = occupancy table_six + 1 /\
       slot (map_ m1) p = Some {| key := 17; value := NULL; hash := 23;
                                  order := to_int (occupancy table_six) |} /\
       forall x, present m1 x ->
         present table_six x \/
         x = {| key := 17; value := NULL; hash := 23;
                order := to_int (occupancy table_six) |}) /\
    (forall p0, Lookup PointersMatch table_six 17 23 = Some (Some p0) ->
                m1 = table_six /\ p = p0).
Proof.
  split; [reflexivity|].
  apply (LookupOrInsert_keeps_entries PointersMatch junk table_six 17 23
           PointersMatch_equiv).
  - apply table_invb_sound. reflexivity.
  - discriminate.
  - simpl. lia.
Defined.

(** X7: on a well-formed table, for any match function, [Remove] of a key
    that [Lookup] finds returns the value stored in that entry, keeps the
    capacity, takes one off the occupancy and leaves a well-formed
    table. *)
Theorem Remove_returns_value (match_ : Z -> Z -> bool) (m : HashMapImpl)
    (k h p : Z) (e : Entry) :
  table_wf m ->
  Lookup match_ m k h = Some (Some p) -> slot (map_ m) p = Some e ->
  exists m',
    Remove match_ m k h = Some (m', value e) /\
    capacity m' = capacity m /\
    occupancy m' = occupancy m - 1 /\
    table_wf m'.
Proof.
  intros Hwf HL He.
  destruct (Lookup_Some_inv match_ m k h p HL) as [HP (e' & He' & Hk)].
  assert (e' = e) by congruence. subst e'.
  destruct (Remove_present match_ m k h p e Hwf HP He Hk)
    as (m' & HR & Hwf' & Hcap & Hocc & _).
  exists m'. auto.
Qed.

Lemma Remove_returns_value_witness :
  exists m',
    Remove PointersMatch
      (with_map table_ABC (store (map_ table_ABC) 1 (mkEntry 2 77 8 1))) 2 8
    = Some (m', value (mkEntry 2 77 8 1)) /\
    capacity m' = 8 /\ occupancy m' = 3 - 1 /\ table_wf m'.
Proof.
  apply (Remove_returns_value PointersMatch
           (with_map table_ABC (store (map_ table_ABC) 1 (mkEntry 2 77 8 1)))
           2 8 1 (mkEntry 2 77 8 1)).
  - apply table_wfb_sound. reflexivity.
  - reflexivity.
  - reflexivity.
Defined.

(** X8: on a table of occupancy below [1717986918], so that the insertion
    does not have to grow a table of capacity [2^31]
    ([5 * (occupancy + 1) < 2^33]), the value a client writes into the entry
    [LookupOrInsert] returns for a new key is the value [Remove] of that key
    returns; the table is then back to the entries and the occupancy it had,
    it satisfies the invariants and [Lookup] of the key returns [NULL]. The
    capacity may have grown. *)
Theorem insert_write_remove (match_ : Z -> Z -> bool) (uninit : Entry)
    (m : HashMapImpl) (k h v : Z) :
  match_equiv match_ -> table_inv match_ m -> k <> NULL ->
  Lookup match_ m k h = Some None ->
  5 * (occupancy m + 1) < 2 ^ 33 ->
  exists m1 p m2 m3,
    LookupOrInsert match_ uninit m k h = Some (m1, p) /\
    set_value m1 p v = Some m2 /\
    Remove match_ m2 k h = Some (m3, v) /\
    occupancy m3 = occupancy m /\
    (forall x, present m3 x <-> present m x) /\
    Lookup match_ m3 k h = Some None /\
    table_inv match_ m3.
Proof.
  intros Hequiv Hinv Hk HL Hbound. pose proof Hequiv as (Hrefl & _).
  pose proof Hinv as (Hwf & _ & Hok & _).
  pose proof (Lookup_None_absent match_ m k h Hwf Hok HL) as Habs.
  destruct (LookupOrInsert_fresh match_ uninit Hequiv m k h Hinv Hk Habs Hbound)
    as (m1 & p & HL1 & Hinv1 & Hs1 & Hpres1 & Hocc1 & _).
  destruct (set_value_inv match_ Hequiv m1 p _ v Hinv1 Hs1 Hk)
    as (m2 & HS & Hinv2 & Hcap2 & Hocc2 & Hpres2).
  cbn [key hash order] in Hpres2.
  set (enew := {| key := k; value := NULL; hash := h;
                  order := to_int (occupancy_ m) |}) in *.
  set (e' := {| key := k; value := v; hash := h;
                order := to_int (occupancy_ m) |}) in *.
  assert (Hm' : matches match_ k h e') by (split; [reflexivity | apply Hrefl]).
  assert (Hmn : matches match_ k h enew) by (split; [reflexivity | apply Hrefl]).
  assert (Hin : present m2 e') by (apply Hpres2; auto).
  destruct Hin as (s & Hs & Hks).
  pose proof Hinv1 as (_ & _ & _ & Hu1).
  pose proof Hinv2 as (Hwf2 & Hload2 & Hok2 & Hu2).
  pose proof (Probe_matching match_ Hequiv m2 s e' k h Hwf2 Hok2 Hu2 Hs Hks Hm')
    as HP2.
  destruct (Remove_present match_ m2 k h s e' Hwf2 HP2 Hs Hks)
    as (m3 & HR & Hwf3 & Hcap3 & Hocc3 & Hok3 & Hu3 & Hpres3).
  assert (Hsame : forall x, present m3 x <-> present m x).
  { intros x. split.
    - intros Hx. apply Hpres3 in Hx as (s' & Hs's & Hs' & Hkx).
      assert (Hx2 : present m2 x) by (exists s'; auto).
      apply Hpres2 in Hx2 as [(s1 & Hs1p & Hx1 & _)| ->].
      + assert (Hx1' : present m1 x) by (exists s1; auto).
        apply Hpres1 in Hx1' as [Hxm| ->]; [exact Hxm|].
        exfalso. apply (Hu1 p s1 enew enew); auto.
      + exfalso. apply (Hu2 s s' e' e'); auto.
    - intros Hx. apply Hpres3.
      assert (Hx1 : present m1 x) by (apply Hpres1; auto).
      destruct Hx1 as (s1 & Hx1 & Hkx).
      assert (Hs1p : s1 <> p).
      { intros ->. assert (x = enew) by congruence. subst x.
        apply (Habs enew Hx Hmn). }
      assert (Hx2 : present m2 x) by (apply Hpres2; left; exists s1; auto).
      destruct Hx2 as (s2 & Hx2 & _). exists s2. split; [|auto].
      intros ->. assert (x = e') by congruence. subst x.
      apply (Habs e' Hx Hm'). }
  exists m1, p, m2, m3.
  split; [exact HL1|]. split; [exact HS|]. split; [exact HR|].
  split; [unfold occupancy; lia|]. split; [exact Hsame|]. split.
  - apply absent_Lookup; [exact Hwf3|]. intros x Hx. apply Habs, Hsame, Hx.
  - split; [exact Hwf3 | split; [|split; auto]].
    destruct Hinv as (_ & Hload & _). unfold load_ok in *. lia.
Qed.

Lemma insert_write_remove_witness :
  exists m1 p m2 m3,
    LookupOrInsert PointersMatch junk table_ABC 4 3 = Some (m1, p) /\
    set_value m1 p 99 = Some m2 /\
    Remove PointersMatch m2 4 3 = Some (m3, 99) /\
    occupancy m3 = occupancy table_ABC /\
    (forall x, present m3 x <-> present table_ABC x) /\
    Lookup PointersMatch m3 4 3 = Some None /\
    table_inv PointersMatch m3.
Proof.
  apply (insert_write_remove PointersMatch junk table_ABC 4 3 99
           PointersMatch_equiv).
  - apply table_invb_sound. reflexivity.
  - discriminate.
  - reflexivity.
  - simpl. lia.
Defined.

(** The capacity an operation that returns leaves. *)
Lemma capacity_of_result (match_ : Z -> Z -> bool) (uninit : Entry)
    (op : Operation) (m m' : HashMapImpl) :
  match_equiv match_ -> table_inv match_ m -> key_ok op ->
  run match_ uninit op m = Some m' ->
  (capacity m' = capacity m \/ capacity m' = 2 * capacity m) /\
  (capacity m' = 2 * capacity m <->
   exists k h, op = OpLookupOrInsert k h /\
               Lookup match_ m k h = Some None /\
               5 * (occupancy m + 1) >= 4 * capacity m).
Proof.
  intros Hequiv Hinv Hkey Hrun. pose proof Hinv as (Hwf & Hload & Hok & Hu).
  pose proof Hwf as (Hlen & Hpow & Hcnt & Hlt).
  pose proof (IsPowerOfTwo32_bounds _ Hpow) as Hb.
  pose proof (count_live_bounds (map_ m)) as Hcb.
  unfold capacity, occupancy.
  assert (Hsame : capacity_ m' = capacity_ m ->
            (forall k h, op = OpLookupOrInsert k h ->
               Lookup match_ m k h = Some None ->
               5 * (occupancy_ m + 1) >= 4 * capacity_ m -> False) ->
            (capacity_ m' = capacity_ m \/ capacity_ m' = 2 * capacity_ m) /\
            (capacity_ m' = 2 * capacity_ m <->
             exists k h, op = OpLookupOrInsert k h /\
                         Lookup match_ m k h = Some None /\
                         5 * (occupancy_ m + 1) >= 4 * capacity_ m)).
  { intros Heq Hno. split; [auto|]. split; [lia|].
    intros (k & h & Hop & HL & Hge). exfalso. apply (Hno k h); assumption. }
  destruct op as [k h|k h|k h|]; simpl in Hrun, Hkey.
  - destruct (Lookup match_ m k h); [|discriminate]. injection Hrun as <-.
    apply Hsame; [reflexivity | discriminate].
  - destruct (LookupOrInsert_cases match_ uninit Hequiv m k h Hinv Hkey)
      as [(s & e & Hs & Hke & Hm & HL)
         |[(_ & _ & _ & HL)
          |(Habs & m1 & p & HL & _ & _ & _ & _ & Hcap)]];
      rewrite HL in Hrun; simpl in Hrun; [|discriminate|]; injection Hrun as <-.
    + apply Hsame; [reflexivity|]. intros k' h' [= <- <-] HN _.
      assert (HS : Lookup match_ m k h = Some (Some s))
        by (apply (Lookup_iff_present_aux match_ Hequiv m k h Hinv s); eauto).
      congruence.
    + assert (HN : Lookup match_ m k h = Some None)
        by (apply absent_Lookup; assumption).
      destruct (needs_growth (occupancy_ m + 1) (capacity_ m)) eqn:Hg.
      * apply needs_growth_spec in Hg; [|lia|lia].
        split; [auto|]. split; [eauto 6 | auto].
      * apply Hsame; [exact Hcap|]. intros k' h' _ _ Hge.
        apply needs_growth_spec in Hge; [congruence | lia | lia].
  - pose proof (Probe_total match_ m k h Hlen Hpow (table_wf_vacant m Hwf))
      as (p & HP & (_ & (e0 & He0 & _) & _)).
    destruct (Z.eq_dec (key e0) NULL) as [Hk0|Hk0].
    + unfold Remove in Hrun. rewrite HP in Hrun. simpl in Hrun.
      rewrite He0 in Hrun. simpl in Hrun.
      destruct (Z.eqb_spec (key e0) NULL); [|contradiction].
      injection Hrun as <-. apply Hsame; [reflexivity | discriminate].
    + destruct (Remove_present match_ m k h p e0 Hwf HP He0 Hk0)
        as (m2 & HR & _ & Hcap2 & _).
      rewrite HR in Hrun. injection Hrun as <-.
      apply Hsame; [exact Hcap2 | discriminate].
  - injection Hrun as <-. apply Hsame; [reflexivity | discriminate].
Qed.

(** An operation on a table of capacity below [2^31] returns. *)
Lemma run_returns (match_ : Z -> Z -> bool) (uninit : Entry)
    (op : Operation) (m : HashMapImpl) :
  table_wf m -> load_ok m -> key_ok op -> capacity_ m < 2 ^ 31 ->
  exists m', run match_ uninit op m = Some m'.
Proof.
  intros Hwf Hload Hkey Hcap. pose proof Hwf as (Hlen & Hpow & _).
  destruct op as [k h|k h|k h|]; simpl in *.
  - destruct (Probe_total match_ m k h Hlen Hpow (table_wf_vacant m Hwf))
      as (p & HP & (_ & (e0 & He0 & _) & _)).
    unfold Lookup. rewrite HP. simpl. rewrite He0. simpl. eauto.
  - destruct (LookupOrInsert_wf match_ uninit m k h Hwf Hload Hkey) as [_ H].
    destruct (H Hcap) as (m' & p & ->). simpl. eauto.
  - destruct (Probe_total match_ m k h Hlen Hpow (table_wf_vacant m Hwf))
      as (p & HP & (_ & (e0 & He0 & _) & _)).
    destruct (Z.eq_dec (key e0) NULL) as [Hk0|Hk0].
    + unfold Remove. rewrite HP. simpl. rewrite He0. simpl.
      destruct (Z.eqb_spec (key e0) NULL); [|contradiction]. simpl. eauto.
    + destruct (Remove_present match_ m k h p e0 Hwf HP He0 Hk0)
        as (m2 & -> & _). simpl. eauto.
  - eauto.
Qed.

(** X9: an operation on a table of capacity below [2^31] returns and
    leaves the capacity as it is or doubles it, and it doubles it in one
    case only: [LookupOrInsert] of a key that [Lookup] does not find, when
    the occupancy with the new entry reaches [0.8] of the capacity.
    [Lookup], [Remove] and [Clear] never change the capacity: the table
    does not shrink. *)
Theorem capacity_doubles_only_on_insert (match_ : Z -> Z -> bool) (uninit : Entry)
    (op : Operation) (m : HashMapImpl) :
  match_equiv match_ -> table_inv match_ m -> key_ok op ->
  capacity m < 2 ^ 31 ->
  exists m',
    run match_ uninit op m = Some m' /\
    (capacity m' = capacity m \/ capacity m' = 2 * capacity m) /\
    (capacity m' = 2 * capacity m <->
     exists k h, op = OpLookupOrInsert k h /\
                 Lookup match_ m k h = Some None /\
                 5 * (occupancy m + 1) >= 4 * capacity m).
Proof.
  intros Hequiv Hinv Hkey Hcap. pose proof Hinv as (Hwf & Hload & _).
  destruct (run_returns match_ uninit op m Hwf Hload Hkey Hcap) as [m' Hrun].
  exists m'. split; [exact Hrun|].
  apply (capacity_of_result match_ uninit op m m' Hequiv Hinv Hkey Hrun).
Qed.

Lemma capacity_doubles_only_on_insert_witness :
  exists m',
    run PointersMatch junk (OpLookupOrInsert 17 23) table_six = Some m' /\
    capacity m' = 16 /\
    (capacity m' = capacity table_six \/ capacity m' = 2 * capacity table_six) /\
    (capacity m' = 2 * capacity table_six <->
     exists k h, OpLookupOrInsert 17 23 = OpLookupOrInsert k h /\
                 Lookup PointersMatch table_six k h = Some None /\
                 5 * (occupancy table_six + 1) >= 4 * capacity table_six).
Proof.
  destruct (capacity_doubles_only_on_insert PointersMatch junk
              (OpLookupOrInsert 17 23) table_six PointersMatch_equiv)
    as (m' & Hrun & Hor & Hiff).
  - apply table_invb_sound. reflexivity.
  - discriminate.
  - simpl. lia.
  - exists m'. split; [exact Hrun|]. split; [|split; [exact Hor | exact Hiff]].
    change 16 with (2 * capacity table_six). apply Hiff.
    exists 17, 23. split; [reflexivity|]. split; [reflexivity | simpl; lia].
Defined.

Lemma Next_scan_first (t : list Entry) :
  forall n p, 0 <= p -> p + Z.of_nat n = Z.of_nat (length t) ->
  exists r,
    Next_scan n t p = Some r /\
    match r with
    | Some q => p <= q < Z.of_nat (length t) /\ live t q /\
                forall j, p <= j < q -> vacant t j
    | None => forall j, p <= j < Z.of_nat (length t) -> vacant t j
    end.
Proof.
  induction n as [|n IH]; intros p Hp Hn.
  - exists None. split; [reflexivity|]. intros j Hj. lia.
  - destruct (slot_in_range t p) as [e He]; [lia|].
    cbn [Next_scan]. rewrite He.
    destruct (Z.eqb_spec (key e) NULL) as [Hk|Hk]; cbn [negb].
    + destruct (IH (p + 1)) as (r & Hr & Hspec); [lia | lia |].
      exists r. split; [exact Hr|].
      assert (Hvp : vacant t p) by (exists e; auto).
      destruct r as [q|].
      * destruct Hspec as (Hq & Hl & Hv). split; [lia|]. split; [exact Hl|].
        intros j Hj. destruct (Z.eq_dec j p) as [->|]; [exact Hvp|].
        apply Hv. lia.
      * intros j Hj. destruct (Z.eq_dec j p) as [->|]; [exact Hvp|].
        apply Hspec. lia.
    + exists (Some p). split; [reflexivity|]. split; [lia|].
      split; [exists e; auto|]. intros j Hj. lia.
Qed.

(** X10: [Next] on a cursor [p], whether the offset [-1] that [Start]
    passes or a slot of the array, returns the first live slot after [p],
    every slot in between being empty, and [NULL] when no slot after [p]
    is live. It never returns the cursor or a slot before it. *)
Theorem Next_first_live_after (m : HashMapImpl) (p : Z) :
  Z.of_nat (length (map_ m)) = capacity_ m -> -1 <= p < capacity_ m ->
  exists r,
    Next m p = Some r /\
    match r with
    | Some q => p < q < capacity m /\ live (map_ m) q /\
                forall j, p < j < q -> vacant (map_ m) j
    | None => forall j, p < j < capacity m -> vacant (map_ m) j
    end.
Proof.
  intros Hlen Hp. unfold Next, capacity.
  destruct (Next_scan_first (map_ m) (Z.to_nat (capacity_ m - (p + 1))) (p + 1))
    as (r & Hr & Hspec); [lia | lia |].
  exists r. split; [exact Hr|]. rewrite Hlen in Hspec.
  destruct r as [q|].
  - destruct Hspec as (Hq & Hl & Hv). split; [lia|]. split; [exact Hl|].
    intros j Hj. apply Hv. lia.
  - intros j Hj. apply Hspec. lia.
Qed.

Lemma Next_first_live_after_witness :
  exists r,
    Next table_ABC 2 = Some r /\
    match r with
    | Some q => 2 < q < capacity table_ABC /\ live (map_ table_ABC) q /\
                forall j, 2 < j < q -> vacant (map_ table_ABC) j
    | None => forall j, 2 < j < capacity table_ABC -> vacant (map_ table_ABC) j
    end.
Proof.
  apply (Next_first_live_after table_ABC 2).
  - reflexivity.
  - simpl. lia.
Defined.

(** X11: on a well-formed table the iteration with [Start] and [Next]
    visits as many entries as [occupancy()] says. *)
Theorem iterate_counts_occupancy (m : HashMapImpl) :
  table_wf m ->
  exists visited,
    iterate m = Some visited /\ Z.of_nat (length visited) = occupancy m.
Proof.
  intros (Hlen & _ & Hcnt & _). exists (live_slots m).
  split; [apply iterate_live_slots, Hlen|].
  unfold live_slots, occupancy. rewrite length_live_from. auto.
Qed.

Lemma iterate_counts_occupancy_witness :
  exists visited,
    iterate table_ABC = Some visited /\
    Z.of_nat (length visited) = occupancy table_ABC.
Proof.
  apply (iterate_counts_occupancy table_ABC).
  apply table_wfb_sound. reflexivity.
Defined.

(** X12: the hash is part of the identity of a key. On a table of occupancy
    below [1717986917], so that the two insertions do not have to grow a
    table of capacity [2^31] ([5 * (occupancy + 2) < 2^33]),
    [LookupOrInsert] of one key under two different hashes, neither found by
    [Lookup] before, makes two entries: the occupancy is two more and
    [Lookup] under each hash returns an entry of its own. *)
Theorem same_key_two_hashes (match_ : Z -> Z -> bool) (uninit : Entry)
    (m : HashMapImpl) (k h1 h2 : Z) :
  match_equiv match_ -> table_inv match_ m -> k <> NULL -> h1 <> h2 ->
  Lookup match_ m k h1 = Some None -> Lookup match_ m k h2 = Some None ->
  5 * (occupancy m + 2) < 2 ^ 33 ->
  exists m2,
    insert_all match_ uninit m [(k, h1); (k, h2)] = Some m2 /\
    occupancy m2 = occupancy m + 2 /\
    exists p1 p2, p1 <> p2 /\
      Lookup match_ m2 k h1 = Some (Some p1) /\
      Lookup match_ m2 k h2 = Some (Some p2).
Proof.
  intros Hequiv Hinv Hk Hh HL1 HL2 Hbound. pose proof Hinv as (Hwf & _ & Hok & _).
  pose proof (Lookup_None_absent match_ m k h1 Hwf Hok HL1) as Habs1.
  pose proof (Lookup_None_absent match_ m k h2 Hwf Hok HL2) as Habs2.
  destruct (insert_all_spec match_ uninit Hequiv [(k, h1); (k, h2)] m Hinv)
    as (m2 & HI & Hinv2 & Hocc & _ & Hall).
  - intros kh [->|[->|Hin]%elem_of_cons]%elem_of_cons;
      [exact Hk | exact Hk | inversion Hin].
  - intros [|[|i]] [|[|j]] kh1 kh2 H1 H2 Hij; simpl in H1, H2;
      try discriminate; try lia;
      injection H1 as <-; injection H2 as <-; simpl; intros [? _]; congruence.
  - intros kh e [->|[->|Hin]%elem_of_cons]%elem_of_cons;
      [apply Habs1 | apply Habs2 | inversion Hin].
  - unfold occupancy in Hbound. simpl. lia.
  - exists m2. split; [exact HI|]. split; [unfold occupancy; simpl in Hocc; lia|].
    pose proof Hinv2 as (Hwf2 & _ & Hok2 & Hu2).
    destruct (Hall (k, h1)) as (x1 & (p1 & Hp1 & Hkx1) & Hk1 & Hhx1);
      [apply elem_of_cons; auto|].
    destruct (Hall (k, h2)) as (x2 & (p2 & Hp2 & Hkx2) & Hk2 & Hhx2);
      [apply elem_of_cons; right; apply elem_of_cons; auto|].
    simpl in Hk1, Hhx1, Hk2, Hhx2. exists p1, p2. split; [|split].
    + intros ->. congruence.
    + destruct (present_Lookup match_ m2 p1 x1 Hequiv Hwf2 Hok2 Hu2 Hp1 Hkx1)
        as [_ H]. rewrite Hk1, Hhx1 in H. exact H.
    + destruct (present_Lookup match_ m2 p2 x2 Hequiv Hwf2 Hok2 Hu2 Hp2 Hkx2)
        as [_ H]. rewrite Hk2, Hhx2 in H. exact H.
Qed.

Lemma same_key_two_hashes_witness :
  exists m2,
    insert_all PointersMatch junk table_ABC [(4, 3); (4, 5)] = Some m2 /\
    occupancy m2 = occupancy table_ABC + 2 /\
    exists p1 p2, p1 <> p2 /\
      Lookup PointersMatch m2 4 3 = Some (Some p1) /\
      Lookup PointersMatch m2 4 5 = Some (Some p2).
Proof.
  apply (same_key_two_hashes PointersMatch junk table_ABC 4 3 5
           PointersMatch_equiv).
  - apply table_invb_sound. reflexivity.
  - discriminate.
  - discriminate.
  - reflexivity.
  - reflexivity.
  - simpl. lia.
Defined.

Lemma to_int_small x : 0 <= x < 2 ^ 31 -> to_int x = x.
Proof. intros H. unfold to_int. destruct (Z.ltb_spec x (2 ^ 31)); lia. Qed.

Lemma insert_all_order (match_ : Z -> Z -> bool) (uninit : Entry) l :
  match_equiv match_ ->
  forall m,
    table_inv match_ m ->
    (forall kh, kh ∈ l -> kh.1 <> NULL) ->
    pairs_distinct match_ l ->
    (forall kh e, kh ∈ l -> present m e -> ~ matches match_ kh.1 kh.2 e) ->
    5 * (occupancy_ m + Z.of_nat (length l)) < 2 ^ 33 ->
    exists m',
      insert_all match_ uninit m l = Some m' /\
      table_inv match_ m' /\
      (forall x, present m x -> present m' x) /\
      (forall (i : nat) kh, l !! i = Some kh ->
         present m' {| key := kh.1; value := NULL; hash := kh.2;
                       order := occupancy_ m + Z.of_nat i |}).
Proof.
  intros Hequiv.
  induction l as [|[k h] l IH]; intros m Hinv Hkeys Hdist Hfresh Hbound.
  - exists m. simpl. split; [reflexivity|]. split; [exact Hinv|].
    split; [auto|]. intros i kh Hi. destruct i; discriminate.
  - pose proof Hinv as ((_ & _ & Hcnt & _) & _).
    pose proof (count_live_bounds (map_ m)) as Hcb.
    rewrite length_cons in Hbound.
    destruct (LookupOrInsert_fresh match_ uninit Hequiv m k h Hinv)
      as (m1 & p & HL & Hinv1 & Hs1 & Hpres1 & Hocc1 & _).
    { apply (Hkeys (k, h)). apply elem_of_cons. auto. }
    { intros e. apply (Hfresh (k, h)). apply elem_of_cons. auto. }
    { lia. }
    rewrite to_int_small in Hs1, Hpres1 by lia.
    destruct (IH m1 Hinv1) as (m' & HI & Hinv' & Hkeep & Hall).
    { intros kh Hin. apply Hkeys. apply elem_of_cons. auto. }
    { apply (pairs_distinct_tail match_ _ _ Hdist). }
    { intros kh e Hin Hp. apply Hpres1 in Hp as [Hp| ->].
      - apply (Hfresh kh); [apply elem_of_cons; auto | exact Hp].
      - apply (pairs_distinct_head match_ k h l kh Hdist Hin). }
    { lia. }
    exists m'. cbn [insert_all]. rewrite HL. simpl.
    split; [exact HI|]. split; [exact Hinv'|]. split.
    + intros x Hx. apply Hkeep, Hpres1. auto.
    + intros [|i] kh Hi; simpl in Hi.
      * injection Hi as <-. simpl. apply Hkeep, Hpres1. right.
        f_equal. lia.
      * specialize (Hall i kh Hi). rewrite Hocc1 in Hall.
        replace (occupancy_ m + Z.of_nat (S i))
          with (occupancy_ m + 1 + Z.of_nat i) by lia.
        exact Hall.
Qed.

(** X13: the [order] of an entry is its insertion order as long as nothing
    is removed, growth included: after a sequence of at most [1717986918]
    [LookupOrInsert] of pairwise different keys into a new table
    ([5 * n < 2^33] for [n] keys, so that the capacity stays within
    [2^31]), [Lookup] of the key inserted at position [i] returns an entry
    with that key and hash, the value [NULL] and the order [i]. *)
Theorem order_is_insertion_order (match_ : Z -> Z -> bool) (uninit : Entry)
    (c : Z) (l : list (Z * Z)) :
  match_equiv match_ -> IsPowerOfTwo32 c ->
  (forall kh, kh ∈ l -> kh.1 <> NULL) ->
  pairs_distinct match_ l ->
  5 * Z.of_nat (length l) < 2 ^ 33 ->
  exists m,
    insert_all match_ uninit (HashMapImpl_new uninit c) l = Some m /\
    forall (i : nat) kh, l !! i = Some kh ->
      exists p,
        Lookup match_ m kh.1 kh.2 = Some (Some p) /\
        slot (map_ m) p = Some {| key := kh.1; value := NULL; hash := kh.2;
                                  order := Z.of_nat i |}.
Proof.
  intros Hequiv Hpow Hkeys Hdist Hbound.
  pose proof (Initialize_inv match_ uninit c Hpow) as Hinv0.
  pose proof (IsPowerOfTwo32_bounds _ Hpow) as Hb.
  destruct (Initialize_fields uninit c ltac:(lia)) as (_ & _ & Hocc0 & Hnone0).
  destruct (no_live_inv match_ _ Hnone0) as (_ & _ & _ & Hnp0).
  destruct (insert_all_order match_ uninit l Hequiv (Initialize uninit c)
              Hinv0 Hkeys Hdist)
    as (m & HI & (Hwf & Hload & Hok & Hu) & _ & Hall).
  { intros kh e _ Hp. exfalso. apply (Hnp0 e Hp). }
  { rewrite Hocc0. lia. }
  exists m. split; [exact HI|]. intros i kh Hi.
  destruct (Hall i kh Hi) as (s & Hs & Hks). rewrite Hocc0 in Hs.
  simpl in Hs. exists s. split; [|exact Hs].
  destruct (present_Lookup match_ m s _ Hequiv Hwf Hok Hu Hs Hks) as [_ HL].
  exact HL.
Qed.

Lemma order_is_insertion_order_witness :
  exists m,
    insert_all PointersMatch junk (HashMapImpl_new junk 8)
      (map fst seven_keys) = Some m /\
    forall (i : nat) kh, map fst seven_keys !! i = Some kh ->
      exists p,
        Lookup PointersMatch m kh.1 kh.2 = Some (Some p) /\
        slot (map_ m) p = Some {| key := kh.1; value := NULL; hash := kh.2;
                                  order := Z.of_nat i |}.
Proof.
  apply (order_is_insertion_order PointersMatch junk 8 (map fst seven_keys)
           PointersMatch_equiv).
  - exists 3. split; [lia | reflexivity].
  - apply Forall_forall. repeat constructor; discriminate.
  - apply pairs_distinctb_sound. reflexivity.
  - simpl. lia.
Defined.

Lemma dist_from_next cap p0 q z :
  0 <= p0 < cap -> 0 <= q < cap -> 0 <= z < cap ->
  dist cap p0 q < dist cap p0 z -> next_slot cap q <> z ->
  dist cap p0 (next_slot cap q) = dist cap p0 q + 1 /\
  dist cap p0 (next_slot cap q) < dist cap p0 z.
Proof.
  intros Hp Hq Hz. unfold next_slot.
  destruct (Z.eqb_spec (q + 1) cap); intros; cyc.
Qed.

(** X14: [Remove] is local. It rewrites only slots from the slot [p0] of the
    removed entry up to the first empty slot after it, going round the end
    of the table: for an empty slot [z], every slot [s] that is at least as
    far after [p0] as [z] holds after [Remove] what it held before. *)
Theorem Remove_is_local (match_ : Z -> Z -> bool) (m m' : HashMapImpl)
    (k h p0 z s v : Z) :
  table_wf m ->
  Lookup match_ m k h = Some (Some p0) ->
  vacant (map_ m) z ->
  0 <= s < capacity m ->
  dist (capacity m) p0 z <= dist (capacity m) p0 s ->
  Remove match_ m k h = Some (m', v) ->
  slot (map_ m') s = slot (map_ m) s.
Proof.
  intros Hwf HL Hvz Hs Hzs HR. unfold capacity in *.
  pose proof Hwf as (Hlen & Hpow & Hcnt & Hlt).
  pose proof (IsPowerOfTwo32_bounds _ Hpow) as Hbnd.
  destruct (Lookup_Some_inv match_ m k h p0 HL) as (HP & e0 & He0 & Hk0).
  set (cap := capacity_ m) in *.
  assert (Hl0 : live (map_ m) p0) by (exists e0; auto).
  assert (Hp0 : 0 <= p0 < cap) by (apply slot_Some_range in He0; lia).
  assert (Hz : 0 <= z < cap).
  { destruct Hvz as (ez & Hez & _). apply slot_Some_range in Hez. lia. }
  assert (Hzp0 : z <> p0) by (intros ->; apply (live_vacant_excl _ _ Hl0 Hvz)).
  set (I := fun (m1 : HashMapImpl) (p q : Z) =>
              shift_inv match_ m p0 z m1 p q /\
              dist cap p0 p <= dist cap p0 q /\
              dist cap p0 q < dist cap p0 z /\
              forall t, 0 <= t < cap -> dist cap p0 q < dist cap p0 t ->
                slot (map_ m1) t = slot (map_ m) t).
  destruct (Remove_loop_rule I cap z) with
    (fuel := S (length (map_ m))) (m := m) (p := p0) (q := p0)
    as (m1 & p1 & q1 & Hloop & (Hinv & Hpq & Hqz & Hsame) & _).
  { intros m1 p q (((Hl' & Hc' & _) & (_ & Hq & Hz' & _ & Hlq & Hvz') & _) & _).
    repeat split; try assumption; try lia.
    intros ->. apply (live_vacant_excl _ _ Hlq Hvz'). }
  { intros m1 p q ent (Hinv & Hpq & Hqz & Hsame) Hent Hke.
    pose proof (shift_inv_step match_ m p0 z m1 p q ent Hpow Hinv Hent Hke) as Hnext.
    fold cap in Hent, Hnext.
    destruct Hinv as ((Hlen1 & _) & (Hp & Hq & _ & _ & _ & Hvz1) & _).
    fold cap in Hlen1, Hp, Hq.
    assert (Hne : next_slot cap q <> z).
    { intros Heq. apply (live_vacant_excl (map_ m1) z); [|exact Hvz1].
      rewrite <- Heq. exists ent. auto. }
    destruct (dist_from_next cap p0 q z Hp0 Hq Hz Hqz Hne) as [Hd1 Hd2].
    split; [exact Hnext|]. unfold Remove_shift.
    destruct (moves p (next_slot cap q) _); cbn [fst snd with_map map_].
    - split; [lia|]. split; [exact Hd2|]. intros t Ht Hdt.
      rewrite slot_store_ne; [apply Hsame; lia | lia | intros ->; lia].
    - split; [lia|]. split; [exact Hd2|]. intros t Ht Hdt.
      apply Hsame; lia. }
  { split; [apply shift_inv_init; assumption|].
    rewrite dist_self by lia.
    pose proof (dist_range cap p0 z ltac:(lia)).
    assert (dist cap p0 z <> 0).
    { intros H0. apply Hzp0. symmetry. apply (dist_zero cap); assumption. }
    split; [lia|]. split; [lia|]. reflexivity. }
  { pose proof (dist_range cap p0 z ltac:(lia)). lia. }
  destruct Hinv as (_ & (_ & _ & _ & (e1 & He1 & _) & _) & _).
  unfold Remove in HR. rewrite HP in HR. cbn -[Remove_loop] in HR.
  rewrite He0 in HR. cbn -[Remove_loop] in HR.
  destruct (Z.eqb_spec (key e0) NULL); [contradiction|].
  rewrite Hloop in HR. simpl in HR. rewrite He1 in HR. simpl in HR.
  injection HR as <- _. cbn [map_].
  rewrite slot_store_ne; [apply Hsame; lia | | intros ->; lia].
  apply slot_Some_range in He1. lia.
Qed.

Lemma Remove_is_local_witness :
  exists m' v,
    Remove PointersMatch table_ABC 2 8 = Some (m', v) /\
    slot (map_ m') 0 = slot (map_ table_ABC) 0.
Proof.
  eexists _, _. split; [reflexivity|].
  eapply (Remove_is_local PointersMatch table_ABC _ 2 8 1 3 0).
  - apply table_wfb_sound. reflexivity.
  - reflexivity.
  - eexists. split; [reflexivity | reflexivity].
  - unfold capacity. simpl. lia.
  - vm_compute. discriminate.
  - reflexivity.
Defined.

(** X15: [Remove] brings nothing into the table. After [Remove] of a key
    found in slot [p0], every entry of the table is an entry that was in
    another slot than [p0] before, and a key that [Lookup] did not find
    before is not found after. *)
Theorem Remove_adds_nothing (match_ : Z -> Z -> bool) (m m' : HashMapImpl)
    (k h p0 v : Z) :
  table_wf m -> probe_ok m ->
  Lookup match_ m k h = Some (Some p0) ->
  Remove match_ m k h = Some (m', v) ->
  (forall e, present m' e ->
     exists s, s <> p0 /\ slot (map_ m) s = Some e /\ key e <> NULL) /\
  (forall k2 h2, Lookup match_ m k2 h2 = Some None ->
                 Lookup match_ m' k2 h2 = Some None).
Proof.
  intros Hwf Hok HL HR.
  destruct (Lookup_Some_inv match_ m k h p0 HL) as (HP & e0 & He0 & Hk0).
  destruct (Remove_present match_ m k h p0 e0 Hwf HP He0 Hk0)
    as (m1 & HR1 & Hwf1 & _ & _ & _ & _ & Hpres).
  rewrite HR in HR1. injection HR1 as <- _.
  split.
  - intros e He. apply Hpres. exact He.
  - intros k2 h2 HL2. apply absent_Lookup; [exact Hwf1|].
    intros e He. apply Hpres in He as (s & _ & Hs & Hke).
    apply (Lookup_None_absent match_ m k2 h2 Hwf Hok HL2). exists s. auto.
Qed.

Lemma Remove_adds_nothing_witness :
  exists m' v,
    Remove PointersMatch table_ABC 2 8 = Some (m', v) /\
    (forall e, present m' e ->
       exists s, s <> 1 /\ slot (map_ table_ABC) s = Some e /\ key e <> NULL) /\
    (forall k2 h2, Lookup PointersMatch table_ABC k2 h2 = Some None ->
                   Lookup PointersMatch m' k2 h2 = Some None).
Proof.
  eexists _, _. split; [reflexivity|].
  eapply (Remove_adds_nothing PointersMatch table_ABC _ 2 8 1).
  - apply table_wfb_sound. reflexivity.
  - apply probe_okb_sound. reflexivity.
  - reflexivity.
  - reflexivity.
Defined.

(** ** Growth at capacity [2^31] *)

Lemma distinct_keys_lookup n (i : nat) kh :
  distinct_keys n !! i = Some kh ->
  kh = (Z.of_nat i + 1, Z.of_nat i) /\ (i < n)%nat.
Proof.
  unfold distinct_keys. rewrite list_lookup_fmap. intros H.
  destruct (seq 0 n !! i) as [j|] eqn:E; [|discriminate].
  apply lookup_seq in E as [-> Hi]. injection H as <-. auto.
Qed.

Lemma length_distinct_keys n : length (distinct_keys n) = n.
Proof. unfold distinct_keys. rewrite length_fmap. apply length_seq. Qed.

Lemma distinct_keys_S n :
  distinct_keys (S n) = distinct_keys n ++ [(Z.of_nat n + 1, Z.of_nat n)].
Proof. unfold distinct_keys. rewrite seq_S, fmap_app. reflexivity. Qed.

Lemma distinct_keys_not_NULL n kh : kh ∈ distinct_keys n -> kh.1 <> NULL.
Proof.
  intros [i Hi]%list_elem_of_lookup.
  apply distinct_keys_lookup in Hi as [-> _]. unfold NULL. simpl. lia.
Qed.

Lemma distinct_keys_distinct n : pairs_distinct PointersMatch (distinct_keys n).
Proof.
  intros i j kh1 kh2 H1 H2 Hij [_ Hm].
  apply distinct_keys_lookup in H1 as [-> _].
  apply distinct_keys_lookup in H2 as [-> _].
  unfold PointersMatch in Hm. simpl in Hm. apply Z.eqb_eq in Hm. lia.
Qed.

Lemma insert_all_app (match_ : Z -> Z -> bool) (uninit : Entry) l1 l2 :
  forall m,
    insert_all match_ uninit m (l1 ++ l2) =
    m1 ← insert_all match_ uninit m l1; insert_all match_ uninit m1 l2.
Proof.
  induction l1 as [|[k h] l1 IH]; intros m; [reflexivity|].
  cbn [app insert_all].
  destruct (LookupOrInsert match_ uninit m k h) as [[m1 p]|]; [|reflexivity].
  cbn [mbind option_bind]. apply IH.
Qed.

(** What a sequence of insertions of different new keys leaves when it
    returns, whatever its length. *)
Lemma insert_all_returned (match_ : Z -> Z -> bool) (uninit : Entry) l :
  match_equiv match_ ->
  forall m m',
    table_inv match_ m ->
    (forall kh, kh ∈ l -> kh.1 <> NULL) ->
    pairs_distinct match_ l ->
    (forall kh e, kh ∈ l -> present m e -> ~ matches match_ kh.1 kh.2 e) ->
    insert_all match_ uninit m l = Some m' ->
    table_inv match_ m' /\
    occupancy_ m' = occupancy_ m + Z.of_nat (length l).
Proof.
  intros Hequiv.
  induction l as [|[k h] l IH]; intros m m' Hinv Hkeys Hdist Hfresh HI.
  - injection HI as <-. split; [exact Hinv | simpl; lia].
  - cbn [insert_all] in HI. rewrite length_cons.
    assert (Hk : k <> NULL) by (apply (Hkeys (k, h)), elem_of_cons; auto).
    destruct (LookupOrInsert_cases match_ uninit Hequiv m k h Hinv Hk)
      as [(s & e & Hs & Hke & Hm & HL)
         |[(_ & _ & _ & HL)
          |(Habs & m1 & p & HL & Hinv1 & _ & Hpres1 & Hocc1 & _)]].
    + exfalso. apply (Hfresh (k, h) e); [apply elem_of_cons; auto | | exact Hm].
      exists s. auto.
    + rewrite HL in HI. discriminate.
    + rewrite HL in HI. cbn [mbind option_bind] in HI.
      destruct (IH m1 m' Hinv1) as [Hinv' Hocc']; [| | |exact HI|].
      * intros kh Hin. apply Hkeys, elem_of_cons. auto.
      * apply (pairs_distinct_tail match_ _ _ Hdist).
      * intros kh e Hin Hp. apply Hpres1 in Hp as [Hp| ->].
        -- apply (Hfresh kh); [apply elem_of_cons; auto | exact Hp].
        -- apply (pairs_distinct_head match_ k h l kh Hdist Hin).
      * split; [exact Hinv' | lia].
Qed.

(** After [1717986918] insertions of different keys the capacity is [2^31]
    and the next new key meets the growth test: [capacity_ * 2] is [0] in
    [uint32_t], the new block is empty and [LookupOrInsert] has no
    result. *)
Lemma table_at_limit (uninit : Entry) (n : nat) :
  Z.of_nat n = 1717986918 ->
  exists m,
    insert_all PointersMatch uninit (HashMapImpl_new uninit 8) (distinct_keys n)
      = Some m /\
    table_inv PointersMatch m /\
    occupancy_ m = 1717986918 /\
    capacity_ m = 2 ^ 31 /\
    (forall e, present m e -> ~ matches PointersMatch 1717986919 1717986918 e) /\
    needs_growth (occupancy_ m + 1) (capacity_ m) = true /\
    LookupOrInsert PointersMatch uninit m 1717986919 1717986918 = None.
Proof.
  intros Hn.
  assert (Hpow : IsPowerOfTwo32 8) by (exists 3; split; [lia | reflexivity]).
  pose proof (Initialize_inv PointersMatch uninit 8 Hpow) as Hinv0.
  destruct (Initialize_fields uninit 8 ltac:(lia)) as (_ & _ & Hocc0 & Hnone0).
  destruct (no_live_inv PointersMatch _ Hnone0) as (_ & _ & _ & Hnp0).
  assert (Hfresh0 : forall (l : list (Z * Z)) (kh : Z * Z) e, kh ∈ l ->
            present (Initialize uninit 8) e ->
            ~ matches PointersMatch kh.1 kh.2 e).
  { intros l kh e _ Hp. exfalso. apply (Hnp0 e Hp). }
  destruct (insert_all_spec PointersMatch uninit PointersMatch_equiv
              (distinct_keys n) (Initialize uninit 8) Hinv0
              (distinct_keys_not_NULL n) (distinct_keys_distinct n)
              (Hfresh0 _))
    as (m & HI & Hinv & Hocc & _).
  { rewrite Hocc0, length_distinct_keys. lia. }
  rewrite Hocc0, length_distinct_keys in Hocc.
  assert (HS : distinct_keys (S n)
               = distinct_keys n ++ [(1717986919, 1717986918)]).
  { rewrite distinct_keys_S, Hn. reflexivity. }
  assert (Hlast : forall r,
            LookupOrInsert PointersMatch uninit m 1717986919 1717986918
              = Some r ->
            insert_all PointersMatch uninit (Initialize uninit 8)
              (distinct_keys (S n)) = Some r.1).
  { intros [m1 p] HL. rewrite HS, insert_all_app. unfold HashMapImpl_new in HI.
    rewrite HI. cbn [mbind option_bind insert_all]. rewrite HL. reflexivity. }
  exists m. split; [exact HI|]. split; [exact Hinv|]. split; [lia|].
  destruct (LookupOrInsert_cases PointersMatch uninit PointersMatch_equiv m
              1717986919 1717986918 Hinv ltac:(discriminate))
    as [(s & e & Hs & Hke & Hm & HL)
       |[(Habs & Hcap & Hg & HL)
        |(Habs & m1 & p & HL & Hinv1 & _ & _ & Hocc1 & _)]].
  - exfalso.
    destruct (insert_all_returned PointersMatch uninit (distinct_keys (S n))
                PointersMatch_equiv (Initialize uninit 8) m Hinv0
                (distinct_keys_not_NULL _) (distinct_keys_distinct _)
                (Hfresh0 _) (Hlast _ HL)) as [_ Hocc'].
    rewrite Hocc0, length_distinct_keys in Hocc'. lia.
  - auto.
  - exfalso. destruct Hinv1 as ((_ & Hpow1 & _) & Hload1 & _).
    pose proof (IsPowerOfTwo32_bounds _ Hpow1) as Hb. unfold load_ok in Hload1.
    lia.
Qed.

Lemma insert_all_overflow (uninit : Entry) (n : nat) :
  Z.of_nat n = 1717986919 ->
  insert_all PointersMatch uninit (HashMapImpl_new uninit 8) (distinct_keys n)
  = None.
Proof.
  intros Hn. destruct n as [|n]; [lia|].
  assert (Hn' : Z.of_nat n = 1717986918) by lia.
  destruct (table_at_limit uninit n Hn') as (m & HI & _ & _ & _ & _ & _ & HL).
  rewrite distinct_keys_S, Hn', insert_all_app, HI.
  cbn [mbind option_bind insert_all].
  change (1717986918 + 1) with 1717986919. rewrite HL. reflexivity.
Qed.

(** C3: the sequence of [LookupOrInsert] of the [1717986919] pairwise
    different keys [1 .. 1717986919], key [i + 1] with hash [i], from a
    fresh table of capacity 8 has no result: the last insertion meets the
    growth test at capacity [2^31], where [capacity_ * 2] is [0] in
    [uint32_t], and reads out of the empty block [Initialize(0)] leaves. *)
Theorem insertions_overflow_capacity :
  (forall kh, kh ∈ distinct_keys (Z.to_nat 1717986919) -> kh.1 <> NULL) /\
  pairs_distinct PointersMatch (distinct_keys (Z.to_nat 1717986919)) /\
  insert_all PointersMatch junk (HashMapImpl_new junk 8)
    (distinct_keys (Z.to_nat 1717986919)) = None.
Proof.
  split; [apply distinct_keys_not_NULL|].
  split; [apply distinct_keys_distinct|].
  apply insert_all_overflow. apply Z2Nat.id. lia.
Qed.

(** C5: the table that [LookupOrInsert] of the keys [1 .. 1717986918] leaves
    in a fresh table of capacity 8 satisfies the invariants and has capacity
    [2^31]. [LookupOrInsert] of one more new key triggers growth there; the
    doubled capacity [capacity_ * 2] is [0] in [uint32_t], not twice the
    capacity and no power of two, and the call has no result. *)
Theorem growth_at_limit_not_double :
  exists m,
    insert_all PointersMatch junk (HashMapImpl_new junk 8)
      (distinct_keys (Z.to_nat 1717986918)) = Some m /\
    table_inv PointersMatch m /\
    capacity m = 2 ^ 31 /\
    occupancy m = 1717986918 /\
    Lookup PointersMatch m 1717986919 1717986918 = Some None /\
    needs_growth (occupancy m + 1) (capacity m) = true /\
    u32 (capacity m * 2) = 0 /\
    ~ IsPowerOfTwo32 (u32 (capacity m * 2)) /\
    LookupOrInsert PointersMatch junk m 1717986919 1717986918 = None.
Proof.
  destruct (table_at_limit junk (Z.to_nat 1717986918))
    as (m & HI & Hinv & Hocc & Hcap & Habs & Hg & HL);
    [apply Z2Nat.id; lia|].
  assert (Hw : u32 (capacity_ m * 2) = 0) by (rewrite Hcap; reflexivity).
  exists m. unfold capacity, occupancy.
  split; [exact HI|]. split; [exact Hinv|]. split; [exact Hcap|].
  split; [exact Hocc|]. split; [|split; [exact Hg|split; [exact Hw|split]]].
  - apply absent_Lookup; [apply Hinv | exact Habs].
  - rewrite Hw. intros Hp. apply IsPowerOfTwo32_bounds in Hp. lia.
  - exact HL.
Qed.
